(** * pretty-mermaid, ASCII renderer: canvas, grid placement, A* routing

    A shallow embedding of [src/pretty_mermaid/ascii]: [types.py],
    [canvas.py], [pathfinder.py], [edge_routing.py], [grid.py] and the
    arrow part of [draw.py], with the properties of the layout engine
    stated and proved over it.

    Conventions.  Python integers are [Z].  A canvas cell is a Python
    one-character [str]; it is modelled as a [string] holding the UTF-8
    bytes of that character.  A Python list is a [list]; indexing with an
    integer follows Python (negative indices count from the end, anything
    else out of range raises [IndexError]) and is modelled in [option],
    [None] standing for the raised exception.  Dictionaries are [gmap]s. *)

From Stdlib Require Import ZArith List String Ascii Lia.
From stdpp Require Import gmap strings list fin_maps sorting.

Local Open Scope string_scope.
Local Open Scope Z_scope.

(** ** Python lists *)

Module Py.

(** [l[i]] *)
Definition get {A} (l : list A) (i : Z) : option A :=
  if decide (0 <= i) then l !! Z.to_nat i
  else if decide (- Z.of_nat (length l) <= i)
       then l !! Z.to_nat (Z.of_nat (length l) + i)
       else None.

(** [l[i] = v] *)
Definition set {A} (l : list A) (i : Z) (v : A) : option (list A) :=
  if decide (0 <= i) then
    if decide (i < Z.of_nat (length l)) then Some (<[Z.to_nat i := v]> l) else None
  else if decide (- Z.of_nat (length l) <= i)
       then Some (<[Z.to_nat (Z.of_nat (length l) + i) := v]> l)
       else None.

(** [for i in range(n): s = body(i, s)], where the body may raise. *)
Fixpoint for_from {St} (start : Z) (count : nat) (body : Z -> St -> option St)
    (s : St) : option St :=
  match count with
  | O => Some s
  | S k => s' ← body start s; for_from (start + 1) k body s'
  end.

Definition for_range {St} (n : Z) (body : Z -> St -> option St) (s : St) : option St :=
  for_from 0 (Z.to_nat n) body s.

(** [for x in xs: s = body(x, s)] *)
Fixpoint for_each {A St} (xs : list A) (body : A -> St -> option St) (s : St)
    : option St :=
  match xs with
  | [] => Some s
  | x :: r => s' ← body x s; for_each r body s'
  end.

(** [sep.join(lines)] *)
Fixpoint join (sep : string) (lines : list string) : string :=
  match lines with
  | [] => EmptyString
  | [l] => l
  | l :: r => l +:+ sep +:+ join sep r
  end.

End Py.

(** ** types.py *)

Record GridCoord := mkGridCoord { gx : Z; gy : Z }.
Record DrawingCoord := mkDrawingCoord { dcx : Z; dcy : Z }.
Record Direction := mkDirection { dirx : Z; diry : Z }.

Global Instance GridCoord_eq_dec : EqDecision GridCoord.
Proof. solve_decision. Defined.
Global Instance Direction_eq_dec : EqDecision Direction.
Proof. solve_decision. Defined.
Global Instance DrawingCoord_eq_dec : EqDecision DrawingCoord.
Proof. solve_decision. Defined.

Definition Up := mkDirection 1 0.
Definition Down := mkDirection 1 2.
Definition Left := mkDirection 0 1.
Definition Right := mkDirection 2 1.
Definition UpperRight := mkDirection 2 0.
Definition UpperLeft := mkDirection 0 0.
Definition LowerRight := mkDirection 2 2.
Definition LowerLeft := mkDirection 0 2.
Definition Middle := mkDirection 1 1.

(** A canvas is column-major: [canvas[x][y]]. *)
Definition Canvas := list (list string).

Inductive GraphDirection := LR | TD.

Global Instance GraphDirection_eq_dec : EqDecision GraphDirection.
Proof. solve_decision. Defined.

Definition grid_coord_equals (a b : GridCoord) : bool :=
  bool_decide (gx a = gx b) && bool_decide (gy a = gy b).

Definition drawing_coord_equals (a b : DrawingCoord) : bool :=
  bool_decide (dcx a = dcx b) && bool_decide (dcy a = dcy b).

Definition grid_coord_direction (c : GridCoord) (d : Direction) : GridCoord :=
  mkGridCoord (gx c + dirx d) (gy c + diry d).

(** [grid_key] formats a coordinate as the text [x,y].  Decimal formatting
    of two integers separated by a comma is injective, and the dictionaries
    keyed by it are only ever addressed through [grid_key]; the key is
    modelled as the pair itself. *)
Definition grid_key (c : GridCoord) : Z * Z := (gx c, gy c).

(** ** canvas.py *)

Definition space : string := " ".
Definition newline : string := String (ascii_of_nat 10) EmptyString.

Definition mk_canvas (x y : Z) : Canvas :=
  replicate (Z.to_nat (x + 1)) (replicate (Z.to_nat (y + 1)) space).

Definition get_canvas_size (canvas : Canvas) : Z * Z :=
  (Z.of_nat (length canvas) - 1,
   match canvas with
   | [] => 1
   | col0 :: _ => Z.of_nat (length col0)
   end - 1).

Definition copy_canvas (source : Canvas) : Canvas :=
  let '(max_x, max_y) := get_canvas_size source in mk_canvas max_x max_y.

(** [canvas[x][y]] and [canvas[x][y] = v] *)
Definition cget (canvas : Canvas) (x y : Z) : option string :=
  col ← Py.get canvas x; Py.get col y.

Definition cset (canvas : Canvas) (x y : Z) (v : string) : option Canvas :=
  col ← Py.get canvas x; col' ← Py.set col y v; Py.set canvas x col'.

(** [len(canvas[0])] *)
Definition len0 (canvas : Canvas) : option Z :=
  col ← Py.get canvas 0; Some (Z.of_nat (length col)).

Definition _JUNCTION_CHARS : list string :=
  ["─"; "│"; "┌"; "┐"; "└"; "┘"; "├"; "┤"; "┬"; "┴"; "┼"; "╴"; "╵"; "╶"; "╷"].

Definition is_junction_char (c : string) : bool :=
  bool_decide (c ∈ _JUNCTION_CHARS).

Definition _JUNCTION_MAP : gmap string (gmap string string) :=
  list_to_map
  [ ("─", list_to_map [("│","┼"); ("┌","┬"); ("┐","┬"); ("└","┴"); ("┘","┴"); ("├","┼"); ("┤","┼"); ("┬","┬"); ("┴","┴")]);
    ("│", list_to_map [("─","┼"); ("┌","├"); ("┐","┤"); ("└","├"); ("┘","┤"); ("├","├"); ("┤","┤"); ("┬","┼"); ("┴","┼")]);
    ("┌", list_to_map [("─","┬"); ("│","├"); ("┐","┬"); ("└","├"); ("┘","┼"); ("├","├"); ("┤","┼"); ("┬","┬"); ("┴","┼")]);
    ("┐", list_to_map [("─","┬"); ("│","┤"); ("┌","┬"); ("└","┼"); ("┘","┤"); ("├","┼"); ("┤","┤"); ("┬","┬"); ("┴","┼")]);
    ("└", list_to_map [("─","┴"); ("│","├"); ("┌","├"); ("┐","┼"); ("┘","┴"); ("├","├"); ("┤","┼"); ("┬","┼"); ("┴","┴")]);
    ("┘", list_to_map [("─","┴"); ("│","┤"); ("┌","┼"); ("┐","┤"); ("└","┴"); ("├","┼"); ("┤","┤"); ("┬","┼"); ("┴","┴")]);
    ("├", list_to_map [("─","┼"); ("│","├"); ("┌","├"); ("┐","┼"); ("└","├"); ("┘","┼"); ("┤","┼"); ("┬","┼"); ("┴","┼")]);
    ("┤", list_to_map [("─","┼"); ("│","┤"); ("┌","┼"); ("┐","┤"); ("└","┼"); ("┘","┤"); ("├","┼"); ("┬","┼"); ("┴","┼")]);
    ("┬", list_to_map [("─","┬"); ("│","┼"); ("┌","┬"); ("┐","┬"); ("└","┼"); ("┘","┼"); ("├","┼"); ("┤","┼"); ("┴","┼")]);
    ("┴", list_to_map [("─","┴"); ("│","┼"); ("┌","┼"); ("┐","┼"); ("└","┴"); ("┘","┴"); ("├","┼"); ("┤","┼"); ("┬","┼")]) ].

(** The pair's entry in the lookup table, when it has one. *)
Definition junction_entry (c1 c2 : string) : option string :=
  row ← _JUNCTION_MAP !! c1; row !! c2.

Definition merge_junctions (c1 c2 : string) : string :=
  match _JUNCTION_MAP !! c1 with
  | Some row =>
      match row !! c2 with
      | Some merged => merged
      | None => c1
      end
  | None => c1
  end.

(** The ten junction characters that have a row in [_JUNCTION_MAP]. *)
Definition junction_rows : list string :=
  ["─"; "│"; "┌"; "┐"; "└"; "┘"; "├"; "┤"; "┬"; "┴"].

Definition canvas_to_string (canvas : Canvas) : option string :=
  let '(max_x, max_y) := get_canvas_size canvas in
  lines ← Py.for_range (max_y + 1) (fun y lines =>
      line ← Py.for_range (max_x + 1) (fun x line =>
          ch ← cget canvas x y; Some (line +:+ ch)) EmptyString;
      Some (lines ++ [line])%list) [];
  Some (Py.join newline lines).

(** *** The output as the specification words it *)

(** Every column is as long as the first one; [mk_canvas] builds such
    canvases and the drawing code only ever writes cells in place. *)
Definition rectangular (canvas : Canvas) : Prop :=
  forall col, col ∈ canvas ->
    Z.of_nat (length col) = snd (get_canvas_size canvas) + 1.

(** Number of rows, as [get_canvas_size] reports it. *)
Definition canvas_height (canvas : Canvas) : nat :=
  Z.to_nat (snd (get_canvas_size canvas) + 1).

(** The characters of row [y] across all columns, in column order. *)
Definition canvas_row (canvas : Canvas) (y : nat) : list string :=
  omap (fun col => col !! y) canvas.

Definition concat_cells (cells : list string) : string :=
  foldr String.append EmptyString cells.

(** One line per row, joined by single newlines. *)
Definition canvas_lines (canvas : Canvas) : list string :=
  map (fun y => concat_cells (canvas_row canvas y)) (seq 0 (canvas_height canvas)).

(** The size of the merged canvas: the base's size, enlarged to hold
    every overlay at the offset. *)
Definition merged_size (base : Canvas) (offset : DrawingCoord)
    (overlays : list Canvas) : Z * Z :=
  fold_left (fun '(max_x, max_y) overlay =>
               let '(o_x, o_y) := get_canvas_size overlay in
               (Z.max max_x (o_x + dcx offset), Z.max max_y (o_y + dcy offset)))
            overlays (get_canvas_size base).

(** Body of the loop that copies the base. *)
Definition copy_base_cell (base : Canvas) (x y : Z) (merged : Canvas)
    : option Canvas :=
  if decide (x < Z.of_nat (length base)) then
    h ← len0 base;
    if decide (y < h) then v ← cget base x y; cset merged x y v
    else Some merged
  else Some merged.

(** Body of the loop that applies one overlay. *)
Definition apply_overlay_cell (offset : DrawingCoord) (use_ascii : bool)
    (overlay : Canvas) (x y : Z) (merged : Canvas) : option Canvas :=
  c ← cget overlay x y;
  if decide (c <> space) then
    let mx := x + dcx offset in
    let my := y + dcy offset in
    current ← cget merged mx my;
    if negb use_ascii && is_junction_char c && is_junction_char current
    then cset merged mx my (merge_junctions current c)
    else cset merged mx my c
  else Some merged.

Definition apply_overlay (offset : DrawingCoord) (use_ascii : bool)
    (overlay : Canvas) (merged : Canvas) : option Canvas :=
  Py.for_range (Z.of_nat (length overlay)) (fun x merged =>
    h ← len0 overlay;
    Py.for_range h (apply_overlay_cell offset use_ascii overlay x) merged) merged.

Definition merge_canvases (base : Canvas) (offset : DrawingCoord)
    (use_ascii : bool) (overlays : list Canvas) : option Canvas :=
  let '(max_x, max_y) := merged_size base offset overlays in
  merged ← Py.for_range (max_x + 1) (fun x merged =>
             Py.for_range (max_y + 1) (copy_base_cell base x) merged)
           (mk_canvas max_x max_y);
  Py.for_each overlays (apply_overlay offset use_ascii) merged.

(** Every cell is the space character. *)
Definition blank (canvas : Canvas) : Prop :=
  forall col ch, col ∈ canvas -> ch ∈ col -> ch = space.

(** ** types.py: the graph *)

(** Python objects that are shared and mutated (nodes) live in the list
    [nodes] of the graph; a reference to a node is its position in that
    list.  The style fields of a node play no part in layout and are left
    out. *)
Definition NodeRef := nat.

Record AsciiNode := mkAsciiNode {
  name : string;
  display_label : string;
  index : Z;
  grid_coord : option GridCoord;
  drawing_coord : option DrawingCoord;
  drawing : option Canvas;
  drawn : bool
}.

Record AsciiEdge := mkAsciiEdge {
  from_node : NodeRef;
  to_node : NodeRef;
  text : string;
  path : list GridCoord;
  label_line : list GridCoord;
  start_dir : Direction;
  end_dir : Direction
}.

Record AsciiSubgraph := mkAsciiSubgraph {
  sg_name : string;
  sg_nodes : list NodeRef;
  sg_parent : option nat;
  sg_children : list nat;
  min_x : Z;
  min_y : Z;
  max_x : Z;
  max_y : Z
}.

Record AsciiConfig := mkAsciiConfig {
  use_ascii : bool;
  padding_x : Z;
  padding_y : Z;
  box_border_padding : Z;
  graph_direction : GraphDirection
}.

Record AsciiGraph := mkAsciiGraph {
  nodes : list AsciiNode;
  edges : list AsciiEdge;
  canvas : Canvas;
  grid : gmap (Z * Z) NodeRef;
  column_width : gmap Z Z;
  row_height : gmap Z Z;
  subgraphs : list AsciiSubgraph;
  config : AsciiConfig;
  offset_x : Z;
  offset_y : Z
}.

(** ** draw.py: arrows *)

Section Arrow.

(** The five layer painters of a routed edge.  They are only reached for
    a non-empty path; [draw_arrow] and the edge phase of [draw_graph] are
    given for arbitrary painters. *)
Variable _draw_arrow_label : AsciiGraph -> AsciiEdge -> option Canvas.
Variable _draw_path : AsciiGraph -> list GridCoord ->
  option (Canvas * list (list DrawingCoord) * list Direction).
Variable _draw_box_start :
  AsciiGraph -> list GridCoord -> list DrawingCoord -> option Canvas.
Variable _draw_arrow_head :
  AsciiGraph -> list DrawingCoord -> Direction -> option Canvas.
Variable _draw_corners : AsciiGraph -> list GridCoord -> option Canvas.

Definition draw_arrow (graph : AsciiGraph) (edge : AsciiEdge)
    : option (Canvas * Canvas * Canvas * Canvas * Canvas) :=
  if decide (length (path edge) = 0%nat) then
    let empty := copy_canvas (canvas graph) in
    Some (empty, empty, empty, empty, empty)
  else
    label_canvas ← _draw_arrow_label graph edge;
    '(path_canvas, lines_drawn, line_dirs) ← _draw_path graph (path edge);
    first_line ← Py.get lines_drawn 0;
    box_start_canvas ← _draw_box_start graph (path edge) first_line;
    last_line ← Py.get lines_drawn (Z.of_nat (length lines_drawn) - 1);
    last_dir ← Py.get line_dirs (Z.of_nat (length line_dirs) - 1);
    arrow_head_canvas ← _draw_arrow_head graph last_line last_dir;
    corners_canvas ← _draw_corners graph (path edge);
    Some (path_canvas, box_start_canvas, arrow_head_canvas, corners_canvas,
          label_canvas).

(** The edge phase of [draw_graph]: collect the five layers of every edge,
    then merge them onto the canvas kind by kind. *)
Definition draw_graph_edges (graph : AsciiGraph) : option Canvas :=
  let use_ascii := use_ascii (config graph) in
  '(line_canvases, corner_canvases, arrow_head_canvases, box_start_canvases,
    label_canvases) ←
    Py.for_each (edges graph)
      (fun edge '(lines, corners, heads, starts, labels) =>
         '(path_c, box_start_c, arrow_head_c, corners_c, label_c) ←
           draw_arrow graph edge;
         Some (lines ++ [path_c], corners ++ [corners_c],
               heads ++ [arrow_head_c], starts ++ [box_start_c],
               labels ++ [label_c])%list)
      ([], [], [], [], []);
  let zero := mkDrawingCoord 0 0 in
  c ← merge_canvases (canvas graph) zero use_ascii line_canvases;
  c ← merge_canvases c zero use_ascii corner_canvases;
  c ← merge_canvases c zero use_ascii arrow_head_canvases;
  c ← merge_canvases c zero use_ascii box_start_canvases;
  merge_canvases c zero use_ascii label_canvases.

End Arrow.

(** ** pathfinder.py: path simplification *)

(** [prev_dx == dx and prev_dy == dy] for three consecutive points. *)
Definition same_step (step0 step1 step2 : GridCoord) : bool :=
  bool_decide (gx step1 - gx step0 = gx step2 - gx step1)
  && bool_decide (gy step1 - gy step0 = gy step2 - gy step1).

(** The loop [for idx in range(2, len(path))] of [merge_path], run over
    the points from index [idx] on; it collects the indices to remove. *)
Fixpoint merge_path_scan (idx : nat) (step0 step1 : GridCoord)
    (rest : list GridCoord) (to_remove : gset nat) : gset nat :=
  match rest with
  | [] => to_remove
  | step2 :: rest' =>
      let to_remove :=
        if same_step step0 step1 step2
        then {[ (idx - 1)%nat ]} ∪ to_remove
        else to_remove in
      merge_path_scan (S idx) step1 step2 rest' to_remove
  end.

(** [[p for i, p in enumerate(path, start) if i not in to_remove]] *)
Fixpoint keep_unremoved (start : nat) (to_remove : gset nat)
    (path : list GridCoord) : list GridCoord :=
  match path with
  | [] => []
  | p :: rest =>
      if decide (start ∈ to_remove)
      then keep_unremoved (S start) to_remove rest
      else p :: keep_unremoved (S start) to_remove rest
  end.

Definition merge_path (path : list GridCoord) : list GridCoord :=
  match path with
  | step0 :: step1 :: (_ :: _) as rest =>
      keep_unremoved 0 (merge_path_scan 2 step0 step1 rest ∅) path
  | _ => path
  end.

(** *** Notions used to state the properties of [merge_path] *)

(** The points kept after [step0], when the scan stands at [step1]. *)
Fixpoint retained (step0 step1 : GridCoord) (rest : list GridCoord)
    : list GridCoord :=
  match rest with
  | [] => [step1]
  | step2 :: rest' =>
      if same_step step0 step1 step2
      then retained step1 step2 rest'
      else step1 :: retained step1 step2 rest'
  end.

(** One 4-directional unit step, as the pathfinder makes them. *)
Definition unit_step (a b : GridCoord) : Prop :=
  Z.abs (gx b - gx a) + Z.abs (gy b - gy a) = 1.

(** A path made of unit steps. *)
Fixpoint unit_path (path : list GridCoord) : Prop :=
  match path with
  | a :: (b :: _) as rest => unit_step a b /\ unit_path rest
  | _ => True
  end.

(** No three consecutive points with equal step vectors. *)
Fixpoint straight_free (path : list GridCoord) : Prop :=
  match path with
  | a :: (b :: c :: _) as rest => same_step a b c = false /\ straight_free rest
  | _ => True
  end.

(** ** edge_routing.py: directions *)

(** [determine_direction] accepts any two objects with an [x] and a [y]
    attribute; it is called with grid coordinates and with drawing
    coordinates. *)
Class HasXY (A : Type) := { px : A -> Z; py : A -> Z }.

Global Instance GridCoord_xy : HasXY GridCoord := {| px := gx; py := gy |}.
Global Instance DrawingCoord_xy : HasXY DrawingCoord := {| px := dcx; py := dcy |}.
Global Instance Direction_xy : HasXY Direction := {| px := dirx; py := diry |}.

Definition get_opposite (d : Direction) : Direction :=
  if decide (d = Up) then Down
  else if decide (d = Down) then Up
  else if decide (d = Left) then Right
  else if decide (d = Right) then Left
  else if decide (d = UpperRight) then LowerLeft
  else if decide (d = UpperLeft) then LowerRight
  else if decide (d = LowerRight) then UpperLeft
  else if decide (d = LowerLeft) then UpperRight
  else Middle.

Definition dir_equals (a b : Direction) : bool :=
  bool_decide (dirx a = dirx b) && bool_decide (diry a = diry b).

Definition determine_direction {A B} `{HasXY A, HasXY B}
    (from_coord : A) (to_coord : B) : Direction :=
  if decide (px from_coord = px to_coord) then
    if decide (py from_coord < py to_coord) then Down else Up
  else if decide (py from_coord = py to_coord) then
    if decide (px from_coord < px to_coord) then Right else Left
  else if decide (px from_coord < px to_coord) then
    if decide (py from_coord < py to_coord) then LowerRight else UpperRight
  else
    if decide (py from_coord < py to_coord) then LowerLeft else UpperLeft.

Definition _self_reference_direction (graph_direction : GraphDirection)
    : Direction * Direction * Direction * Direction :=
  match graph_direction with
  | LR => (Right, Down, Down, Right)
  | TD => (Down, Right, Right, Down)
  end.

(** The edge's nodes are looked up in the node list of the graph; a node
    without a grid coordinate fails the assertion. *)
Definition determine_start_and_end_dir (nodes : list AsciiNode) (edge : AsciiEdge)
    (graph_direction : GraphDirection)
    : option (Direction * Direction * Direction * Direction) :=
  if decide (from_node edge = to_node edge) then
    Some (_self_reference_direction graph_direction)
  else
    from_n ← nodes !! from_node edge;
    to_n ← nodes !! to_node edge;
    from_gc ← grid_coord from_n;
    to_gc ← grid_coord to_n;
    let d := determine_direction from_gc to_gc in
    let is_backwards :=
      match graph_direction with
      | LR => dir_equals d Left || dir_equals d UpperLeft || dir_equals d LowerLeft
      | TD => dir_equals d Up || dir_equals d UpperLeft || dir_equals d UpperRight
      end in
    Some (
      if dir_equals d LowerRight then
        match graph_direction with
        | LR => (Down, Left, Right, Up)
        | TD => (Right, Up, Down, Left)
        end
      else if dir_equals d UpperRight then
        match graph_direction with
        | LR => (Up, Left, Right, Down)
        | TD => (Right, Down, Up, Left)
        end
      else if dir_equals d LowerLeft then
        match graph_direction with
        | LR => (Down, Down, Left, Up)
        | TD => (Left, Up, Down, Right)
        end
      else if dir_equals d UpperLeft then
        match graph_direction with
        | LR => (Down, Down, Left, Down)
        | TD => (Right, Right, Up, Right)
        end
      else if is_backwards then
        if bool_decide (graph_direction = LR) && dir_equals d Left then
          (Down, Down, Left, Right)
        else if bool_decide (graph_direction = TD) && dir_equals d Up then
          (Right, Right, Up, Down)
        else (d, get_opposite d, d, get_opposite d)
      else (d, get_opposite d, d, get_opposite d)).

(** *** Notions used to state the properties of the directions *)

(** The nine positions of a node's 3x3 block. *)
Definition in_block (d : Direction) : Prop :=
  0 <= dirx d <= 2 /\ 0 <= diry d <= 2.

(** The middles of the four sides of the block. *)
Definition cardinal (d : Direction) : Prop :=
  d = Up \/ d = Down \/ d = Left \/ d = Right.

(** ** pathfinder.py: heuristic and free cells *)

Definition heuristic (a b : GridCoord) : Z :=
  let abs_x := Z.abs (gx a - gx b) in
  let abs_y := Z.abs (gy a - gy b) in
  if decide (abs_x = 0 \/ abs_y = 0) then abs_x + abs_y
  else abs_x + abs_y + 1.

Definition manhattan (a b : GridCoord) : Z :=
  Z.abs (gx a - gx b) + Z.abs (gy a - gy b).

Definition MOVE_DIRS : list GridCoord :=
  [mkGridCoord 1 0; mkGridCoord (-1) 0; mkGridCoord 0 1; mkGridCoord 0 (-1)].

Definition _is_free_in_grid (grid : gmap (Z * Z) NodeRef) (c : GridCoord) : bool :=
  if decide (gx c < 0 \/ gy c < 0) then false
  else bool_decide (grid !! grid_key c = None).

(** ** canvas.py: growing, flipping, text *)

(** [enumerate(xs, start)] *)
Fixpoint py_enumerate_from {A} (start : Z) (xs : list A) : list (Z * A) :=
  match xs with
  | [] => []
  | x :: r => (start, x) :: py_enumerate_from (start + 1) r
  end.

Definition py_enumerate {A} (xs : list A) : list (Z * A) := py_enumerate_from 0 xs.

(** [increase_size] rebuilds the canvas in a fresh one and then replaces
    the content of the list it was given; the model returns the new
    content. *)
Definition increase_size (canvas : Canvas) (new_x new_y : Z) : option Canvas :=
  let '(curr_x, curr_y) := get_canvas_size canvas in
  let target_x := Z.max new_x curr_x in
  let target_y := Z.max new_y curr_y in
  let grown := mk_canvas target_x target_y in
  Py.for_range (Z.of_nat (length grown)) (fun x grown =>
    h ← len0 grown;
    Py.for_range h (copy_base_cell canvas x) grown) grown.

Definition _VERTICAL_FLIP_MAP : gmap string string :=
  list_to_map
    [("▲", "▼");
     ("▼", "▲");
     ("◤", "◣");
     ("◣", "◤");
     ("◥", "◢");
     ("◢", "◥");
     ("^", "v");
     ("v", "^");
     ("┌", "└");
     ("└", "┌");
     ("┐", "┘");
     ("┘", "┐");
     ("┬", "┴");
     ("┴", "┬");
     ("╵", "╷");
     ("╷", "╵")].

(** The remapping loop of [flip_canvas_vertically] on one column. *)
Definition remap_column (col : list string) : option (list string) :=
  Py.for_range (Z.of_nat (length col)) (fun y col =>
    ch ← Py.get col y;
    match _VERTICAL_FLIP_MAP !! ch with
    | Some flipped => Py.set col y flipped
    | None => Some col
    end) col.

(** Both loops run over the columns of the canvas, which are distinct
    lists ([mk_canvas] allocates one per column), and change each column
    in place. *)
Definition flip_canvas_vertically (canvas : Canvas) : option Canvas :=
  let canvas := reverse <$> canvas in
  mapM remap_column canvas.

(** The text is the list of its characters. *)
Definition draw_text (canvas : Canvas) (start : DrawingCoord) (text : list string)
    : option Canvas :=
  canvas ← increase_size canvas (dcx start + Z.of_nat (length text)) (dcy start);
  Py.for_each (py_enumerate text)
    (fun '(i, ch) canvas => cset canvas (dcx start + i) (dcy start) ch) canvas.

Definition set_canvas_size_to_grid (canvas : Canvas)
    (column_width row_height : gmap Z Z) : option Canvas :=
  let max_x := map_fold (fun _ w acc => acc + w) 0 column_width in
  let max_y := map_fold (fun _ h acc => acc + h) 0 row_height in
  increase_size canvas (max_x - 1) (max_y - 1).

(** *** Notions used to state the properties of these functions *)

(** The canvas padded with spaces to [w] columns of [h] cells. *)
Definition grow_to (w h : nat) (canvas : Canvas) : Canvas :=
  (((fun col => col ++ replicate (h - length col) space) <$> canvas)
   ++ replicate (w - length canvas) (replicate h space))%list.

(** A glyph after a vertical flip. *)
Definition flip_char (c : string) : string :=
  default c (_VERTICAL_FLIP_MAP !! c).

(** ** pathfinder.py: the priority queue *)

Record PQItem := mkPQItem { coord : GridCoord; priority : Z }.

Module MinHeap.

(** [items[i], items[j] = items[j], items[i]] *)
Definition swap (items : list PQItem) (i j : Z) : option (list PQItem) :=
  vj ← Py.get items j;
  vi ← Py.get items i;
  items ← Py.set items i vj;
  Py.set items j vi.

(** The loop of [_bubble_up].  Every iteration moves [i] to a smaller
    index, so that [i] iterations are enough; the loop is run with that
    many. *)
Fixpoint _bubble_up_loop (fuel : nat) (items : list PQItem) (i : Z)
    : option (list PQItem) :=
  if decide (i > 0) then
    match fuel with
    | O => None
    | S fuel' =>
        let parent := Z.shiftr (i - 1) 1 in
        item_i ← Py.get items i;
        item_p ← Py.get items parent;
        if decide (priority item_i < priority item_p) then
          items ← swap items i parent;
          _bubble_up_loop fuel' items parent
        else Some items
    end
  else Some items.

Definition _bubble_up (items : list PQItem) (i : Z) : option (list PQItem) :=
  _bubble_up_loop (Z.to_nat i) items i.

(** The loop of [_sink_down].  Every iteration but the last moves [i] to
    a larger index below [n]; the loop is run with [n + 1] iterations. *)
Fixpoint _sink_down_loop (fuel : nat) (n : Z) (items : list PQItem) (i : Z)
    : option (list PQItem) :=
  match fuel with
  | O => None
  | S fuel' =>
      let smallest := i in
      let left := 2 * i + 1 in
      let right := 2 * i + 2 in
      smallest ←
        (if decide (left < n) then
           item_l ← Py.get items left;
           item_s ← Py.get items smallest;
           Some (if decide (priority item_l < priority item_s) then left
                 else smallest)
         else Some smallest);
      smallest ←
        (if decide (right < n) then
           item_r ← Py.get items right;
           item_s ← Py.get items smallest;
           Some (if decide (priority item_r < priority item_s) then right
                 else smallest)
         else Some smallest);
      if decide (smallest <> i) then
        items ← swap items i smallest;
        _sink_down_loop fuel' n items smallest
      else Some items
  end.

Definition _sink_down (items : list PQItem) (i : Z) : option (list PQItem) :=
  _sink_down_loop (S (length items)) (Z.of_nat (length items)) items i.

Definition push (items : list PQItem) (item : PQItem) : option (list PQItem) :=
  let items := (items ++ [item])%list in
  _bubble_up items (Z.of_nat (length items) - 1).

(** [pop] returns the popped item, if any, and the items left. *)
Definition pop (items : list PQItem) : option (option PQItem * list PQItem) :=
  if decide (length items = 0%nat) then Some (None, items)
  else
    top ← Py.get items 0;
    last ← Py.get items (-1);
    let items := take (length items - 1) items in
    if decide (0 < length items)%nat then
      items ← Py.set items 0 last;
      items ← _sink_down items 0;
      Some (Some top, items)
    else Some (Some top, items).

End MinHeap.

(** *** Notions used to state the properties of the queue *)

(** The children of a position hold priorities that are not smaller. *)
Definition heap_ordered (items : list PQItem) : Prop :=
  forall (i j : nat) (a b : PQItem),
    (j = 2 * i + 1 \/ j = 2 * i + 2)%nat ->
    items !! i = Some a -> items !! j = Some b ->
    priority a <= priority b.

(** Position [k] is a child of position [j]. *)
Definition child_of (k j : nat) : Prop := (k = 2 * j + 1 \/ k = 2 * j + 2)%nat.

(** The state of the queue while [_bubble_up] stands at [i]: ordered
    except between [i] and its parent, whose priority bounds the children
    of [i]. *)
Definition ordered_but_up (items : list PQItem) (i : nat) : Prop :=
  (forall (j k : nat) (a b : PQItem),
     child_of k j -> k <> i -> items !! j = Some a -> items !! k = Some b ->
     priority a <= priority b) /\
  (forall (k : nat) (a b : PQItem),
     (0 < i)%nat -> child_of k i ->
     items !! ((i - 1) / 2)%nat = Some a -> items !! k = Some b ->
     priority a <= priority b).

(** The state of the queue while [_sink_down] stands at [i]: ordered
    except between [i] and its children, which the parent of [i] bounds. *)
Definition ordered_but_down (items : list PQItem) (i : nat) : Prop :=
  (forall (j k : nat) (a b : PQItem),
     child_of k j -> j <> i -> items !! j = Some a -> items !! k = Some b ->
     priority a <= priority b) /\
  (forall (k : nat) (a b : PQItem),
     (0 < i)%nat -> child_of k i ->
     items !! ((i - 1) / 2)%nat = Some a -> items !! k = Some b ->
     priority a <= priority b).

(** ** pathfinder.py: A* *)

(** A run of a loop that needs not terminate is given a number of
    iterations; it returns, raises, or has used them up. *)
Inductive outcome (A : Type) : Type :=
| Returns (a : A)
| Raises
| OutOfFuel.

Arguments Returns {A} a.
Arguments Raises {A}.
Arguments OutOfFuel {A}.

Record SearchState := mkSearchState {
  pq : list PQItem;
  cost_so_far : gmap (Z * Z) Z;
  came_from : gmap (Z * Z) (option GridCoord)
}.

(** The loop that walks backwards through [came_from]. *)
Fixpoint reconstruct_path (fuel : nat) (came_from : gmap (Z * Z) (option GridCoord))
    (c : option GridCoord) (path : list GridCoord) : option (list GridCoord) :=
  match c with
  | None => Some path
  | Some c =>
      match fuel with
      | O => None
      | S fuel' =>
          reconstruct_path fuel' came_from
            (came_from !! grid_key c ≫= id) (c :: path)
      end
  end.

(** The body of the loop over [MOVE_DIRS]. *)
Definition relax (grid : gmap (Z * Z) NodeRef) (to_coord current_coord : GridCoord)
    (current_cost : Z) (move_dir : GridCoord) (st : SearchState)
    : option SearchState :=
  let next_coord :=
    mkGridCoord (gx current_coord + gx move_dir) (gy current_coord + gy move_dir) in
  if negb (_is_free_in_grid grid next_coord)
     && negb (grid_coord_equals next_coord to_coord)
  then Some st
  else
    let new_cost := current_cost + 1 in
    let next_key := grid_key next_coord in
    let existing_cost := cost_so_far st !! next_key in
    if match existing_cost with
       | None => true
       | Some existing => bool_decide (new_cost < existing)
       end
    then
      let cost := <[next_key := new_cost]> (cost_so_far st) in
      let priority := new_cost + heuristic next_coord to_coord in
      pq' ← MinHeap.push (pq st) (mkPQItem next_coord priority);
      Some (mkSearchState pq' cost
              (<[next_key := Some current_coord]> (came_from st)))
    else Some st.

Fixpoint get_path_loop (fuel : nat) (grid : gmap (Z * Z) NodeRef)
    (to_coord : GridCoord) (st : SearchState) : outcome (option (list GridCoord)) :=
  if decide (0 < length (pq st))%nat then
    match fuel with
    | O => OutOfFuel
    | S fuel' =>
        match MinHeap.pop (pq st) with
        | None => Raises
        | Some (None, _) => Raises
        | Some (Some current, pq') =>
            let current_coord := coord current in
            if grid_coord_equals current_coord to_coord then
              match reconstruct_path fuel (came_from st) (Some current_coord) [] with
              | Some path => Returns (Some path)
              | None => OutOfFuel
              end
            else
              match cost_so_far st !! grid_key current_coord with
              | None => Raises
              | Some current_cost =>
                  match Py.for_each MOVE_DIRS
                          (relax grid to_coord current_coord current_cost)
                          (mkSearchState pq' (cost_so_far st) (came_from st)) with
                  | None => Raises
                  | Some st' => get_path_loop fuel' grid to_coord st'
                  end
              end
        end
    end
  else Returns None.

(** [get_path], run for at most [fuel] iterations of the search loop. *)
Definition get_path (fuel : nat) (grid : gmap (Z * Z) NodeRef)
    (from_coord to_coord : GridCoord) : outcome (option (list GridCoord)) :=
  match MinHeap.push [] (mkPQItem from_coord 0) with
  | None => Raises
  | Some pq =>
      get_path_loop fuel grid to_coord
        (mkSearchState pq {[ grid_key from_coord := 0 ]}
                          {[ grid_key from_coord := None ]})
  end.

(** *** Notions used to state the properties of the search *)

(** The coordinate a key stands for. *)
Definition key_coord (k : Z * Z) : GridCoord := mkGridCoord (fst k) (snd k).

(** A cell the search may step on. *)
Definition passable (grid : gmap (Z * Z) NodeRef) (to_coord c : GridCoord) : Prop :=
  _is_free_in_grid grid c = true \/ c = to_coord.

(** What the search loop maintains: the start has cost 0 and no
    predecessor; every other recorded cell was reached by one step from
    its predecessor, is passable, and costs more than its predecessor;
    every queued cell has a cost. *)
Record search_inv (grid : gmap (Z * Z) NodeRef) (from_coord to_coord : GridCoord)
    (st : SearchState) : Prop := mk_search_inv {
  inv_start_cost : cost_so_far st !! grid_key from_coord = Some 0;
  inv_start_from : came_from st !! grid_key from_coord = Some None;
  inv_cost_nonneg : forall k c, cost_so_far st !! k = Some c -> 0 <= c;
  inv_pq_cost : forall item, item ∈ pq st ->
    is_Some (cost_so_far st !! grid_key (coord item));
  inv_dom : forall k, is_Some (cost_so_far st !! k) <-> is_Some (came_from st !! k);
  inv_root : forall k, came_from st !! k = Some None -> k = grid_key from_coord;
  inv_parent : forall k p, came_from st !! k = Some (Some p) ->
    unit_step p (key_coord k) /\ passable grid to_coord (key_coord k) /\
    exists cp ck, cost_so_far st !! grid_key p = Some cp /\
                  cost_so_far st !! k = Some ck /\ cp < ck
}.

(** A path the search may return. *)
Definition route (grid : gmap (Z * Z) NodeRef) (from_coord to_coord : GridCoord)
    (path : list GridCoord) : Prop :=
  head path = Some from_coord /\ last path = Some to_coord /\
  unit_path path /\
  forall c, c ∈ path -> c = from_coord \/ passable grid to_coord c.

(** ** edge_routing.py: choosing the path *)

(** [determine_path] sets the path and the two directions of the edge;
    the model returns the edge with these fields set. *)
Definition determine_path (fuel : nat) (graph : AsciiGraph) (edge : AsciiEdge)
    : outcome AsciiEdge :=
  match determine_start_and_end_dir (nodes graph) edge
          (graph_direction (config graph)) with
  | None => Raises
  | Some (preferred_dir, preferred_opposite_dir, alternative_dir,
          alternative_opposite_dir) =>
      match (n ← nodes graph !! from_node edge; grid_coord n),
            (n ← nodes graph !! to_node edge; grid_coord n) with
      | Some from_gc, Some to_gc =>
          let set_route (sd ed : Direction) (p : list GridCoord) : AsciiEdge :=
            mkAsciiEdge (from_node edge) (to_node edge) (text edge) p
                        (label_line edge) sd ed in
          let pref_from := grid_coord_direction from_gc preferred_dir in
          let pref_to := grid_coord_direction to_gc preferred_opposite_dir in
          match get_path fuel (grid graph) pref_from pref_to with
          | Raises => Raises
          | OutOfFuel => OutOfFuel
          | Returns None =>
              Returns (set_route alternative_dir alternative_opposite_dir [])
          | Returns (Some preferred_path) =>
              let preferred_path := merge_path preferred_path in
              let alt_from := grid_coord_direction from_gc alternative_dir in
              let alt_to := grid_coord_direction to_gc alternative_opposite_dir in
              match get_path fuel (grid graph) alt_from alt_to with
              | Raises => Raises
              | OutOfFuel => OutOfFuel
              | Returns None =>
                  Returns (set_route preferred_dir preferred_opposite_dir
                             preferred_path)
              | Returns (Some alternative_path) =>
                  let alternative_path := merge_path alternative_path in
                  if decide (length preferred_path <= length alternative_path)%nat
                  then Returns (set_route preferred_dir preferred_opposite_dir
                                  preferred_path)
                  else Returns (set_route alternative_dir alternative_opposite_dir
                                  alternative_path)
              end
          end
      | _, _ => Raises
      end
  end.

(** ** grid.py: placing nodes *)

(** [range(n)] *)
Definition py_range (n : Z) : list Z := Z.of_nat <$> seq 0 (Z.to_nat n).

Definition set_grid (graph : AsciiGraph) (g : gmap (Z * Z) NodeRef) : AsciiGraph :=
  mkAsciiGraph (nodes graph) (edges graph) (canvas graph) g (column_width graph)
    (row_height graph) (subgraphs graph) (config graph) (offset_x graph)
    (offset_y graph).

Definition set_nodes (graph : AsciiGraph) (ns : list AsciiNode) : AsciiGraph :=
  mkAsciiGraph ns (edges graph) (canvas graph) (grid graph) (column_width graph)
    (row_height graph) (subgraphs graph) (config graph) (offset_x graph)
    (offset_y graph).

Definition set_grid_coord (n : AsciiNode) (c : GridCoord) : AsciiNode :=
  mkAsciiNode (name n) (display_label n) (index n) (Some c) (drawing_coord n)
    (drawing n) (drawn n).

(** The two loops that reserve the 3x3 block at [requested]. *)
Definition reserve_block (grid : gmap (Z * Z) NodeRef) (node : NodeRef)
    (requested : GridCoord) : gmap (Z * Z) NodeRef :=
  foldl (fun grid dx =>
    foldl (fun grid dy =>
      let reserved := mkGridCoord (gx requested + dx) (gy requested + dy) in
      <[grid_key reserved := node]> grid) grid (py_range 3))
    grid (py_range 3).

(** [reserve_spot_in_grid] calls itself once for every occupied cell it
    meets, and Python bounds the depth of calls.  [depth] is the number of
    nested calls of [reserve_spot_in_grid] that the recursion limit of the
    interpreter leaves room for where the function is called; the call
    beyond raises RecursionError, the [None] of the model.  Nothing has
    been written to the graph by then: the block is reserved and the
    coordinate of the node set by the innermost call only. *)
Fixpoint reserve_spot_in_grid (depth : nat) (graph : AsciiGraph) (node : NodeRef)
    (requested : GridCoord) : option (AsciiGraph * GridCoord) :=
  match depth with
  | O => None
  | S depth' =>
      if decide (is_Some (grid graph !! grid_key requested)) then
        match graph_direction (config graph) with
        | LR => reserve_spot_in_grid depth' graph node
                  (mkGridCoord (gx requested) (gy requested + 4))
        | TD => reserve_spot_in_grid depth' graph node
                  (mkGridCoord (gx requested + 4) (gy requested))
        end
      else
        let grid := reserve_block (grid graph) node requested in
        let nodes := alter (fun n => set_grid_coord n requested) node (nodes graph) in
        Some (set_nodes (set_grid graph grid) nodes, requested)
  end.

(** [increase_grid_size_for_path] *)
Definition increase_grid_size_for_path (graph : AsciiGraph) (path : list GridCoord)
    : gmap Z Z * gmap Z Z :=
  foldl (fun '(column_width, row_height) c =>
           let column_width :=
             if decide (is_Some (column_width !! gx c)) then column_width
             else <[gx c := padding_x (config graph) `div` 2]> column_width in
           let row_height :=
             if decide (is_Some (row_height !! gy c)) then row_height
             else <[gy c := padding_y (config graph) `div` 2]> row_height in
           (column_width, row_height))
        (column_width graph, row_height graph) path.

(** ** grid.py: shifting the drawing for the subgraphs *)

Definition shift_subgraph (off_x off_y : Z) (sg : AsciiSubgraph) : AsciiSubgraph :=
  mkAsciiSubgraph (sg_name sg) (sg_nodes sg) (sg_parent sg) (sg_children sg)
    (min_x sg + off_x) (min_y sg + off_y) (max_x sg + off_x) (max_y sg + off_y).

Definition shift_node (off_x off_y : Z) (n : AsciiNode) : AsciiNode :=
  match drawing_coord n with
  | Some dc =>
      mkAsciiNode (name n) (display_label n) (index n) (grid_coord n)
        (Some (mkDrawingCoord (dcx dc + off_x) (dcy dc + off_y)))
        (drawing n) (drawn n)
  | None => n
  end.

Definition offset_drawing_for_subgraphs (graph : AsciiGraph) : AsciiGraph :=
  if decide (length (subgraphs graph) = 0%nat) then graph
  else
    let min_x := foldl (fun m sg => Z.min m (min_x sg)) 0 (subgraphs graph) in
    let min_y := foldl (fun m sg => Z.min m (min_y sg)) 0 (subgraphs graph) in
    let off_x := - min_x in
    let off_y := - min_y in
    if decide (off_x = 0 /\ off_y = 0) then graph
    else
      mkAsciiGraph (shift_node off_x off_y <$> nodes graph) (edges graph)
        (canvas graph) (grid graph) (column_width graph) (row_height graph)
        (shift_subgraph off_x off_y <$> subgraphs graph) (config graph)
        off_x off_y.

(** *** Notions used to state the properties of the placement *)

(** The [k]-th position tried after [requested]. *)
Definition shifted (d : GraphDirection) (requested : GridCoord) (k : nat) : GridCoord :=
  match d with
  | LR => mkGridCoord (gx requested) (gy requested + 4 * Z.of_nat k)
  | TD => mkGridCoord (gx requested + 4 * Z.of_nat k) (gy requested)
  end.

(** The cells of the 3x3 block at [c]. *)
Definition in_block_at (c : GridCoord) (k : Z * Z) : Prop :=
  gx c <= fst k <= gx c + 2 /\ gy c <= snd k <= gy c + 2.

Global Instance in_block_at_dec c k : Decision (in_block_at c k).
Proof. unfold in_block_at. apply _. Defined.

(** The positions at or after [c] in the direction of the shifts. *)
Definition ahead (d : GraphDirection) (c : GridCoord) (k : Z * Z) : Prop :=
  match d with
  | LR => fst k = gx c /\ gy c <= snd k
  | TD => snd k = gy c /\ gx c <= fst k
  end.

Global Instance ahead_dec d c k : Decision (ahead d c k).
Proof. unfold ahead. destruct d; apply _. Defined.

(** ** grid.py: from grid to drawing coordinates *)

Definition grid_to_drawing_coord (graph : AsciiGraph) (c : GridCoord)
    (d : option Direction) : DrawingCoord :=
  let target :=
    match d with
    | Some d => mkGridCoord (gx c + dirx d) (gy c + diry d)
    | None => c
    end in
  let x := foldl (fun x col => x + default 0 (column_width graph !! col)) 0
             (py_range (gx target)) in
  let y := foldl (fun y row => y + default 0 (row_height graph !! row)) 0
             (py_range (gy target)) in
  let col_w := default 0 (column_width graph !! gx target) in
  let row_h := default 0 (row_height graph !! gy target) in
  mkDrawingCoord (x + col_w `div` 2 + offset_x graph)
                 (y + row_h `div` 2 + offset_y graph).

Definition line_to_drawing (graph : AsciiGraph) (line : list GridCoord)
    : list DrawingCoord :=
  (fun c => grid_to_drawing_coord graph c None) <$> line.

(** *** Notions used to state the properties of the conversion *)

(** The sum of the entries of [m] for the keys [0 .. n-1]. *)
Definition sum_before (m : gmap Z Z) (n : Z) : Z :=
  foldl (fun acc k => acc + default 0 (m !! k)) 0 (py_range n).

(** No entry is negative. *)
Definition nonneg_sizes (m : gmap Z Z) : Prop :=
  forall k v, m !! k = Some v -> 0 <= v.

(** *** More notions on paths *)

(** The sum of the Manhattan lengths of the segments of a path. *)
Fixpoint path_length (path : list GridCoord) : Z :=
  match path with
  | a :: (b :: _) as rest => manhattan a b + path_length rest
  | _ => 0
  end.

(** Every segment is horizontal or vertical. *)
Fixpoint axis_parallel (path : list GridCoord) : Prop :=
  match path with
  | a :: (b :: _) as rest => (gx a = gx b \/ gy a = gy b) /\ axis_parallel rest
  | _ => True
  end.

(** *** Notions used to state the properties of the overlays *)

(** What the cell holding [current] becomes when the overlay cell [c] is
    applied to it. *)
Definition overlay_cell_result (use_ascii : bool) (c current : string) : string :=
  if decide (c <> space) then
    if negb use_ascii && is_junction_char c && is_junction_char current
    then merge_junctions current c
    else c
  else current.

(** The cell of the overlay that lands on cell [(x, y)] of the merged
    canvas when the overlay is put at offset [(off_x, off_y)]. *)
Definition overlay_cell_at (overlay : Canvas) (off_x off_y x y : nat) : option string :=
  if decide (off_x <= x /\ off_y <= y)%nat
  then col ← overlay !! (x - off_x)%nat; col !! (y - off_y)%nat
  else None.

(** ** draw.py: lines *)

Definition h_char (use_ascii : bool) : string := if use_ascii then "-" else "─".
Definition v_char (use_ascii : bool) : string := if use_ascii then "|" else "│".
Definition bslash (use_ascii : bool) : string := if use_ascii then "\" else "╲".
Definition fslash (use_ascii : bool) : string := if use_ascii then "/" else "╱".

(** The eight loops of [draw_line] have one shape: starting at [(x, y)],
    record the position, write the character there and move by
    [(dx, dy)], as long as the position is within the bound of the loop.
    [count] is the number of positions within the bound. *)
Fixpoint line_loop (count : nat) (x y dx dy : Z) (ch : string) (canvas : Canvas)
    (drawn_coords : list DrawingCoord) : option (Canvas * list DrawingCoord) :=
  match count with
  | O => Some (canvas, drawn_coords)
  | S count' =>
      let drawn_coords := (drawn_coords ++ [mkDrawingCoord x y])%list in
      canvas ← cset canvas x y ch;
      line_loop count' (x + dx) (y + dy) dx dy ch canvas drawn_coords
  end.

(** The number of values [a, a + 1, ..., b]. *)
Definition steps (a b : Z) : nat := Z.to_nat (b - a + 1).

(** [draw_line] writes into the canvas it is given and returns the
    coordinates drawn; the model returns both. *)
Definition draw_line (canvas : Canvas) (from_coord to_coord : DrawingCoord)
    (offset_from offset_to : Z) (use_ascii : bool)
    : option (Canvas * list DrawingCoord) :=
  let direction := determine_direction from_coord to_coord in
  if dir_equals direction Up then
    let y := dcy from_coord - offset_from in
    line_loop (steps (dcy to_coord - offset_to) y)
      (dcx from_coord) y 0 (-1) (v_char use_ascii) canvas []
  else if dir_equals direction Down then
    let y := dcy from_coord + offset_from in
    line_loop (steps y (dcy to_coord + offset_to))
      (dcx from_coord) y 0 1 (v_char use_ascii) canvas []
  else if dir_equals direction Left then
    let x := dcx from_coord - offset_from in
    line_loop (steps (dcx to_coord - offset_to) x)
      x (dcy from_coord) (-1) 0 (h_char use_ascii) canvas []
  else if dir_equals direction Right then
    let x := dcx from_coord + offset_from in
    line_loop (steps x (dcx to_coord + offset_to))
      x (dcy from_coord) 1 0 (h_char use_ascii) canvas []
  else if dir_equals direction UpperLeft then
    let x := dcx from_coord in
    let y := dcy from_coord - offset_from in
    line_loop (Nat.min (steps (dcx to_coord - offset_to) x)
                       (steps (dcy to_coord - offset_to) y))
      x y (-1) (-1) (bslash use_ascii) canvas []
  else if dir_equals direction UpperRight then
    let x := dcx from_coord in
    let y := dcy from_coord - offset_from in
    line_loop (Nat.min (steps x (dcx to_coord + offset_to))
                       (steps (dcy to_coord - offset_to) y))
      x y 1 (-1) (fslash use_ascii) canvas []
  else if dir_equals direction LowerLeft then
    let x := dcx from_coord in
    let y := dcy from_coord + offset_from in
    line_loop (Nat.min (steps (dcx to_coord - offset_to) x)
                       (steps y (dcy to_coord + offset_to)))
      x y (-1) 1 (fslash use_ascii) canvas []
  else if dir_equals direction LowerRight then
    let x := dcx from_coord in
    let y := dcy from_coord + offset_from in
    line_loop (Nat.min (steps x (dcx to_coord + offset_to))
                       (steps y (dcy to_coord + offset_to)))
      x y 1 1 (bslash use_ascii) canvas []
  else Some (canvas, []).

(** *** Notions used to state the properties of the lines *)

(** The [count] points from [(x, y)] on in steps of [(dx, dy)]. *)
Definition line_points (count : nat) (x y dx dy : Z) : list DrawingCoord :=
  (fun i => mkDrawingCoord (x + Z.of_nat i * dx) (y + Z.of_nat i * dy))
    <$> seq 0 count.

(** The cell is one of the cells of the canvas, named without wrapping
    around. *)
Definition inside (canvas : Canvas) (p : DrawingCoord) : Prop :=
  0 <= dcx p /\ 0 <= dcy p /\
  is_Some (canvas !! Z.to_nat (dcx p) ≫= (.!! Z.to_nat (dcy p))).

(** ** edge_routing.py: the segment that carries the label *)

(** [range(start, stop)] *)
Definition py_range_from (start stop : Z) : list Z :=
  (fun i => start + i) <$> py_range (stop - start).

Definition _calculate_line_width (graph : AsciiGraph)
    (line : GridCoord * GridCoord) : Z :=
  let start_x := Z.min (gx (fst line)) (gx (snd line)) in
  let end_x := Z.max (gx (fst line)) (gx (snd line)) in
  foldl (fun total x => total + default 0 (column_width graph !! x)) 0
        (py_range_from start_x (end_x + 1)).

(** The loop [for i in range(1, len(edge.path))] of
    [determine_label_line], run over the steps left; it ends at the first
    segment wide enough for the label. *)
Fixpoint label_line_scan (graph : AsciiGraph) (len_label : Z)
    (prev_step : GridCoord) (steps_left : list GridCoord)
    (largest_line : GridCoord * GridCoord) (largest_line_size : Z)
    : GridCoord * GridCoord :=
  match steps_left with
  | [] => largest_line
  | step :: steps_left' =>
      let line := (prev_step, step) in
      let line_width := _calculate_line_width graph line in
      if decide (line_width >= len_label) then line
      else if decide (line_width > largest_line_size) then
        label_line_scan graph len_label step steps_left' line line_width
      else
        label_line_scan graph len_label step steps_left' largest_line
          largest_line_size
  end.

(** [determine_label_line] sets the label line of the edge and one entry
    of the column widths of the graph; the model returns the two.  The
    text of an edge is the sequence of its characters. *)
Definition determine_label_line (graph : AsciiGraph) (edge : AsciiEdge)
    : option (gmap Z Z * AsciiEdge) :=
  if decide (String.length (text edge) = 0%nat) then
    Some (column_width graph, edge)
  else
    let len_label := Z.of_nat (String.length (text edge)) in
    prev_step ← Py.get (path edge) 0;
    step1 ← Py.get (path edge) 1;
    let largest_line :=
      label_line_scan graph len_label prev_step (drop 1 (path edge))
        (prev_step, step1) 0 in
    let min_x := Z.min (gx (fst largest_line)) (gx (snd largest_line)) in
    let max_x := Z.max (gx (fst largest_line)) (gx (snd largest_line)) in
    let middle_x := min_x + (max_x - min_x) `div` 2 in
    let current := default 0 (column_width graph !! middle_x) in
    Some (<[middle_x := Z.max current (len_label + 2)]> (column_width graph),
          mkAsciiEdge (from_node edge) (to_node edge) (text edge) (path edge)
            [fst largest_line; snd largest_line] (start_dir edge) (end_dir edge)).

(** *** Notions used to state the properties of the label line *)

(** The width of segment [i] of a path, the one from point [i] to point
    [i + 1]. *)
Definition segment_width (graph : AsciiGraph) (path : list GridCoord) (i : nat)
    : option Z :=
  a ← path !! i; b ← path !! S i; Some (_calculate_line_width graph (a, b)).

(** ** grid.py: column widths and row heights *)

(** [current = sizes.get(key, 0); sizes[key] = max(current, size)] *)
Definition widen (sizes : gmap Z Z) (key size : Z) : gmap Z Z :=
  <[key := Z.max (default 0 (sizes !! key)) size]> sizes.

Section ColumnWidth.

(** Whether the node is the topmost node of its subgraph with an edge
    coming in from outside; [set_column_width] is given for an arbitrary
    such test. *)
Variable _has_incoming_edge_from_outside_subgraph : AsciiGraph -> NodeRef -> bool.

(** [set_column_width] sets entries of the column widths and of the row
    heights of the graph; the model returns the two maps.  The label of a
    node is the sequence of its characters. *)
Definition set_column_width (graph : AsciiGraph) (node : NodeRef)
    : option (gmap Z Z * gmap Z Z) :=
  n ← nodes graph !! node;
  gc ← grid_coord n;
  let padding := box_border_padding (config graph) in
  let col_widths := [1; 2 * padding + Z.of_nat (String.length (display_label n)); 1] in
  let row_heights := [1; 1 + 2 * padding; 1] in
  column_width ←
    Py.for_range (Z.of_nat (length col_widths))
      (fun idx column_width =>
         w ← Py.get col_widths idx;
         Some (widen column_width (gx gc + idx) w))
      (column_width graph);
  row_height ←
    Py.for_range (Z.of_nat (length row_heights))
      (fun idx row_height =>
         h ← Py.get row_heights idx;
         Some (widen row_height (gy gc + idx) h))
      (row_height graph);
  let column_width :=
    if decide (gx gc > 0)
    then widen column_width (gx gc - 1) (padding_x (config graph))
    else column_width in
  let row_height :=
    if decide (gy gc > 0) then
      let base_padding := padding_y (config graph) in
      let base_padding :=
        if _has_incoming_edge_from_outside_subgraph graph node
        then base_padding + 4 else base_padding in
      widen row_height (gy gc - 1) base_padding
    else row_height in
  Some (column_width, row_height).

End ColumnWidth.

(** *** Notions used to state the properties of the sizes *)

(** The size of [key] in a map of sizes, as [sizes.get(key, 0)]. *)
Definition size_at (sizes : gmap Z Z) (key : Z) : Z := default 0 (sizes !! key).

(** *** Notions used to state when the search cannot end *)

(** Every cell with a recorded cost is a free cell. *)
Definition all_free (grid : gmap (Z * Z) NodeRef) (st : SearchState) : Prop :=
  forall k, is_Some (cost_so_far st !! k) ->
    _is_free_in_grid grid (key_coord k) = true.

(** Every cell with a recorded cost, except [k0], is queued or has a
    right neighbour with a recorded cost. *)
Definition frontier_except (k0 : option (Z * Z)) (st : SearchState) : Prop :=
  forall k, is_Some (cost_so_far st !! k) ->
    Some k = k0 \/
    (exists item, item ∈ pq st /\ grid_key (coord item) = k) \/
    is_Some (cost_so_far st !! (fst k + 1, snd k)).

(** The cell reached from [c] by the move [d]. *)
Definition moved (c d : GridCoord) : GridCoord :=
  mkGridCoord (gx c + gx d) (gy c + gy d).

(** ** grid.py: placing the nodes *)

(** [graph.nodes[i]], as a reference. *)
Definition node_at (graph : AsciiGraph) (i : Z) : option NodeRef :=
  let n := Z.of_nat (length (nodes graph)) in
  if decide (0 <= i) then
    if decide (i < n) then Some (Z.to_nat i) else None
  else if decide (- n <= i) then Some (Z.to_nat (n + i)) else None.

Definition node_name (graph : AsciiGraph) (node : NodeRef) : option string :=
  name <$> nodes graph !! node.

Definition _get_edges_from_node (graph : AsciiGraph) (node : NodeRef)
    : option (list AsciiEdge) :=
  node_name' ← node_name graph node;
  Py.for_each (edges graph)
    (fun e found =>
       from_name ← node_name graph (from_node e);
       Some (if decide (from_name = node_name') then found ++ [e] else found)%list)
    [].

Definition _get_children (graph : AsciiGraph) (node : NodeRef)
    : option (list NodeRef) :=
  match _get_edges_from_node graph node with
  | Some es => Some (to_node <$> es)
  | None => None
  end.

(** The positions of the nodes of the graph, in order: the loop
    [for node in graph.nodes] runs over them. *)
Definition node_refs (graph : AsciiGraph) : list NodeRef :=
  seq 0 (length (nodes graph)).

Section Placement.

(** Whether a node lies in a subgraph; the placement is given for an
    arbitrary such test. *)
Variable _is_node_in_any_subgraph : AsciiGraph -> NodeRef -> bool.

(** The number of nested calls of [reserve_spot_in_grid] that the
    recursion limit leaves room for in [create_mapping]. *)
Variable depth : nat.

(** The nodes that are not the target of an edge of an earlier node. *)
Definition root_nodes_of (graph : AsciiGraph) : option (list NodeRef) :=
  '(_, root_nodes) ←
    Py.for_each (node_refs graph)
      (fun node '(nodes_found, root_nodes) =>
         node_name' ← node_name graph node;
         let root_nodes :=
           if decide (node_name' ∈ (nodes_found : gset string)) then root_nodes
           else (root_nodes ++ [node])%list in
         let nodes_found := {[ node_name' ]} ∪ nodes_found in
         children ← _get_children graph node;
         nodes_found ←
           Py.for_each children
             (fun child nodes_found =>
                child_name ← node_name graph child;
                Some ({[ child_name ]} ∪ nodes_found))
             nodes_found;
         Some (nodes_found, root_nodes))
      (∅, []);
  Some root_nodes.

Definition should_separate_roots (graph : AsciiGraph) (root_nodes : list NodeRef)
    : option bool :=
  '(has_external_roots, has_subgraph_roots_with_edges) ←
    Py.for_each root_nodes
      (fun node '(has_external_roots, has_subgraph_roots_with_edges) =>
         if _is_node_in_any_subgraph graph node then
           children ← _get_children graph node;
           Some (has_external_roots,
                 if decide (0 < length children)%nat then true
                 else has_subgraph_roots_with_edges)
         else Some (true, has_subgraph_roots_with_edges))
      (false, false);
  Some (bool_decide (graph_direction (config graph) = LR)
        && has_external_roots && has_subgraph_roots_with_edges).

(** One round of the two loops that place root nodes at [level]. *)
Definition place_root (level : Z) (node : NodeRef)
    (st : AsciiGraph * list Z) : option (AsciiGraph * list Z) :=
  let '(graph, highest_position_per_level) := st in
  highest ← Py.get highest_position_per_level level;
  let requested :=
    match graph_direction (config graph) with
    | LR => mkGridCoord level highest
    | TD => mkGridCoord highest level
    end in
  n ← nodes graph !! node;
  target ← node_at graph (index n);
  '(graph, _) ← reserve_spot_in_grid depth graph target requested;
  highest ← Py.get highest_position_per_level level;
  highest_position_per_level ← Py.set highest_position_per_level level (highest + 4);
  Some (graph, highest_position_per_level).

(** One round of the loop over the children of a node. *)
Definition place_child (child_level : Z) (child : NodeRef)
    (st : AsciiGraph * list Z * Z) : option (AsciiGraph * list Z * Z) :=
  let '(graph, highest_position_per_level, highest_position) := st in
  c ← nodes graph !! child;
  if decide (is_Some (grid_coord c)) then Some st
  else
    let requested :=
      match graph_direction (config graph) with
      | LR => mkGridCoord child_level highest_position
      | TD => mkGridCoord highest_position child_level
      end in
    target ← node_at graph (index c);
    '(graph, _) ← reserve_spot_in_grid depth graph target requested;
    highest_position_per_level ←
      Py.set highest_position_per_level child_level (highest_position + 4);
    highest_position ← Py.get highest_position_per_level child_level;
    Some (graph, highest_position_per_level, highest_position).

(** One round of the loop that places the children level by level. *)
Definition place_children (node : NodeRef) (st : AsciiGraph * list Z)
    : option (AsciiGraph * list Z) :=
  let '(graph, highest_position_per_level) := st in
  n ← nodes graph !! node;
  gc ← grid_coord n;
  let child_level :=
    match graph_direction (config graph) with
    | LR => gx gc + 4
    | TD => gy gc + 4
    end in
  highest_position ← Py.get highest_position_per_level child_level;
  children ← _get_children graph node;
  '(graph, highest_position_per_level, _) ←
    Py.for_each children (place_child child_level)
      (graph, highest_position_per_level, highest_position);
  Some (graph, highest_position_per_level).

(** The part of [create_mapping] that places the nodes: everything up to
    the computation of the column widths.  The rest of [create_mapping]
    writes neither the occupancy map nor a grid coordinate. *)
Definition create_mapping_placement (graph : AsciiGraph) : option AsciiGraph :=
  let highest_position_per_level : list Z := replicate 100%nat 0 in
  match root_nodes_of graph with
  | None => None
  | Some root_nodes =>
      match should_separate_roots graph root_nodes with
      | None => None
      | Some should_separate =>
          let external_root_nodes :=
            if should_separate
            then filter (fun n => _is_node_in_any_subgraph graph n = false) root_nodes
            else root_nodes in
          let subgraph_root_nodes :=
            if should_separate
            then filter (fun n => _is_node_in_any_subgraph graph n = true) root_nodes
            else [] in
          st ← Py.for_each external_root_nodes (place_root 0)
                 (graph, highest_position_per_level);
          st ← (if should_separate
                   && bool_decide (0 < length subgraph_root_nodes)%nat
                then Py.for_each subgraph_root_nodes (place_root 4) st
                else Some st);
          st ← Py.for_each (node_refs (fst st)) place_children st;
          Some (fst st)
      end
  end.

End Placement.

(** *** Notions used to state the properties of the placement *)

(** Both coordinates are multiples of four. *)
Definition aligned (c : GridCoord) : Prop := (4 | gx c) /\ (4 | gy c).

(** What the placement maintains: the occupancy map is made of whole
    blocks at aligned positions, each held by one node, and every node
    with a grid coordinate has an aligned one and holds all nine cells
    of the block there. *)
Definition placed_inv (graph : AsciiGraph) : Prop :=
  (forall k r, grid graph !! k = Some r ->
     exists c, aligned c /\ in_block_at c k /\
       forall k', in_block_at c k' -> grid graph !! k' = Some r) /\
  (forall r n c, nodes graph !! r = Some n -> grid_coord n = Some c ->
     aligned c /\ forall k, in_block_at c k -> grid graph !! k = Some r).

(** The table of positions per level holds multiples of four. *)
Definition aligned_levels (highest_position_per_level : list Z) : Prop :=
  forall v, v ∈ highest_position_per_level -> (4 | v).

(** *** Notions used to state that the search ends on the empty grid *)

(** Point [i] of the way from [a] to [b] that runs along the row of [a]
    first and along the column of [b] then. *)
Definition way (a b : GridCoord) (i : Z) : GridCoord :=
  let dx := gx b - gx a in
  let dy := gy b - gy a in
  if decide (i <= Z.abs dx) then mkGridCoord (gx a + Z.sgn dx * i) (gy a)
  else mkGridCoord (gx b) (gy a + Z.sgn dy * (i - Z.abs dx)).

(** What the search from [a] to [b] maintains on the empty grid, with
    [m] the distance of the two: the queue is ordered; a recorded cost is
    at least the distance from the start, at most [m + 2], and recorded
    for a cell near the goal; a queued cell other than the start has a
    priority of at least its cost plus the heuristic; and every point of
    the way that has its least cost either is queued with a priority of
    at most [m + 1], or is followed by a point with its least cost, or is
    the cell [skip] that is being expanded. *)
Record astar_inv (a b : GridCoord) (skip : option GridCoord) (st : SearchState)
    : Prop := mk_astar_inv {
  ai_ordered : heap_ordered (pq st);
  ai_lower : forall k c, cost_so_far st !! k = Some c ->
    manhattan a (key_coord k) <= c;
  ai_upper : forall k c, cost_so_far st !! k = Some c ->
    c <= manhattan a b + 2 /\ 0 <= fst k /\ 0 <= snd k /\
    manhattan (key_coord k) b <= manhattan a b + 2;
  ai_items : forall item, item ∈ pq st ->
    exists c, cost_so_far st !! grid_key (coord item) = Some c /\
      (coord item = a \/ c + heuristic (coord item) b <= priority item);
  ai_frontier : forall i, 0 <= i <= manhattan a b ->
    cost_so_far st !! grid_key (way a b i) = Some i ->
    Some (way a b i) = skip \/
    (exists item, item ∈ pq st /\ coord item = way a b i /\
       priority item <= manhattan a b + 1) \/
    (i < manhattan a b /\
     cost_so_far st !! grid_key (way a b (i + 1)) = Some (i + 1))
}.

(** The costs a cell near the goal can still be given: a cell and a cost
    below the one recorded for it, if any. *)
Definition slots (a b : GridCoord) : gset (Z * Z * Z) :=
  let m := manhattan a b in
  list_to_set
    (x ← py_range (gx b + m + 3);
     y ← py_range (gy b + m + 3);
     c ← py_range (m + 3);
     [(x, y, c)]).

Definition slot_open (cost : gmap (Z * Z) Z) (s : Z * Z * Z) : Prop :=
  match cost !! fst s with
  | None => True
  | Some c => snd s < c
  end.

Global Instance slot_open_dec cost s : Decision (slot_open cost s).
Proof. unfold slot_open. destruct (cost !! fst s); apply _. Defined.

Definition open_slots (a b : GridCoord) (cost : gmap (Z * Z) Z) : gset (Z * Z * Z) :=
  filter (slot_open cost) (slots a b).

(** The number of iterations the search can still make is bounded by the
    queued items plus twice the costs that can still be given. *)
Definition search_measure (a b : GridCoord) (st : SearchState) : nat :=
  (length (pq st) + 2 * size (open_slots a b (cost_so_far st)))%nat.

(** * Proofs *)

(** ** Coordinates *)

Lemma grid_key_inj a b : grid_key a = grid_key b -> a = b.
Proof. destruct a, b; unfold grid_key; simpl; congruence. Qed.

Lemma grid_coord_equals_true a b : grid_coord_equals a b = true <-> a = b.
Proof.
  unfold grid_coord_equals. destruct a, b; simpl.
  rewrite andb_true_iff, !bool_decide_eq_true. split.
  - intros [-> ->]; reflexivity.
  - intros [= -> ->]; auto.
Qed.

Lemma grid_coord_equals_false a b : grid_coord_equals a b = false <-> a <> b.
Proof.
  rewrite <- grid_coord_equals_true. destruct (grid_coord_equals a b); split; congruence.
Qed.


(** ** Strings and loops *)

Lemma append_cons a (s t : string) : String a s +:+ t = String a (s +:+ t).
Proof. reflexivity. Qed.

Lemma append_nil_l (s : string) : EmptyString +:+ s = s.
Proof. reflexivity. Qed.

Lemma append_nil_r (s : string) : s +:+ EmptyString = s.
Proof. induction s; [reflexivity|]. rewrite append_cons. congruence. Qed.

Lemma append_assoc (a b c : string) : (a +:+ b) +:+ c = a +:+ (b +:+ c).
Proof.
  induction a; [reflexivity|]. rewrite !append_cons. congruence.
Qed.

Lemma length_append (a b : string) :
  String.length (a +:+ b) = (String.length a + String.length b)%nat.
Proof.
  induction a; [reflexivity|]. rewrite append_cons. simpl. congruence.
Qed.

Lemma join_length sep (lines : list string) :
  String.length (Py.join sep lines) =
  (sum_list (String.length <$> lines) + String.length sep * pred (length lines))%nat.
Proof.
  induction lines as [|l r IH]; [simpl; lia|].
  destruct r as [|l' r'].
  - simpl. lia.
  - change (Py.join sep (l :: l' :: r')) with (l +:+ sep +:+ Py.join sep (l' :: r')).
    rewrite !length_append, IH. simpl. lia.
Qed.

(** A counting loop whose body reads the [i]-th element of a list is the
    loop over that list. *)
Lemma for_from_for_each {A St} (l : list A) (f : A -> St -> option St)
    (body : Z -> St -> option St) (k : nat) (s : St) :
  (forall (i : nat) x s', l !! i = Some x ->
     body (Z.of_nat (k + i)) s' = f x s') ->
  Py.for_from (Z.of_nat k) (length l) body s = Py.for_each l f s.
Proof.
  revert k s. induction l as [|x r IH]; intros k s H; [reflexivity|].
  simpl. rewrite <- (H 0%nat x s eq_refl), Nat.add_0_r.
  destruct (body (Z.of_nat k) s) as [s'|]; [|reflexivity]. simpl.
  replace (Z.of_nat k + 1) with (Z.of_nat (S k)) by lia.
  apply IH. intros i y s'' Hi.
  replace (S k + i)%nat with (k + S i)%nat by lia. apply (H (S i)). exact Hi.
Qed.

Lemma for_range_for_each {A St} (l : list A) (f : A -> St -> option St)
    (body : Z -> St -> option St) (n : Z) (s : St) :
  Z.to_nat n = length l ->
  (forall (i : nat) x s', l !! i = Some x -> body (Z.of_nat i) s' = f x s') ->
  Py.for_range n body s = Py.for_each l f s.
Proof.
  intros Hn H. unfold Py.for_range. rewrite Hn.
  apply (for_from_for_each l f body 0). exact H.
Qed.

(** A loop that never raises is a left fold. *)
Lemma for_each_total {A St} (l : list A) (g : St -> A -> St) (s : St) :
  Py.for_each l (fun x s' => Some (g s' x)) s = Some (fold_left g l s).
Proof. revert s. induction l as [|x r IH]; intros s; simpl; auto. Qed.

Lemma for_each_ext {A St} (l : list A) (f f' : A -> St -> option St) (s : St) :
  (forall x s', x ∈ l -> f x s' = f' x s') ->
  Py.for_each l f s = Py.for_each l f' s.
Proof.
  revert s. induction l as [|x r IH]; intros s H; [reflexivity|].
  simpl. rewrite (H x s) by left.
  destruct (f' x s); [|reflexivity]. simpl. apply IH.
  intros y s' Hy. apply H. by right.
Qed.

Lemma py_get_nat {A} (l : list A) (i : nat) : Py.get l (Z.of_nat i) = l !! i.
Proof.
  unfold Py.get. destruct (decide (0 <= Z.of_nat i)); [|lia].
  by rewrite Nat2Z.id.
Qed.

(** ** Junction merging *)

Lemma merge_junctions_entry c1 c2 g :
  junction_entry c1 c2 = Some g -> merge_junctions c1 c2 = g.
Proof.
  unfold junction_entry, merge_junctions.
  destruct (_JUNCTION_MAP !! c1) as [row|]; simpl; [|discriminate].
  intros ->. reflexivity.
Qed.

Lemma merge_junctions_fallthrough c1 c2 :
  junction_entry c1 c2 = None -> merge_junctions c1 c2 = c1.
Proof.
  unfold junction_entry, merge_junctions.
  destruct (_JUNCTION_MAP !! c1) as [row|]; simpl; [|reflexivity].
  intros ->. reflexivity.
Qed.

Lemma junction_rows_are_junction_chars a :
  a ∈ junction_rows -> is_junction_char a = true.
Proof.
  intros H. apply list_elem_of_In in H. revert a H. apply forallb_forall.
  vm_compute. reflexivity.
Qed.

(** C3, as stated, fails: the pair (─, ┼) lies in the junction set, has
    no entry in the table, so that [merge_junctions] passes its first
    argument through, and the two orders give different glyphs. *)
Lemma merge_junctions_total_symmetric_fails :
  ~ (forall a b, is_junction_char a = true -> is_junction_char b = true ->
       is_Some (junction_entry a b) /\ merge_junctions a b = merge_junctions b a).
Proof.
  intros H. destruct (H "─" "┼" eq_refl eq_refl) as [_ E].
  vm_compute in E. discriminate E.
Qed.

(** A pair has an entry in the table only if both characters head a row
    and differ. *)
Lemma pair_parts {A B} (x x' : A) (y y' : B) :
  (x, y) = (x', y') -> x = x' /\ y = y'.
Proof. intros H. by injection H. Qed.

Lemma junction_entry_rows (a b g : string) :
  junction_entry a b = Some g ->
  a ∈ junction_rows /\ b ∈ junction_rows /\ a <> b.
Proof.
  unfold junction_entry. intros H.
  destruct (_JUNCTION_MAP !! a) as [row|] eqn:Ea; [|discriminate H].
  cbn [mbind option_bind] in H. unfold _JUNCTION_MAP in Ea.
  apply elem_of_list_to_map_2 in Ea.
  repeat (apply elem_of_cons in Ea as [Ea|Ea];
    [apply pair_parts in Ea as [-> ->]; apply elem_of_list_to_map_2 in H;
     repeat (apply elem_of_cons in H as [H|H];
       [apply pair_parts in H as [-> ->];
        split; [repeat constructor|split; [repeat constructor|discriminate]]|]);
     by apply elem_of_nil in H|]).
  by apply elem_of_nil in Ea.
Qed.

(** C3, amended.  For two distinct characters among the ten junction
    characters that head a row of the lookup table, the table has an entry
    for the pair, [merge_junctions] returns that entry, and the glyph is the
    same for both orders of the pair.  Every other pair has no entry, and
    for it [merge_junctions] returns its first argument; among the
    junction characters these are the pairs of equal characters and the
    pairs with one of ┼ ╴ ╵ ╶ ╷, the five junction characters that head no
    row. *)
Theorem merge_junctions_rows_symmetric (a b : string) :
  (a ∈ junction_rows -> b ∈ junction_rows -> a <> b ->
   is_junction_char a = true /\ is_junction_char b = true /\
   junction_entry a b = Some (merge_junctions a b) /\
   junction_entry b a = Some (merge_junctions b a) /\
   merge_junctions a b = merge_junctions b a) /\
  (~ (a ∈ junction_rows /\ b ∈ junction_rows /\ a <> b) ->
   junction_entry a b = None /\ merge_junctions a b = a) /\
  (is_junction_char a = true <->
   a ∈ junction_rows \/ a ∈ ["┼"; "╴"; "╵"; "╶"; "╷"]).
Proof.
  split; [|split].
  - intros Ha Hb Hab.
    split; [by apply junction_rows_are_junction_chars|].
    split; [by apply junction_rows_are_junction_chars|].
    assert (T : forallb (fun a => forallb (fun b =>
              bool_decide (a = b) ||
              (bool_decide (junction_entry a b = Some (merge_junctions a b)) &&
               bool_decide (junction_entry b a = Some (merge_junctions b a)) &&
               bool_decide (merge_junctions a b = merge_junctions b a)))
              junction_rows) junction_rows = true).
    { vm_compute. reflexivity. }
    rewrite forallb_forall in T. specialize (T a (proj1 (list_elem_of_In _ _) Ha)).
    rewrite forallb_forall in T. specialize (T b (proj1 (list_elem_of_In _ _) Hb)).
    apply orb_true_iff in T as [T|T].
    + apply bool_decide_eq_true in T. contradiction.
    + rewrite !andb_true_iff, !bool_decide_eq_true in T. tauto.
  - intros N.
    assert (E : junction_entry a b = None).
    { destruct (junction_entry a b) as [g|] eqn:E; [|reflexivity].
      exfalso. apply N. by apply junction_entry_rows with g. }
    split; [exact E|]. by apply merge_junctions_fallthrough.
  - unfold is_junction_char. rewrite bool_decide_eq_true.
    change _JUNCTION_CHARS with (junction_rows ++ ["┼"; "╴"; "╵"; "╶"; "╷"])%list.
    apply elem_of_app.
Qed.

Lemma merge_junctions_rows_symmetric_witness :
  (merge_junctions "─" "│" = "┼" /\ merge_junctions "│" "─" = "┼") /\
  (merge_junctions "─" "┼" = "─" /\ merge_junctions "┼" "─" = "┼") /\
  merge_junctions "┌" "┌" = "┌".
Proof.
  assert (Ha : "─" ∈ junction_rows) by (vm_compute; left).
  assert (Hb : "│" ∈ junction_rows) by (vm_compute; right; left).
  assert (Hab : "─" <> "│") by discriminate.
  assert (Hc : "┼" ∉ junction_rows).
  { intros H. vm_compute in H.
    repeat (apply elem_of_cons in H as [H|H]; [discriminate H|]).
    by apply elem_of_nil in H. }
  split; [|split].
  - destruct (proj1 (merge_junctions_rows_symmetric "─" "│") Ha Hb Hab)
      as (_ & _ & _ & _ & E).
    split; [reflexivity | rewrite <- E; reflexivity].
  - split.
    + apply (proj1 (proj2 (merge_junctions_rows_symmetric "─" "┼"))).
      intros (_ & H & _). by apply Hc.
    + apply (proj1 (proj2 (merge_junctions_rows_symmetric "┼" "─"))).
      intros (H & _). by apply Hc.
  - apply (proj1 (proj2 (merge_junctions_rows_symmetric "┌" "┌"))).
    intros (_ & _ & H). by apply H.
Defined.

(** ** Serialising the canvas *)

Lemma rectangular_lookup (canvas : Canvas) (col : list string) (y : nat) :
  rectangular canvas -> col ∈ canvas -> (y < canvas_height canvas)%nat ->
  is_Some (col !! y).
Proof.
  intros R Hc Hy. apply lookup_lt_is_Some.
  specialize (R col Hc). unfold canvas_height in Hy. lia.
Qed.

Lemma row_loop (cols : list (list string)) (y : nat) (line : string) :
  (forall col, col ∈ cols -> is_Some (col !! y)) ->
  Py.for_each cols (fun col line => ch ← col !! y; Some (line +:+ ch)) line =
    Some (line +:+ concat_cells (canvas_row cols y)) /\
  length (canvas_row cols y) = length cols.
Proof.
  revert line. induction cols as [|col r IH]; intros line H.
  - simpl. by rewrite append_nil_r.
  - destruct (H col) as [ch Hch]; [left|].
    assert (Hr : forall c, c ∈ r -> is_Some (c !! y)) by (intros c Hc; apply H; by right).
    destruct (IH (line +:+ ch) Hr) as [E L].
    assert (CR : canvas_row (col :: r) y = ch :: canvas_row r y).
    { unfold canvas_row. simpl. by rewrite Hch. }
    rewrite CR. split.
    + cbn [Py.for_each]. rewrite Hch. cbn [mbind option_bind]. rewrite E.
      f_equal. change (concat_cells (ch :: canvas_row r y))
        with (ch +:+ concat_cells (canvas_row r y)).
      apply append_assoc.
    + cbn [length]. f_equal. exact L.
Qed.

Lemma lines_loop {A} (g : A -> string) (l : list A) (acc : list string) :
  Py.for_each l (fun y lines => Some (lines ++ [g y])%list) acc =
  Some (acc ++ map g l)%list.
Proof.
  revert acc. induction l as [|y r IH]; intros acc; simpl.
  - by rewrite app_nil_r.
  - rewrite IH. by rewrite <- app_assoc.
Qed.

(** C9: for every (rectangular) canvas [canvas_to_string] returns the
    lines of the canvas joined by single newline characters: there is
    exactly one line per canvas row, line [y] is the concatenation of the
    characters of row [y] over all columns in column order, and beyond the
    lines' own characters the text holds one newline between consecutive
    lines and nothing after the last one. *)
Theorem canvas_to_string_lines (canvas : Canvas) :
  rectangular canvas ->
  canvas_to_string canvas = Some (Py.join newline (canvas_lines canvas)) /\
  length (canvas_lines canvas) = canvas_height canvas /\
  (forall y, (y < canvas_height canvas)%nat ->
     canvas_lines canvas !! y = Some (concat_cells (canvas_row canvas y)) /\
     length (canvas_row canvas y) = length canvas) /\
  String.length (Py.join newline (canvas_lines canvas)) =
    (sum_list (String.length <$> canvas_lines canvas)
     + pred (canvas_height canvas))%nat.
Proof.
  intros R.
  assert (Hlen : length (canvas_lines canvas) = canvas_height canvas).
  { unfold canvas_lines. by rewrite length_map, length_seq. }
  assert (Hrow : forall y, (y < canvas_height canvas)%nat ->
     Py.for_each canvas (fun col line => ch ← col !! y; Some (line +:+ ch)) EmptyString
       = Some (concat_cells (canvas_row canvas y)) /\
     length (canvas_row canvas y) = length canvas).
  { intros y Hy. apply (row_loop canvas y EmptyString).
    intros col Hc. by apply rectangular_lookup with canvas. }
  split; [|split; [exact Hlen|split]].
  - unfold canvas_to_string.
    destruct (get_canvas_size canvas) as [max_x max_y] eqn:Hsz.
    assert (Hx : max_x + 1 = Z.of_nat (length canvas)).
    { unfold get_canvas_size in Hsz. injection Hsz as <- _. lia. }
    assert (Hy : Z.to_nat (max_y + 1) = canvas_height canvas).
    { unfold canvas_height. by rewrite Hsz. }
    rewrite (for_range_for_each (seq 0 (canvas_height canvas))
               (fun y lines => Some (lines ++ [concat_cells (canvas_row canvas y)])%list)).
    + rewrite (lines_loop (fun y => concat_cells (canvas_row canvas y))). reflexivity.
    + by rewrite length_seq.
    + intros i y lines Hi. apply lookup_seq in Hi as [Ey Hi].
      simpl in Ey. subst y. rewrite Hx.
      rewrite (for_range_for_each canvas
                 (fun col line => ch ← col !! i; Some (line +:+ ch))).
      * destruct (Hrow i Hi) as [-> _]. reflexivity.
      * by rewrite Nat2Z.id.
      * intros j col line Hj. unfold cget. rewrite py_get_nat, Hj.
        cbn [mbind option_bind]. rewrite py_get_nat. reflexivity.
  - intros y Hy. split; [|by apply Hrow].
    unfold canvas_lines. rewrite list_lookup_fmap, lookup_seq_lt by done. reflexivity.
  - rewrite join_length, Hlen. simpl. lia.
Qed.

Lemma canvas_to_string_lines_witness :
  rectangular [["a"; "b"]; ["c"; "d"]; ["e"; "f"]] /\
  canvas_to_string [["a"; "b"]; ["c"; "d"]; ["e"; "f"]] =
    Some ("ace" +:+ newline +:+ "bdf").
Proof.
  assert (R : rectangular [["a"; "b"]; ["c"; "d"]; ["e"; "f"]]).
  { intros col Hc. repeat (apply elem_of_cons in Hc as [->|Hc]; [reflexivity|]).
    by apply elem_of_nil in Hc. }
  split; [exact R|].
  destruct (canvas_to_string_lines _ R) as [E _]. rewrite E. reflexivity.
Defined.

(** ** Merging canvases *)

#[local] Arguments get_canvas_size : simpl never.

Lemma for_from_id {St} (body : Z -> St -> option St) (n : nat) (start : Z) (s : St) :
  (forall i, start <= i < start + Z.of_nat n -> body i s = Some s) ->
  Py.for_from start n body s = Some s.
Proof.
  revert start. induction n as [|n IH]; intros start H; [reflexivity|].
  simpl. rewrite H by lia. simpl. apply IH. intros i Hi. apply H. lia.
Qed.

Lemma py_set_nat {A} (l : list A) (i : nat) (v : A) :
  (i < length l)%nat -> Py.set l (Z.of_nat i) v = Some (<[i := v]> l).
Proof.
  intros H. unfold Py.set.
  destruct (decide (0 <= Z.of_nat i)); [|lia].
  destruct (decide (Z.of_nat i < Z.of_nat (length l))); [|lia].
  by rewrite Nat2Z.id.
Qed.

Lemma cset_nat (canvas : Canvas) (x y : nat) (col : list string) (v : string) :
  canvas !! x = Some col -> (y < length col)%nat ->
  cset canvas (Z.of_nat x) (Z.of_nat y) v = Some (<[x := <[y := v]> col]> canvas).
Proof.
  intros Hx Hy. unfold Canvas in *. unfold cset. rewrite py_get_nat, Hx. simpl.
  rewrite py_set_nat by done. simpl.
  apply py_set_nat. by apply lookup_lt_Some with col.
Qed.

Lemma take_S_insert {A} (l src : list A) (k : nat) (v : A) :
  (k < length l)%nat -> src !! k = Some v -> take k l = take k src ->
  take (S k) (<[k := v]> l) = take (S k) src.
Proof.
  intros Hk Hv Ht.
  rewrite (take_S_r (<[k := v]> l) k v) by (by apply list_lookup_insert_eq).
  rewrite (take_S_r src k v) by done.
  rewrite take_insert_ge by lia. by rewrite Ht.
Qed.

Lemma take_all_eq {A} (l src : list A) :
  length l = length src -> take (length src) l = take (length src) src -> l = src.
Proof.
  intros Hl Ht. rewrite <- (firstn_all src), <- Ht, <- Hl. symmetry. apply firstn_all.
Qed.

(** Copying column [x] of the base, cell by cell. *)
Lemma copy_column (base : Canvas) (x : nat) (bcol : list string) :
  base !! x = Some bcol ->
  len0 base = Some (Z.of_nat (length bcol)) ->
  forall (n k : nat) (merged : Canvas) (mcol : list string),
    (k + n = length bcol)%nat ->
    merged !! x = Some mcol -> length mcol = length bcol ->
    take k mcol = take k bcol ->
    Py.for_from (Z.of_nat k) n (copy_base_cell base (Z.of_nat x)) merged
      = Some (<[x := bcol]> merged).
Proof.
  unfold Canvas in *. intros Hb Hh.
  induction n as [|n IH]; intros k merged mcol Hk Hm Hl Ht.
  - simpl. f_equal. symmetry. apply list_insert_id.
    rewrite Hm. f_equal. apply take_all_eq; [done|].
    by replace (length bcol) with k by lia.
  - destruct (lookup_lt_is_Some_2 bcol k) as [v Hv]; [lia|].
    assert (E : copy_base_cell base (Z.of_nat x) (Z.of_nat k) merged
                = Some (<[x := <[k := v]> mcol]> merged)).
    { unfold copy_base_cell.
      destruct (decide (Z.of_nat x < Z.of_nat (length base))) as [_|N].
      2:{ apply lookup_lt_Some in Hb. lia. }
      rewrite Hh. simpl.
      destruct (decide (Z.of_nat k < Z.of_nat (length bcol))); [|lia].
      unfold cget. rewrite py_get_nat, Hb. simpl. rewrite py_get_nat, Hv. simpl.
      apply cset_nat; [done|lia]. }
    simpl. rewrite E. simpl.
    replace (Z.of_nat k + 1) with (Z.of_nat (S k)) by lia.
    assert (Hx : (x < length merged)%nat) by (by apply lookup_lt_Some with mcol).
    rewrite (IH (S k) _ (<[k := v]> mcol)).
    + by rewrite list_insert_insert_eq.
    + lia.
    + by apply list_lookup_insert_eq.
    + by rewrite length_insert.
    + apply take_S_insert; [lia|done|done].
Qed.

(** The copy loop rebuilds a rectangular base inside a blank canvas of the
    same size. *)
Lemma copy_columns (base : Canvas) (h : nat) :
  (forall col, col ∈ base -> length col = h) ->
  (base <> [] -> len0 base = Some (Z.of_nat h)) ->
  forall (n k : nat) (merged : Canvas),
    (k + n = length base)%nat -> length merged = length base ->
    (forall col, col ∈ merged -> length col = h) ->
    take k merged = take k base ->
    Py.for_from (Z.of_nat k) n
      (fun x merged => Py.for_range (Z.of_nat h) (copy_base_cell base x) merged) merged
      = Some base.
Proof.
  unfold Canvas in *. intros Hcols Hh. unfold Py.for_range. rewrite Nat2Z.id.
  induction n as [|n IH]; intros k merged Hk Hl Hm Ht.
  - simpl. f_equal. apply take_all_eq; [done|].
    by replace (length base) with k by lia.
  - destruct (lookup_lt_is_Some_2 base k) as [bcol Hb]; [lia|].
    destruct (lookup_lt_is_Some_2 merged k) as [mcol Hmc]; [lia|].
    assert (Lb : length bcol = h) by (apply Hcols; by apply list_elem_of_lookup_2 with k).
    assert (Lm : length mcol = h) by (apply Hm; by apply list_elem_of_lookup_2 with k).
    assert (Hh' : len0 base = Some (Z.of_nat (length bcol))).
    { rewrite Lb. apply Hh. intros ->. discriminate Hb. }
    simpl.
    pose proof (copy_column base k bcol Hb Hh' h 0%nat merged mcol) as CC.
    change (Z.of_nat 0) with 0 in CC. unfold Canvas in CC.
    rewrite CC; [|lia|done|lia|done].
    simpl. replace (Z.of_nat k + 1) with (Z.of_nat (S k)) by lia.
    apply IH.
    + lia.
    + by rewrite length_insert.
    + intros col Hc. apply list_elem_of_lookup in Hc as [j Hj].
      destruct (decide (k = j)) as [->|Hne].
      * rewrite list_lookup_insert_eq in Hj by lia. congruence.
      * rewrite list_lookup_insert_ne in Hj by done.
        apply Hm. by apply list_elem_of_lookup_2 with j.
    + apply take_S_insert; [lia|done|done].
Qed.

Lemma rectangular_len0 (canvas : Canvas) :
  canvas <> [] -> len0 canvas = Some (snd (get_canvas_size canvas) + 1).
Proof.
  destruct canvas as [|col0 r]; [done|]. intros _.
  unfold len0, get_canvas_size. simpl. f_equal. lia.
Qed.

Lemma rectangular_cols (canvas : Canvas) :
  rectangular canvas ->
  forall col, col ∈ canvas -> length col = canvas_height canvas.
Proof. intros R col Hc. specialize (R col Hc). unfold canvas_height. lia. Qed.

(** Applying a blank overlay changes nothing. *)
Lemma apply_overlay_blank offset ua (overlay merged : Canvas) :
  rectangular overlay -> blank overlay ->
  apply_overlay offset ua overlay merged = Some merged.
Proof.
  intros R B. unfold apply_overlay, Py.for_range. rewrite Nat2Z.id.
  apply for_from_id. intros x Hx.
  assert (Hne : overlay <> []) by (intros ->; simpl in Hx; lia).
  rewrite (rectangular_len0 overlay Hne). simpl.
  apply for_from_id. intros y Hy.
  destruct (lookup_lt_is_Some_2 overlay (Z.to_nat x)) as [col Hcol]; [lia|].
  assert (Hin : col ∈ overlay) by (by apply list_elem_of_lookup_2 with (Z.to_nat x)).
  destruct (lookup_lt_is_Some_2 col (Z.to_nat y)) as [ch Hch].
  { specialize (R col Hin). unfold get_canvas_size in *. cbn [snd] in *. lia. }
  assert (ch = space) as ->.
  { apply (B col ch Hin). by apply list_elem_of_lookup_2 with (Z.to_nat y). }
  unfold apply_overlay_cell, cget.
  replace x with (Z.of_nat (Z.to_nat x)) by lia.
  replace y with (Z.of_nat (Z.to_nat y)) by lia.
  rewrite py_get_nat, Hcol. simpl. rewrite py_get_nat, Hch. simpl.
  destruct (decide (space <> space)); [done|reflexivity].
Qed.

Lemma size_fold_ge (offset : DrawingCoord) (l : list Canvas) (mx my : Z) :
  let r := fold_left (fun '(max_x, max_y) overlay =>
               let '(o_x, o_y) := get_canvas_size overlay in
               (Z.max max_x (o_x + dcx offset), Z.max max_y (o_y + dcy offset)))
             l (mx, my) in
  mx <= fst r /\ my <= snd r.
Proof.
  revert mx my. induction l as [|o l IH]; intros mx my; [simpl; lia|].
  cbv zeta. cbn [fold_left]. destruct (get_canvas_size o) as [ox oy].
  pose proof (IH (Z.max mx (ox + dcx offset)) (Z.max my (oy + dcy offset))) as IH'.
  cbv zeta in IH'. lia.
Qed.

Lemma merged_size_skip (base : Canvas) offset (l1 l2 : list Canvas) (b : Canvas) :
  fst (get_canvas_size b) + dcx offset <= fst (get_canvas_size base) ->
  snd (get_canvas_size b) + dcy offset <= snd (get_canvas_size base) ->
  merged_size base offset (l1 ++ b :: l2) = merged_size base offset (l1 ++ l2).
Proof.
  intros Hx Hy. unfold merged_size. rewrite !fold_left_app. simpl.
  destruct (get_canvas_size base) as [bx by_] eqn:Hb.
  pose proof (size_fold_ge offset l1 bx by_) as G. simpl in G.
  destruct (fold_left _ l1 (bx, by_)) as [mx my]. simpl in *.
  destruct (get_canvas_size b) as [ox oy]. simpl in *.
  do 2 f_equal; lia.
Qed.

Lemma for_each_app {A St} (l1 l2 : list A) (f : A -> St -> option St) (s : St) :
  Py.for_each (l1 ++ l2) f s = Py.for_each l1 f s ≫= Py.for_each l2 f.
Proof.
  revert s. induction l1 as [|x r IH]; intros s; simpl; [reflexivity|].
  destruct (f x s); simpl; [apply IH|reflexivity].
Qed.

(** A blank layer no larger than the base can be dropped from a merge. *)
Lemma merge_canvases_skip_blank (base : Canvas) offset ua (l1 l2 : list Canvas)
    (b : Canvas) :
  rectangular b -> blank b ->
  fst (get_canvas_size b) + dcx offset <= fst (get_canvas_size base) ->
  snd (get_canvas_size b) + dcy offset <= snd (get_canvas_size base) ->
  merge_canvases base offset ua (l1 ++ b :: l2)
  = merge_canvases base offset ua (l1 ++ l2).
Proof.
  intros R B Hx Hy. unfold merge_canvases.
  rewrite (merged_size_skip base offset l1 l2 b Hx Hy).
  destruct (merged_size base offset (l1 ++ l2)) as [mx my].
  destruct (Py.for_range (mx + 1) _ (mk_canvas mx my)) as [m|]; [|reflexivity].
  simpl. rewrite !for_each_app.
  destruct (Py.for_each l1 _ m) as [m1|]; [|reflexivity].
  simpl. rewrite apply_overlay_blank by done. reflexivity.
Qed.

(** Merging no overlay at all gives back a rectangular base. *)
Lemma merge_canvases_nil (base : Canvas) offset ua :
  rectangular base -> merge_canvases base offset ua [] = Some base.
Proof.
  intros R. unfold merge_canvases, merged_size. cbn [fold_left Py.for_each].
  destruct (get_canvas_size base) as [mx my] eqn:Hsz.
  assert (Hx : mx + 1 = Z.of_nat (length base)).
  { unfold get_canvas_size in Hsz. injection Hsz as <- _. lia. }
  assert (Hy : Z.to_nat (my + 1) = canvas_height base).
  { unfold canvas_height. by rewrite Hsz. }
  pose proof (copy_columns base (canvas_height base)) as CC.
  unfold Py.for_range in *. rewrite Nat2Z.id in CC.
  rewrite Hx, Hy, Nat2Z.id. unfold Canvas in *.
  rewrite (CC (rectangular_cols base R)) with (k := 0%nat); [reflexivity| | | | |].
  - intros Hne. rewrite (rectangular_len0 base Hne). f_equal.
    unfold canvas_height. rewrite Hsz. cbn [snd].
    unfold get_canvas_size in Hsz. destruct base as [|c0 r]; [done|].
    injection Hsz as _ <-. lia.
  - lia.
  - unfold mk_canvas. rewrite length_replicate. lia.
  - intros col Hc. unfold mk_canvas in Hc. apply elem_of_replicate in Hc as [-> _].
    rewrite length_replicate. exact Hy.
  - reflexivity.
Qed.

(** ** Arrows with an empty path *)

Lemma copy_canvas_eq (canvas : Canvas) :
  copy_canvas canvas
  = replicate (length canvas) (replicate (canvas_height canvas) space).
Proof.
  unfold copy_canvas, canvas_height, mk_canvas.
  destruct (get_canvas_size canvas) as [mx my] eqn:Hsz. simpl.
  unfold get_canvas_size in Hsz. injection Hsz as <- _.
  f_equal. lia.
Qed.

Lemma copy_canvas_size (canvas : Canvas) :
  get_canvas_size (copy_canvas canvas) = get_canvas_size canvas.
Proof.
  rewrite copy_canvas_eq. unfold canvas_height.
  destruct canvas as [|col0 r]; [reflexivity|].
  unfold get_canvas_size. simpl. rewrite !length_replicate. f_equal; lia.
Qed.

Lemma copy_canvas_blank (canvas : Canvas) : blank (copy_canvas canvas).
Proof.
  rewrite copy_canvas_eq. intros col ch Hc Hch.
  apply elem_of_replicate in Hc as [-> _].
  by apply elem_of_replicate in Hch as [-> _].
Qed.

Lemma copy_canvas_rectangular (canvas : Canvas) : rectangular (copy_canvas canvas).
Proof.
  intros col Hc. rewrite copy_canvas_size.
  rewrite copy_canvas_eq in Hc. apply elem_of_replicate in Hc as [-> Hn].
  rewrite length_replicate. unfold canvas_height.
  destruct canvas as [|col0 r]; [done|]. unfold get_canvas_size. simpl. lia.
Qed.

Section ArrowProofs.

Variable _draw_arrow_label : AsciiGraph -> AsciiEdge -> option Canvas.
Variable _draw_path : AsciiGraph -> list GridCoord ->
  option (Canvas * list (list DrawingCoord) * list Direction).
Variable _draw_box_start :
  AsciiGraph -> list GridCoord -> list DrawingCoord -> option Canvas.
Variable _draw_arrow_head :
  AsciiGraph -> list DrawingCoord -> Direction -> option Canvas.
Variable _draw_corners : AsciiGraph -> list GridCoord -> option Canvas.

Let draw_arrow' := draw_arrow _draw_arrow_label _draw_path _draw_box_start
                     _draw_arrow_head _draw_corners.

(** C8: for an edge whose path is empty, [draw_arrow] returns, whatever
    the layer painters do, five times the blank copy of the graph canvas:
    a canvas of the size of the graph canvas whose cells are all the space
    character.  Merging these five layers onto the (rectangular) graph
    canvas gives back the graph canvas, and in any merge at offset zero
    onto a base at least as large as the graph canvas such a layer can be
    left out without changing the result. *)
Theorem draw_arrow_empty_path (graph : AsciiGraph) (edge : AsciiEdge) :
  path edge = [] -> rectangular (canvas graph) ->
  let empty := copy_canvas (canvas graph) in
  let zero := mkDrawingCoord 0 0 in
  draw_arrow' graph edge = Some (empty, empty, empty, empty, empty) /\
  get_canvas_size empty = get_canvas_size (canvas graph) /\
  blank empty /\
  (forall ua, merge_canvases (canvas graph) zero ua
                [empty; empty; empty; empty; empty] = Some (canvas graph)) /\
  (forall base ua l1 l2,
     fst (get_canvas_size (canvas graph)) <= fst (get_canvas_size base) ->
     snd (get_canvas_size (canvas graph)) <= snd (get_canvas_size base) ->
     merge_canvases base zero ua (l1 ++ empty :: l2)
     = merge_canvases base zero ua (l1 ++ l2)).
Proof.
  intros Hp R empty zero.
  assert (Skip : forall base ua l1 l2,
     fst (get_canvas_size (canvas graph)) <= fst (get_canvas_size base) ->
     snd (get_canvas_size (canvas graph)) <= snd (get_canvas_size base) ->
     merge_canvases base zero ua (l1 ++ empty :: l2)
     = merge_canvases base zero ua (l1 ++ l2)).
  { intros base ua l1 l2 Hx Hy. apply merge_canvases_skip_blank.
    - apply copy_canvas_rectangular.
    - apply copy_canvas_blank.
    - unfold empty, zero. rewrite copy_canvas_size. cbn [dcx]. lia.
    - unfold empty, zero. rewrite copy_canvas_size. cbn [dcy]. lia. }
  split; [|split; [apply copy_canvas_size|split; [apply copy_canvas_blank|split]]].
  - unfold draw_arrow', draw_arrow. rewrite Hp. simpl. reflexivity.
  - intros ua.
    pose proof (fun l => Skip (canvas graph) ua [] l) as Sk. cbn [app] in Sk.
    rewrite !Sk by lia. by apply merge_canvases_nil.
  - exact Skip.
Qed.

End ArrowProofs.

Lemma draw_arrow_empty_path_witness :
  let graph := mkAsciiGraph [] [] (mk_canvas 2 1) ∅ ∅ ∅ []
                 (mkAsciiConfig false 5 5 1 TD) 0 0 in
  let edge := mkAsciiEdge 0%nat 1%nat "go" [] [] UpperLeft UpperLeft in
  let empty := [[" "; " "]; [" "; " "]; [" "; " "]] in
  path edge = [] /\ rectangular (canvas graph) /\
  draw_arrow (fun _ _ => None) (fun _ _ => None) (fun _ _ _ => None)
             (fun _ _ _ => None) (fun _ _ => None) graph edge
    = Some (empty, empty, empty, empty, empty) /\
  merge_canvases (canvas graph) (mkDrawingCoord 0 0) false
    [empty; empty; empty; empty; empty] = Some (canvas graph).
Proof.
  intros graph edge empty.
  assert (Hp : path edge = []) by reflexivity.
  assert (R : rectangular (canvas graph)).
  { apply (copy_canvas_rectangular (mk_canvas 2 1)). }
  split; [exact Hp|]. split; [exact R|].
  destruct (draw_arrow_empty_path (fun _ _ => None) (fun _ _ => None)
              (fun _ _ _ => None) (fun _ _ _ => None) (fun _ _ => None)
              graph edge Hp R) as (E & _ & _ & M & _).
  split; [exact E | exact (M false)].
Defined.

(** ** Path simplification *)

Lemma keep_unremoved_cons (start : nat) (to_remove : gset nat)
    (p : GridCoord) (rest : list GridCoord) :
  keep_unremoved start to_remove (p :: rest) =
    if decide (start ∈ to_remove)
    then keep_unremoved (S start) to_remove rest
    else p :: keep_unremoved (S start) to_remove rest.
Proof. reflexivity. Qed.

Lemma merge_path_scan_spec (rest : list GridCoord) :
  forall (k : nat) (step0 step1 : GridCoord) (to_remove : gset nat),
    (forall j, j ∈ to_remove -> (j < k)%nat) ->
    keep_unremoved k (merge_path_scan (S k) step0 step1 rest to_remove)
      (step1 :: rest) = retained step0 step1 rest /\
    (forall j, (j < k)%nat ->
       j ∈ merge_path_scan (S k) step0 step1 rest to_remove <-> j ∈ to_remove).
Proof.
  induction rest as [|step2 rest IH]; intros k step0 step1 R HR.
  - simpl. split; [|tauto].
    destruct (decide (k ∈ R)) as [Hk|_]; [|reflexivity]. apply HR in Hk. lia.
  - cbn [merge_path_scan retained].
    replace (S k - 1)%nat with k by lia.
    set (R' := if same_step step0 step1 step2 then {[k]} ∪ R else R).
    assert (HR' : forall j, j ∈ R' -> (j < S k)%nat).
    { intros j Hj. unfold R' in Hj. destruct (same_step step0 step1 step2).
      - apply elem_of_union in Hj as [Hj|Hj].
        + apply elem_of_singleton in Hj. lia.
        + apply HR in Hj. lia.
      - apply HR in Hj. lia. }
    destruct (IH (S k) step1 step2 R' HR') as [E M].
    assert (Hk : k ∈ merge_path_scan (S (S k)) step1 step2 rest R'
                 <-> same_step step0 step1 step2 = true).
    { rewrite (M k) by lia. unfold R'.
      destruct (same_step step0 step1 step2).
      - split; [done|]. intros _. apply elem_of_union. left. by apply elem_of_singleton.
      - split; [|done]. intros Hj. apply HR in Hj. lia. }
    split.
    + rewrite keep_unremoved_cons, E.
      destruct (decide (k ∈ merge_path_scan (S (S k)) step1 step2 rest R')) as [Y|N].
      * apply Hk in Y. by rewrite Y.
      * destruct (same_step step0 step1 step2); [|reflexivity].
        exfalso. apply N, Hk. reflexivity.
    + intros j Hj. rewrite (M j) by lia. unfold R'.
      destruct (same_step step0 step1 step2); [|tauto].
      rewrite elem_of_union, elem_of_singleton. split; [|tauto].
      intros [->|H]; [lia|exact H].
Qed.

(** [merge_path] keeps the first point and then what [retained] keeps. *)
Lemma merge_path_retained (step0 step1 : GridCoord) (rest : list GridCoord) :
  merge_path (step0 :: step1 :: rest) = step0 :: retained step0 step1 rest.
Proof.
  destruct rest as [|step2 rest]; [reflexivity|].
  unfold merge_path.
  destruct (merge_path_scan_spec (step2 :: rest) 1 step0 step1 ∅) as [E M].
  { intros j Hj. by apply not_elem_of_empty in Hj. }
  rewrite keep_unremoved_cons.
  destruct (decide (0%nat ∈ merge_path_scan 2 step0 step1 (step2 :: rest) ∅)) as [Y|_].
  - apply M in Y; [|lia]. by apply not_elem_of_empty in Y.
  - by rewrite E.
Qed.

Lemma retained_straight_free (rest : list GridCoord) :
  forall a b, straight_free (a :: b :: rest) -> retained a b rest = b :: rest.
Proof.
  induction rest as [|c rest IH]; intros a b H; [reflexivity|].
  destruct H as [Hs H]. cbn [retained]. rewrite Hs. f_equal. by apply IH.
Qed.

(** A path without three points in a row on equal steps is left as it is. *)
Lemma merge_path_straight_free (path : list GridCoord) :
  straight_free path -> merge_path path = path.
Proof.
  destruct path as [|a [|b rest]]; [reflexivity..|].
  intros H. rewrite merge_path_retained. f_equal. by apply retained_straight_free.
Qed.

Lemma same_step_true a b c :
  same_step a b c = true <->
  gx b - gx a = gx c - gx b /\ gy b - gy a = gy c - gy b.
Proof.
  unfold same_step. by rewrite andb_true_iff, !bool_decide_eq_true.
Qed.

Lemma same_step_false a b c :
  same_step a b c = false <->
  ~ (gx b - gx a = gx c - gx b /\ gy b - gy a = gy c - gy b).
Proof.
  rewrite <- same_step_true. destruct (same_step a b c); split; congruence.
Qed.

(** On a unit-step path the points kept by the scan bound straight runs:
    the first kept point lies [k'] unit steps beyond the last kept point
    [a], in the direction the scan is moving, and no three kept points in
    a row are equally spaced. *)
Lemma retained_unit_path (rest : list GridCoord) :
  forall (p0 p1 a : GridCoord) (k : Z),
    unit_step p0 p1 -> 1 <= k ->
    gx p1 - gx a = k * (gx p1 - gx p0) ->
    gy p1 - gy a = k * (gy p1 - gy p0) ->
    unit_path (p1 :: rest) ->
    exists q1 q' k',
      retained p0 p1 rest = q1 :: q' /\ 1 <= k' /\
      gx q1 - gx a = k' * (gx p1 - gx p0) /\
      gy q1 - gy a = k' * (gy p1 - gy p0) /\
      straight_free (a :: q1 :: q').
Proof.
  induction rest as [|p2 rest IH]; intros p0 p1 a k U Hk Hx Hy UP.
  - exists p1, [], k. simpl. auto.
  - destruct UP as [U2 UP]. cbn [retained].
    destruct (same_step p0 p1 p2) eqn:Hs.
    + apply same_step_true in Hs as [Sx Sy].
      destruct (IH p1 p2 a (k + 1) U2 ltac:(lia) ltac:(lia) ltac:(lia) UP)
        as (q1 & q' & k' & E & Hk' & Qx & Qy & SF).
      exists q1, q', k'. rewrite E. repeat split; auto; lia.
    + destruct (IH p1 p2 p1 1 U2 ltac:(lia) ltac:(lia) ltac:(lia) UP)
        as (q2 & q'' & k'' & E & Hk'' & Qx & Qy & SF).
      exists p1, (q2 :: q''), k. rewrite E.
      repeat split; auto.
      apply same_step_false. intros [Ex Ey].
      apply same_step_false in Hs. apply Hs.
      unfold unit_step in U, U2.
      assert (C1 : (gx p1 - gx p0 = 1 /\ gy p1 - gy p0 = 0) \/
                   (gx p1 - gx p0 = -1 /\ gy p1 - gy p0 = 0) \/
                   (gx p1 - gx p0 = 0 /\ gy p1 - gy p0 = 1) \/
                   (gx p1 - gx p0 = 0 /\ gy p1 - gy p0 = -1)) by lia.
      assert (C2 : (gx p2 - gx p1 = 1 /\ gy p2 - gy p1 = 0) \/
                   (gx p2 - gx p1 = -1 /\ gy p2 - gy p1 = 0) \/
                   (gx p2 - gx p1 = 0 /\ gy p2 - gy p1 = 1) \/
                   (gx p2 - gx p1 = 0 /\ gy p2 - gy p1 = -1)) by lia.
      destruct C1 as [[A B]|[[A B]|[[A B]|[A B]]]];
      destruct C2 as [[C D]|[[C D]|[[C D]|[C D]]]];
      rewrite A, B in *; rewrite C, D in *; lia.
Qed.

(** C5, as stated, fails: [merge_path] drops the second of the four
    collinear points (0,0), (1,0), (2,0), (4,0); of the three points left
    the middle one has become redundant and a second pass drops it. *)
Lemma merge_path_not_idempotent :
  ~ (forall path : list GridCoord,
       merge_path (merge_path path) = merge_path path).
Proof.
  intros H.
  specialize (H [mkGridCoord 0 0; mkGridCoord 1 0; mkGridCoord 2 0; mkGridCoord 4 0]).
  vm_compute in H. discriminate H.
Qed.

(** C5, amended: on every path made of 4-directional unit steps, which
    is what the pathfinder produces, [merge_path] is idempotent. *)
Theorem merge_path_idempotent_unit (path : list GridCoord) :
  unit_path path -> merge_path (merge_path path) = merge_path path.
Proof.
  intros UP. destruct path as [|p0 [|p1 rest]]; [reflexivity..|].
  rewrite merge_path_retained. destruct UP as [U UP].
  destruct (retained_unit_path rest p0 p1 p0 1 U ltac:(lia) ltac:(lia) ltac:(lia) UP)
    as (q1 & q' & k' & E & _ & _ & _ & SF).
  rewrite E. by apply merge_path_straight_free.
Qed.

Lemma merge_path_idempotent_unit_witness :
  let path := [mkGridCoord 0 0; mkGridCoord 1 0; mkGridCoord 2 0;
               mkGridCoord 2 1; mkGridCoord 2 2] in
  unit_path path /\
  merge_path path = [mkGridCoord 0 0; mkGridCoord 2 0; mkGridCoord 2 2] /\
  merge_path (merge_path path) = merge_path path.
Proof.
  intros path.
  assert (UP : unit_path path) by (repeat split; reflexivity).
  split; [exact UP|]. split; [vm_compute; reflexivity|].
  exact (merge_path_idempotent_unit path UP).
Defined.

(** ** Directions *)

Lemma in_block_cases (d : Direction) :
  in_block d ->
  d = Up \/ d = Down \/ d = Left \/ d = Right \/ d = UpperRight \/
  d = UpperLeft \/ d = LowerRight \/ d = LowerLeft \/ d = Middle.
Proof.
  destruct d as [x y]. unfold in_block. simpl. intros [Hx Hy].
  assert (x = 0 \/ x = 1 \/ x = 2) as [->|[->| ->]] by lia;
  assert (y = 0 \/ y = 1 \/ y = 2) as [->|[->| ->]] by lia; tauto.
Qed.

(** [get_opposite] is the point reflection of the 3x3 block of a node
    through its middle: on the nine positions of the block it maps (x, y)
    to (2 - x, 2 - y), stays inside the block, and applying it twice gives
    the direction back. *)
Theorem get_opposite_point_reflection (d : Direction) :
  in_block d ->
  get_opposite d = mkDirection (2 - dirx d) (2 - diry d) /\
  in_block (get_opposite d) /\
  get_opposite (get_opposite d) = d.
Proof.
  intros H. apply in_block_cases in H.
  destruct H as [->|[->|[->|[->|[->|[->|[->|[->| ->]]]]]]]];
    (split; [reflexivity|split; [unfold in_block; simpl; lia|reflexivity]]).
Qed.

Lemma get_opposite_point_reflection_witness :
  in_block UpperRight /\ get_opposite UpperRight = LowerLeft /\
  get_opposite (get_opposite UpperRight) = UpperRight.
Proof.
  assert (H : in_block UpperRight) by (unfold in_block; simpl; lia).
  destruct (get_opposite_point_reflection UpperRight H) as (E & _ & I).
  split; [exact H|]. split; [exact E | exact I].
Defined.

(** Outside the block [get_opposite] answers [Middle], so that it is not
    an involution on all directions. *)
Theorem get_opposite_outside_block (d : Direction) :
  ~ in_block d -> get_opposite d = Middle /\ get_opposite (get_opposite d) <> d.
Proof.
  intros H.
  assert (E : get_opposite d = Middle).
  { unfold get_opposite.
    repeat (destruct (decide _) as [->|_];
            [exfalso; apply H; unfold in_block; simpl; lia|]).
    reflexivity. }
  split; [exact E|]. rewrite E. intros <-. apply H. unfold in_block. simpl. lia.
Qed.

Lemma get_opposite_outside_block_witness :
  get_opposite (mkDirection 3 1) = Middle.
Proof.
  assert (H : ~ in_block (mkDirection 3 1)) by (unfold in_block; simpl; lia).
  exact (proj1 (get_opposite_outside_block (mkDirection 3 1) H)).
Defined.

(** For two coordinates that differ, [determine_direction] is the
    position of the block whose offset from the middle has the signs of
    the coordinate differences; it is never [Middle], and swapping the two
    coordinates gives the opposite direction. *)
Theorem determine_direction_sign (a b : GridCoord) :
  grid_coord_equals a b = false ->
  let d := determine_direction a b in
  dirx d = 1 + Z.sgn (gx b - gx a) /\
  diry d = 1 + Z.sgn (gy b - gy a) /\
  d <> Middle /\
  determine_direction b a = get_opposite d.
Proof.
  intros Hne d. unfold d, determine_direction, grid_coord_equals in *.
  destruct a as [ax ay], b as [bx by_]. simpl in *.
  apply andb_false_iff in Hne.
  rewrite !bool_decide_eq_false in Hne.
  repeat (destruct (decide _)); simpl;
    try (exfalso; lia);
    (split; [lia|split; [lia|split; [discriminate|reflexivity]]]).
Qed.

Lemma determine_direction_sign_witness :
  determine_direction (mkGridCoord 4 8) (mkGridCoord 0 8) = Left /\
  determine_direction (mkGridCoord 0 8) (mkGridCoord 4 8) = Right.
Proof.
  assert (H : grid_coord_equals (mkGridCoord 4 8) (mkGridCoord 0 8) = false)
    by reflexivity.
  destruct (determine_direction_sign _ _ H) as (_ & _ & _ & E).
  split; [reflexivity | exact E].
Defined.

(** A coordinate compared with itself gives [Up], not [Middle]. *)
Theorem determine_direction_same (a b : GridCoord) :
  grid_coord_equals a b = true -> determine_direction a b = Up.
Proof.
  intros H. apply grid_coord_equals_true in H as ->.
  unfold determine_direction.
  destruct (decide _) as [_|N]; [|done].
  destruct (decide _) as [L|_]; [lia|reflexivity].
Qed.

Lemma determine_direction_same_witness :
  determine_direction (mkGridCoord 3 3) (mkGridCoord 3 3) = Up.
Proof.
  exact (determine_direction_same (mkGridCoord 3 3) (mkGridCoord 3 3) eq_refl).
Defined.

Lemma determine_direction_cases {A B} `{HasXY A, HasXY B} (a : A) (b : B) :
  let d := determine_direction a b in
  d = Up \/ d = Down \/ d = Left \/ d = Right \/
  d = UpperRight \/ d = UpperLeft \/ d = LowerRight \/ d = LowerLeft.
Proof.
  unfold determine_direction. repeat (destruct (decide _)); tauto.
Qed.

(** Whatever the positions of the two nodes and the direction of the
    graph, the four directions chosen for an edge are middles of sides of
    the node block: an edge never leaves or enters a box at a corner. *)
Theorem determine_start_and_end_dir_cardinal (nodes : list AsciiNode)
    (edge : AsciiEdge) (graph_direction : GraphDirection)
    (p po a ao : Direction) :
  determine_start_and_end_dir nodes edge graph_direction = Some (p, po, a, ao) ->
  cardinal p /\ cardinal po /\ cardinal a /\ cardinal ao.
Proof.
  unfold determine_start_and_end_dir, cardinal.
  destruct (decide _) as [_|_].
  { destruct graph_direction; intros [= <- <- <- <-]; tauto. }
  destruct (nodes !! from_node edge) as [fn|]; [|discriminate]. simpl.
  destruct (nodes !! to_node edge) as [tn|]; [|discriminate]. simpl.
  destruct (grid_coord fn) as [fg|]; [|discriminate]. simpl.
  destruct (grid_coord tn) as [tg|]; [|discriminate]. simpl.
  pose proof (determine_direction_cases fg tg) as D. simpl in D.
  destruct D as [->|[->|[->|[->|[->|[->|[->| ->]]]]]]];
    destruct graph_direction; vm_compute; intros [= <- <- <- <-]; tauto.
Qed.

Lemma determine_start_and_end_dir_cardinal_witness :
  let nodes := [mkAsciiNode "A" "A" 0 (Some (mkGridCoord 4 0)) None None false;
                mkAsciiNode "B" "B" 1 (Some (mkGridCoord 0 4)) None None false] in
  let edge := mkAsciiEdge 0%nat 1%nat "go" [] [] UpperLeft UpperLeft in
  determine_start_and_end_dir nodes edge TD = Some (Left, Up, Down, Right) /\
  cardinal Left.
Proof.
  intros nodes edge.
  assert (E : determine_start_and_end_dir nodes edge TD = Some (Left, Up, Down, Right))
    by reflexivity.
  split; [exact E|].
  exact (proj1 (determine_start_and_end_dir_cardinal nodes edge TD _ _ _ _ E)).
Defined.

(** ** The heuristic *)

(** The heuristic lies between the Manhattan distance and the Manhattan
    distance plus one, is symmetric, and is zero exactly for equal
    coordinates; it equals the Manhattan distance exactly when the two
    coordinates share a row or a column. *)
Theorem heuristic_bounds (a b : GridCoord) :
  manhattan a b <= heuristic a b <= manhattan a b + 1 /\
  heuristic a b = heuristic b a /\
  (heuristic a b = 0 <-> grid_coord_equals a b = true) /\
  (heuristic a b = manhattan a b <-> gx a = gx b \/ gy a = gy b).
Proof.
  unfold heuristic, manhattan, grid_coord_equals.
  destruct a as [ax ay], b as [bx by_]. simpl.
  rewrite andb_true_iff, !bool_decide_eq_true.
  repeat (destruct (decide _)); lia.
Qed.

(** One step of the search can raise the heuristic by two: the heuristic
    is not consistent, and it overestimates the remaining distance next to
    the goal's row or column. *)
Theorem heuristic_step (a a' goal : GridCoord) :
  unit_step a a' -> Z.abs (heuristic a' goal - heuristic a goal) <= 2.
Proof.
  unfold unit_step, heuristic.
  destruct a as [ax ay], a' as [ax' ay'], goal as [tx ty]. simpl.
  intros H. repeat (destruct (decide _)); lia.
Qed.

Lemma heuristic_step_witness :
  heuristic (mkGridCoord 1 1) (mkGridCoord 0 0)
  - heuristic (mkGridCoord 0 1) (mkGridCoord 0 0) = 2.
Proof.
  assert (U : unit_step (mkGridCoord 0 1) (mkGridCoord 1 1)) by reflexivity.
  pose proof (heuristic_step _ _ (mkGridCoord 0 0) U) as B.
  reflexivity.
Defined.

(** ** Flipping the canvas *)

Lemma remap_loop (l : list string) :
  forall (n k : nat) (cur : list string),
    (k + n = length l)%nat -> length cur = length l ->
    take k cur = flip_char <$> take k l -> drop k cur = drop k l ->
    Py.for_from (Z.of_nat k) n (fun y col =>
      ch ← Py.get col y;
      match _VERTICAL_FLIP_MAP !! ch with
      | Some flipped => Py.set col y flipped
      | None => Some col
      end) cur = Some (flip_char <$> l).
Proof.
  induction n as [|n IH]; intros k cur Hk Hl Ht Hd.
  - simpl. f_equal.
    rewrite <- (take_ge cur k) by lia. rewrite Ht.
    by rewrite take_ge by lia.
  - destruct (lookup_lt_is_Some_2 l k) as [ch Hch]; [lia|].
    assert (Hc : cur !! k = Some ch).
    { rewrite <- (Nat.add_0_r k), <- lookup_drop, Hd, lookup_drop.
      by rewrite Nat.add_0_r. }
    cbn [Py.for_from]. rewrite py_get_nat, Hc. cbn [mbind option_bind].
    assert (E : match _VERTICAL_FLIP_MAP !! ch with
                | Some flipped => Py.set cur (Z.of_nat k) flipped
                | None => Some cur
                end = Some (<[k := flip_char ch]> cur)).
    { unfold flip_char. destruct (_VERTICAL_FLIP_MAP !! ch) as [f|]; simpl.
      - apply py_set_nat. lia.
      - f_equal. symmetry. by apply list_insert_id. }
    rewrite E. cbn [mbind option_bind].
    replace (Z.of_nat k + 1) with (Z.of_nat (S k)) by lia.
    apply IH.
    + lia.
    + by rewrite length_insert.
    + rewrite (take_S_r l k ch) by done. rewrite fmap_app. simpl.
      rewrite <- Ht.
      rewrite (take_S_r (<[k := flip_char ch]> cur) k (flip_char ch)).
      * by rewrite take_insert_ge by lia.
      * apply list_lookup_insert_eq. lia.
    + rewrite drop_insert_lt by lia.
      replace (S k) with (k + 1)%nat by lia.
      rewrite <- !drop_drop. by rewrite Hd.
Qed.

Lemma remap_column_spec (col : list string) :
  remap_column col = Some (flip_char <$> col).
Proof.
  unfold remap_column, Py.for_range. rewrite Nat2Z.id.
  apply (remap_loop col (length col) 0 col); auto.
Qed.

Lemma flip_char_involutive (c : string) : flip_char (flip_char c) = c.
Proof.
  assert (H : map_Forall (fun k v => _VERTICAL_FLIP_MAP !! v = Some k)
                _VERTICAL_FLIP_MAP).
  { refine (bool_decide_unpack _ _). vm_compute. exact I. }
  unfold flip_char at 2.
  destruct (_VERTICAL_FLIP_MAP !! c) as [f|] eqn:E; simpl.
  - unfold flip_char. by rewrite (H c f E).
  - unfold flip_char. by rewrite E.
Qed.

Lemma flip_columns (canvas : list (list string)) :
  (mapM remap_column canvas : option (list (list string)))
    = Some ((fun col : list string => flip_char <$> col) <$> canvas).
Proof.
  induction canvas as [|col r IH]; [reflexivity|].
  cbn [mapM]. rewrite remap_column_spec. cbn [mbind option_bind].
  rewrite IH. reflexivity.
Qed.

Lemma flip_canvas_vertically_eq (canvas : Canvas) :
  flip_canvas_vertically canvas
    = Some ((fun col => flip_char <$> reverse col) <$> canvas).
Proof.
  unfold flip_canvas_vertically. rewrite flip_columns.
  by rewrite <- list_fmap_compose.
Qed.

(** [flip_canvas_vertically] never raises; it returns the canvas with
    every column reversed and every glyph replaced by its vertical mirror
    image: the shape of the canvas is kept, and the cell at row [y] of a
    column of height [h] receives the mirrored glyph of row [h - 1 - y]. *)
Theorem flip_canvas_vertically_spec (canvas : Canvas) :
  exists flipped, flip_canvas_vertically canvas = Some flipped /\
    length flipped = length canvas /\
    forall (x y : nat) (col : list string),
      canvas !! x = Some col -> (y < length col)%nat ->
      (flipped !! x ≫= (.!! y))
        = (flip_char <$> col !! (length col - 1 - y)%nat).
Proof.
  eexists. split; [apply flip_canvas_vertically_eq|]. unfold Canvas in *.
  split; [by rewrite length_fmap|].
  intros x y col Hx Hy. rewrite list_lookup_fmap, Hx.
  change ((flip_char <$> reverse col) !! y
          = (flip_char <$> col !! (length col - 1 - y)%nat)).
  rewrite list_lookup_fmap. f_equal.
  rewrite reverse_lookup by done. f_equal. lia.
Qed.

(** Flipping twice gives the canvas back: the glyph table is an
    involution on its keys and reversing a column twice restores it. *)
Theorem flip_canvas_vertically_involutive (canvas : Canvas) :
  flip_canvas_vertically canvas ≫= flip_canvas_vertically = Some canvas.
Proof.
  rewrite flip_canvas_vertically_eq. cbn [mbind option_bind].
  rewrite flip_canvas_vertically_eq. f_equal.
  rewrite <- list_fmap_compose. rewrite <- (list_fmap_id canvas) at 2.
  apply list_fmap_ext. intros _ col _. unfold compose. cbv beta.
  rewrite <- fmap_reverse, reverse_involutive, <- list_fmap_compose.
  rewrite <- (list_fmap_id col) at 2.
  apply list_fmap_ext. intros _ c _. apply flip_char_involutive.
Qed.

(** ** Growing the canvas *)

Lemma for_from_app {St} (body : Z -> St -> option St) (n1 n2 : nat) (start : Z)
    (s : St) :
  Py.for_from start (n1 + n2) body s
  = Py.for_from start n1 body s ≫= Py.for_from (start + Z.of_nat n1) n2 body.
Proof.
  revert start s. induction n1 as [|n1 IH]; intros start s.
  - replace (start + Z.of_nat 0) with start by lia. reflexivity.
  - cbn [Nat.add Py.for_from]. destruct (body start s) as [s'|]; [|reflexivity].
    cbn [mbind option_bind]. rewrite IH.
    replace (start + 1 + Z.of_nat n1) with (start + Z.of_nat (S n1)) by lia.
    reflexivity.
Qed.

(** The loop of the form: for each index, replace the element at that
    index, building the list [T] out of [M0]. *)
Lemma for_from_build {A} (body : Z -> list A -> option (list A)) (M0 T : list A)
    (I : list A -> Prop) :
  length T = length M0 ->
  (forall (i : nat) (t : A) (cur : list A),
     T !! i = Some t -> I cur -> length cur = length M0 -> cur !! i = M0 !! i ->
     body (Z.of_nat i) cur = Some (<[i := t]> cur) /\ I (<[i := t]> cur)) ->
  forall (n k : nat) (cur : list A),
    (k + n = length M0)%nat -> I cur -> length cur = length M0 ->
    take k cur = take k T -> drop k cur = drop k M0 ->
    Py.for_from (Z.of_nat k) n body cur = Some T.
Proof.
  intros HT Hstep. induction n as [|n IH]; intros k cur Hk HI Hl Ht Hd.
  - simpl. f_equal. rewrite <- (take_ge cur k) by lia. rewrite Ht.
    apply take_ge. lia.
  - destruct (lookup_lt_is_Some_2 T k) as [t Htk]; [lia|].
    assert (Hc : cur !! k = M0 !! k).
    { rewrite <- (Nat.add_0_r k), <- !lookup_drop, Hd. reflexivity. }
    destruct (Hstep k t cur Htk HI Hl Hc) as [E HI'].
    cbn [Py.for_from]. rewrite E. cbn [mbind option_bind].
    replace (Z.of_nat k + 1) with (Z.of_nat (S k)) by lia.
    apply IH.
    + lia.
    + exact HI'.
    + by rewrite length_insert.
    + rewrite (take_S_r T k t) by done.
      rewrite (take_S_r (<[k := t]> cur) k t) by (apply list_lookup_insert_eq; lia).
      by rewrite take_insert_ge, Ht by lia.
    + rewrite drop_insert_lt by lia.
      replace (S k) with (k + 1)%nat by lia.
      rewrite <- !drop_drop. by rewrite Hd.
Qed.

(** Copying the first cells of column [x] of the base into column [x] of
    a canvas whose columns are at least as long. *)
Lemma copy_column_prefix (base : list (list string)) (x : nat) (bcol : list string) :
  base !! x = Some bcol ->
  len0 base = Some (Z.of_nat (length bcol)) ->
  forall (n k : nat) (merged : list (list string)) (cur : list string),
    (k + n <= length bcol)%nat -> merged !! x = Some cur ->
    (length bcol <= length cur)%nat ->
    Py.for_from (Z.of_nat k) n (copy_base_cell base (Z.of_nat x)) merged
      = Some (<[x := (take k cur ++ take n (drop k bcol) ++ drop (k + n) cur)%list]>
                merged).
Proof.
  intros Hb Hh. induction n as [|n IH]; intros k merged cur Hk Hm Hl.
  - simpl. f_equal. symmetry. apply list_insert_id.
    rewrite Nat.add_0_r, take_drop. exact Hm.
  - destruct (lookup_lt_is_Some_2 bcol k) as [v Hv]; [lia|].
    assert (E : copy_base_cell base (Z.of_nat x) (Z.of_nat k) merged
                = Some (<[x := <[k := v]> cur]> merged)).
    { unfold copy_base_cell.
      destruct (decide (Z.of_nat x < Z.of_nat (length base))) as [_|N].
      2:{ apply lookup_lt_Some in Hb. lia. }
      rewrite Hh. cbn [mbind option_bind].
      destruct (decide (Z.of_nat k < Z.of_nat (length bcol))); [|lia].
      unfold cget. rewrite py_get_nat, Hb. cbn [mbind option_bind].
      rewrite py_get_nat, Hv. cbn [mbind option_bind].
      apply cset_nat; [done|lia]. }
    cbn [Py.for_from]. rewrite E. cbn [mbind option_bind].
    replace (Z.of_nat k + 1) with (Z.of_nat (S k)) by lia.
    assert (Hx : (x < length merged)%nat) by (by apply lookup_lt_Some with cur).
    rewrite (IH (S k) _ (<[k := v]> cur)).
    + rewrite list_insert_insert_eq. do 2 f_equal.
      rewrite (take_S_r (<[k := v]> cur) k v) by (apply list_lookup_insert_eq; lia).
      rewrite take_insert_ge by lia.
      rewrite (drop_S bcol v k Hv). cbn [take].
      rewrite drop_insert_lt by lia.
      replace (S k + n)%nat with (k + S n)%nat by lia.
      by rewrite <- !app_assoc.
    + lia.
    + by apply list_lookup_insert_eq.
    + by rewrite length_insert.
Qed.

(** The whole column loop. *)
Lemma copy_column_full (base : list (list string)) (x : nat)
    (merged : list (list string)) (cur : list string) :
  merged !! x = Some cur ->
  (forall bcol, base !! x = Some bcol ->
     len0 base = Some (Z.of_nat (length bcol)) /\ (length bcol <= length cur)%nat) ->
  Py.for_from 0 (length cur) (copy_base_cell base (Z.of_nat x)) merged
    = Some (<[x := match base !! x with
                   | Some bcol => (bcol ++ drop (length bcol) cur)%list
                   | None => cur
                   end]> merged).
Proof.
  intros Hm Hb. destruct (base !! x) as [bcol|] eqn:Hbx.
  - destruct (Hb bcol eq_refl) as [Hh Hl].
    replace (length cur) with (length bcol + (length cur - length bcol))%nat by lia.
    rewrite for_from_app.
    pose proof (copy_column_prefix base x bcol Hbx Hh (length bcol) 0 merged cur) as P.
    change (Z.of_nat 0) with 0 in P. rewrite P; [|lia|done|lia].
    cbn [mbind option_bind take drop Nat.add app].
    rewrite firstn_all.
    apply for_from_id. intros y Hy. unfold copy_base_cell.
    destruct (decide _); [|reflexivity].
    rewrite Hh. cbn [mbind option_bind].
    destruct (decide _); [lia|reflexivity].
  - rewrite list_insert_id by done.
    apply for_from_id. intros y Hy. unfold copy_base_cell.
    destruct (decide _) as [L|_]; [|reflexivity].
    apply lookup_ge_None in Hbx. lia.
Qed.

Lemma grow_to_length (w h : nat) (canvas : Canvas) :
  (length canvas <= w)%nat -> length (grow_to w h canvas) = w.
Proof.
  intros H. unfold grow_to. rewrite length_app, length_fmap, length_replicate. lia.
Qed.

Lemma grow_to_lookup (w h : nat) (canvas : list (list string)) (x : nat) :
  (x < w)%nat -> (length canvas <= w)%nat ->
  grow_to w h canvas !! x
  = Some (match canvas !! x with
          | Some bcol => (bcol ++ replicate (h - length bcol) space)%list
          | None => replicate h space
          end).
Proof.
  intros Hx Hw. unfold grow_to, Canvas.
  destruct (canvas !! x) as [bcol|] eqn:E.
  - rewrite lookup_app_l by (rewrite length_fmap; by apply lookup_lt_Some with bcol).
    by rewrite list_lookup_fmap, E.
  - apply lookup_ge_None in E.
    rewrite lookup_app_r by (rewrite length_fmap; lia).
    rewrite length_fmap. apply lookup_replicate_2. lia.
Qed.

Lemma rectangular_len0_height (canvas : Canvas) :
  canvas <> [] -> len0 canvas = Some (Z.of_nat (canvas_height canvas)).
Proof.
  intros Hne. rewrite (rectangular_len0 canvas Hne). f_equal.
  unfold canvas_height. destruct canvas as [|c0 r]; [done|].
  unfold get_canvas_size. cbn [snd]. lia.
Qed.

(** [increase_size] pads a rectangular canvas with spaces. *)
Lemma increase_size_eq (canvas : Canvas) (new_x new_y : Z) :
  rectangular canvas ->
  increase_size canvas new_x new_y
  = Some (grow_to (Z.to_nat (Z.max new_x (fst (get_canvas_size canvas)) + 1))
                  (Z.to_nat (Z.max new_y (snd (get_canvas_size canvas)) + 1))
                  canvas).
Proof.
  intros R. unfold increase_size.
  destruct (get_canvas_size canvas) as [cx cy] eqn:Hsz. cbn [fst snd].
  set (W := Z.to_nat (Z.max new_x cx + 1)).
  set (H := Z.to_nat (Z.max new_y cy + 1)).
  assert (Hcx : cx = Z.of_nat (length canvas) - 1).
  { unfold get_canvas_size in Hsz. by injection Hsz as <- _. }
  assert (Hh0 : canvas_height canvas = Z.to_nat (cy + 1)).
  { unfold canvas_height. by rewrite Hsz. }
  assert (HW : (length canvas <= W)%nat) by (unfold W; lia).
  assert (HH : (canvas_height canvas <= H)%nat) by (unfold H; lia).
  pose proof (rectangular_cols canvas R) as Rc.
  assert (Hmk : mk_canvas (Z.max new_x cx) (Z.max new_y cy)
                = replicate W (replicate H space)) by reflexivity.
  rewrite Hmk. unfold Py.for_range. rewrite length_replicate, Nat2Z.id.
  unfold Canvas in *.
  set (I := fun cur : list (list string) => forall col, col ∈ cur -> length col = H).
  assert (HT : length (grow_to W H canvas) = length (replicate W (replicate H space))).
  { rewrite grow_to_length by done. by rewrite length_replicate. }
  assert (Hstep : forall (i : nat) (t : list string) (cur : list (list string)),
     grow_to W H canvas !! i = Some t -> I cur ->
     length cur = length (replicate W (replicate H space)) ->
     cur !! i = replicate W (replicate H space) !! i ->
     (len0 cur ≫= fun h =>
        Py.for_from 0 (Z.to_nat h) (copy_base_cell canvas (Z.of_nat i)) cur)
       = Some (<[i := t]> cur) /\ I (<[i := t]> cur)).
  { intros i t cur Ht HI Hl Hc. rewrite length_replicate in Hl.
    assert (Hi : (i < W)%nat).
    { apply lookup_lt_Some in Ht. by rewrite grow_to_length in Ht. }
    rewrite lookup_replicate_2 in Hc by done.
    rewrite grow_to_lookup in Ht by done. injection Ht as <-.
    assert (H0 : len0 cur = Some (Z.of_nat H)).
    { unfold len0. change 0 with (Z.of_nat 0). rewrite py_get_nat.
      destruct (lookup_lt_is_Some_2 cur 0) as [c0 Hc0]; [lia|].
      rewrite Hc0. cbn [mbind option_bind]. do 2 f_equal.
      apply HI. by apply list_elem_of_lookup_2 with 0%nat. }
    rewrite H0. cbn [mbind option_bind]. rewrite Nat2Z.id.
    pose proof (copy_column_full canvas i cur (replicate H space) Hc) as F.
    rewrite length_replicate in F. rewrite F.
    + assert (Ecol : match canvas !! i with
                     | Some bcol => (bcol ++ drop (length bcol) (replicate H space))%list
                     | None => replicate H space
                     end
                   = match canvas !! i with
                     | Some bcol => (bcol ++ replicate (H - length bcol) space)%list
                     | None => replicate H space
                     end).
      { destruct (canvas !! i); [|reflexivity]. by rewrite drop_replicate. }
      rewrite Ecol. split; [reflexivity|].
      intros col Hcol. apply list_elem_of_lookup in Hcol as [j Hj].
      destruct (decide (i = j)) as [->|Hne].
      * rewrite list_lookup_insert_eq in Hj by lia. injection Hj as <-.
        destruct (canvas !! j) as [bcol|] eqn:Ej.
        -- rewrite length_app, length_replicate.
           pose proof (Rc bcol (list_elem_of_lookup_2 _ _ _ Ej)). lia.
        -- by rewrite length_replicate.
      * rewrite list_lookup_insert_ne in Hj by done.
        apply HI. by apply list_elem_of_lookup_2 with j.
    + intros bcol Hb.
      pose proof (Rc bcol (list_elem_of_lookup_2 _ _ _ Hb)) as Lb.
      rewrite Lb. split; [|lia].
      apply rectangular_len0_height. intros ->. discriminate Hb. }
  apply (for_from_build _ _ _ I HT Hstep W 0%nat).
  - by rewrite Nat.add_0_l, length_replicate.
  - intros col Hcol. apply elem_of_replicate in Hcol as [-> _].
    by rewrite length_replicate.
  - by rewrite length_replicate.
  - reflexivity.
  - reflexivity.
Qed.

Lemma grow_to_cell (w h : nat) (canvas : list (list string)) (x y : nat) :
  (length canvas <= w)%nat -> (forall col, col ∈ canvas -> (length col <= h)%nat) ->
  (grow_to w h canvas !! x ≫= (.!! y))
  = match canvas !! x ≫= (.!! y) with
    | Some v => Some v
    | None => if decide (x < w /\ y < h)%nat then Some space else None
    end.
Proof.
  intros Hw Hh. destruct (decide (x < w)%nat) as [Hx|Hx].
  - rewrite grow_to_lookup by done. cbn [mbind option_bind].
    destruct (canvas !! x) as [bcol|] eqn:E; cbn [mbind option_bind].
    + pose proof (Hh bcol (list_elem_of_lookup_2 _ _ _ E)) as Lb.
      destruct (bcol !! y) as [v|] eqn:Ey.
      * by rewrite lookup_app_l, Ey by (by apply lookup_lt_Some with v).
      * apply lookup_ge_None in Ey. rewrite lookup_app_r by done.
        destruct (decide _) as [[_ Hy]|N].
        -- apply lookup_replicate_2. lia.
        -- apply lookup_ge_None. rewrite length_replicate. lia.
    + destruct (decide _) as [[_ Hy]|N].
      * by apply lookup_replicate_2.
      * apply lookup_ge_None. rewrite length_replicate. lia.
  - assert (E1 : grow_to w h canvas !! x = None).
    { apply lookup_ge_None. rewrite grow_to_length by done. lia. }
    assert (E2 : canvas !! x = None) by (apply lookup_ge_None; lia).
    rewrite E1, E2. cbn [mbind option_bind]. destruct (decide _) as [[L _]|_]; [lia|reflexivity].
Qed.

Lemma cget_nat (canvas : Canvas) (x y : nat) :
  cget canvas (Z.of_nat x) (Z.of_nat y) = canvas !! x ≫= (.!! y).
Proof.
  unfold cget, Canvas in *. rewrite py_get_nat.
  destruct (canvas !! x) as [col|]; [|reflexivity].
  cbn [mbind option_bind]. apply py_get_nat.
Qed.

Lemma grow_to_cols (w h : nat) (canvas : list (list string)) (col : list string) :
  (length canvas <= w)%nat -> (forall c, c ∈ canvas -> (length c <= h)%nat) ->
  col ∈ grow_to w h canvas -> length col = h.
Proof.
  intros Hw Hh Hc. apply list_elem_of_lookup in Hc as [x Hx].
  assert (Lx : (x < w)%nat).
  { apply lookup_lt_Some in Hx. by rewrite grow_to_length in Hx. }
  rewrite grow_to_lookup in Hx by done. injection Hx as <-.
  destruct (canvas !! x) as [bcol|] eqn:E.
  - pose proof (Hh bcol (list_elem_of_lookup_2 _ _ _ E)).
    rewrite length_app, length_replicate. lia.
  - by rewrite length_replicate.
Qed.

Lemma grow_to_size (w h : nat) (canvas : list (list string)) :
  (length canvas <= w)%nat -> (forall c, c ∈ canvas -> (length c <= h)%nat) ->
  (0 < w)%nat ->
  get_canvas_size (grow_to w h canvas) = (Z.of_nat w - 1, Z.of_nat h - 1).
Proof.
  intros Hw Hh H0. unfold get_canvas_size.
  rewrite grow_to_length by done. f_equal.
  destruct (grow_to w h canvas) as [|c0 r] eqn:E.
  - apply (f_equal length) in E. rewrite grow_to_length in E by done.
    simpl in E. lia.
  - f_equal. f_equal. apply (grow_to_cols w h canvas); [done|done|].
    rewrite E. left.
Qed.

(** [increase_size] never raises on a rectangular canvas.  The canvas it
    returns is rectangular again, holds every cell of the given canvas at
    the same coordinates and the space character in every cell that was
    added, and, unless it is empty, its largest indices are the maxima of
    the requested and the former ones. *)
Theorem increase_size_preserves (canvas : Canvas) (new_x new_y : Z) :
  rectangular canvas ->
  exists grown, increase_size canvas new_x new_y = Some grown /\
    rectangular grown /\
    (forall (x y : nat) (v : string),
       cget canvas (Z.of_nat x) (Z.of_nat y) = Some v ->
       cget grown (Z.of_nat x) (Z.of_nat y) = Some v) /\
    (forall (x y : nat) (v : string),
       cget grown (Z.of_nat x) (Z.of_nat y) = Some v ->
       cget canvas (Z.of_nat x) (Z.of_nat y) = None -> v = space) /\
    (canvas <> [] \/ 0 <= new_x ->
     get_canvas_size grown
     = (Z.max new_x (fst (get_canvas_size canvas)),
        Z.max new_y (snd (get_canvas_size canvas)))).
Proof.
  intros R. eexists. split; [by apply increase_size_eq|].
  set (W := Z.to_nat (Z.max new_x (fst (get_canvas_size canvas)) + 1)).
  set (H := Z.to_nat (Z.max new_y (snd (get_canvas_size canvas)) + 1)).
  pose proof (rectangular_cols canvas R) as Rc.
  assert (HW : (length canvas <= W)%nat).
  { unfold W, get_canvas_size. cbn [fst]. lia. }
  assert (HH : forall c, c ∈ canvas -> (length c <= H)%nat).
  { intros c Hc. rewrite (Rc c Hc). unfold H, canvas_height. lia. }
  assert (Hsz : (0 < W)%nat -> get_canvas_size (grow_to W H canvas)
     = (Z.max new_x (fst (get_canvas_size canvas)),
        Z.max new_y (snd (get_canvas_size canvas)))).
  { intros H0. rewrite grow_to_size by done. unfold W, H in *.
    assert (-1 <= snd (get_canvas_size canvas)).
    { unfold get_canvas_size. cbn [snd]. destruct canvas; lia. }
    f_equal; lia. }
  split; [|split; [|split]].
  - intros col Hc. rewrite (grow_to_cols W H canvas col HW HH Hc).
    rewrite Hsz; [cbn [snd]; unfold H|].
    + assert (-1 <= snd (get_canvas_size canvas)).
      { unfold get_canvas_size. cbn [snd]. destruct canvas; lia. }
      lia.
    + apply list_elem_of_lookup in Hc as [x Hx]. apply lookup_lt_Some in Hx.
      rewrite grow_to_length in Hx by done. lia.
  - intros x y v. rewrite !cget_nat. unfold Canvas in *.
    rewrite grow_to_cell by done. by intros ->.
  - intros x y v. rewrite !cget_nat. unfold Canvas in *.
    rewrite grow_to_cell by done. intros Hg Hn. rewrite Hn in Hg.
    destruct (decide _); congruence.
  - intros Hne. apply Hsz. unfold W, get_canvas_size. cbn [fst].
    destruct Hne as [Hne|Hx]; [|lia].
    destruct canvas; [done|]. simpl length. lia.
Qed.

Lemma increase_size_preserves_witness :
  let canvas := [["a"; "b"]; ["c"; "d"]] in
  rectangular canvas /\
  exists grown, increase_size canvas 2 0 = Some grown /\
    cget grown 1 1 = Some "d" /\ get_canvas_size grown = (2, 1).
Proof.
  intros canvas.
  assert (R : rectangular canvas).
  { intros col Hc. repeat (apply elem_of_cons in Hc as [->|Hc]; [reflexivity|]).
    by apply elem_of_nil in Hc. }
  split; [exact R|].
  destruct (increase_size_preserves canvas 2 0 R) as (grown & E & _ & P & _ & S).
  exists grown. split; [exact E|]. split.
  - apply (P 1%nat 1%nat "d"). reflexivity.
  - apply S. left. discriminate.
Defined.

(** When the canvas already reaches the requested indices,
    [increase_size] leaves it as it is. *)
Theorem increase_size_large_enough (canvas : Canvas) (new_x new_y : Z) :
  rectangular canvas ->
  new_x <= fst (get_canvas_size canvas) ->
  new_y <= snd (get_canvas_size canvas) ->
  increase_size canvas new_x new_y = Some canvas.
Proof.
  intros R Hx Hy. rewrite increase_size_eq by done. f_equal.
  pose proof (rectangular_cols canvas R) as Rc.
  rewrite !Z.max_r by done.
  unfold grow_to.
  replace (Z.to_nat (fst (get_canvas_size canvas) + 1)) with (length canvas)
    by (unfold get_canvas_size; cbn [fst]; lia).
  rewrite Nat.sub_diag. cbn [replicate]. rewrite app_nil_r.
  rewrite <- (list_fmap_id canvas) at 2.
  apply list_fmap_ext. intros i col Hc. cbn [id].
  apply list_elem_of_lookup_2 in Hc. rewrite (Rc col Hc).
  fold (canvas_height canvas). rewrite Nat.sub_diag. apply app_nil_r.
Qed.

Lemma increase_size_large_enough_witness :
  let canvas := [["a"; "b"]; ["c"; "d"]] in
  increase_size canvas 1 0 = Some canvas.
Proof.
  intros canvas.
  assert (R : rectangular canvas).
  { intros col Hc. repeat (apply elem_of_cons in Hc as [->|Hc]; [reflexivity|]).
    by apply elem_of_nil in Hc. }
  apply (increase_size_large_enough canvas 1 0 R); unfold get_canvas_size; simpl; lia.
Defined.

(** ** Text on the canvas *)

Lemma draw_text_loop (sx sy : nat) (text : list string) :
  forall (j : nat) (c : list (list string)),
    (sx + j + length text <= length c)%nat ->
    (forall col, col ∈ c -> (sy < length col)%nat) ->
    exists c' : list (list string),
      Py.for_each (py_enumerate_from (Z.of_nat j) text)
        (fun '(i, ch) canvas => cset canvas (Z.of_nat sx + i) (Z.of_nat sy) ch) c
        = Some c' /\
      length c' = length c /\
      forall (x : nat) (col : list string), c !! x = Some col ->
        c' !! x = Some (match (if decide (sx + j <= x)%nat
                               then text !! (x - sx - j)%nat else None) with
                        | Some ch => <[sy := ch]> col
                        | None => col
                        end).
Proof.
  induction text as [|ch rest IH]; intros j c Hlen Hcols.
  - exists c. split; [reflexivity|]. split; [reflexivity|].
    intros x col Hx. rewrite Hx. by destruct (decide _).
  - cbn [length] in Hlen.
    destruct (lookup_lt_is_Some_2 c (sx + j)) as [colj Hcj]; [lia|].
    assert (Lj : (sy < length colj)%nat).
    { apply Hcols. by apply list_elem_of_lookup_2 with (sx + j)%nat. }
    cbn [py_enumerate_from Py.for_each].
    replace (Z.of_nat sx + Z.of_nat j) with (Z.of_nat (sx + j)) by lia.
    rewrite (cset_nat c (sx + j) sy colj ch Hcj Lj). cbn [mbind option_bind].
    replace (Z.of_nat j + 1) with (Z.of_nat (S j)) by lia.
    destruct (IH (S j) (<[(sx + j)%nat := <[sy := ch]> colj]> c)) as (c' & E & L & P).
    { rewrite length_insert. lia. }
    { intros col Hc. apply list_elem_of_lookup in Hc as [x Hx].
      destruct (decide (sx + j = x)%nat) as [<-|Hne].
      - rewrite list_lookup_insert_eq in Hx by lia. injection Hx as <-.
        by rewrite length_insert.
      - rewrite list_lookup_insert_ne in Hx by done.
        apply Hcols. by apply list_elem_of_lookup_2 with x. }
    exists c'. split; [exact E|]. split; [by rewrite L, length_insert|].
    intros x col Hx.
    destruct (decide (sx + j = x)%nat) as [<-|Hne].
    + rewrite (P (sx + j)%nat (<[sy := ch]> colj))
        by (apply list_lookup_insert_eq; lia).
      destruct (decide (sx + S j <= sx + j)%nat); [lia|].
      destruct (decide (sx + j <= sx + j)%nat); [|lia].
      replace (sx + j - sx - j)%nat with 0%nat by lia.
      cbn [lookup list_lookup]. congruence.
    + rewrite (P x col) by (by rewrite list_lookup_insert_ne).
      destruct (decide (sx + S j <= x)%nat), (decide (sx + j <= x)%nat);
        try lia; [|reflexivity].
      replace (x - sx - j)%nat with (S (x - sx - S j)) by lia. reflexivity.
Qed.

(** [draw_text] at a non-negative position of a rectangular canvas never
    raises: the canvas is first grown as by [increase_size], then the
    characters of the text are written from the start position rightwards
    in its row, and no other cell is changed. *)
Theorem draw_text_cells (canvas : Canvas) (start : DrawingCoord) (text : list string) :
  rectangular canvas -> 0 <= dcx start -> 0 <= dcy start ->
  exists grown drawn,
    increase_size canvas (dcx start + Z.of_nat (length text)) (dcy start)
      = Some grown /\
    draw_text canvas start text = Some drawn /\
    length drawn = length grown /\
    (forall (i : nat) (ch : string), text !! i = Some ch ->
       cget drawn (dcx start + Z.of_nat i) (dcy start) = Some ch) /\
    (forall x y : nat,
       ~ (Z.of_nat y = dcy start /\
          dcx start <= Z.of_nat x < dcx start + Z.of_nat (length text)) ->
       cget drawn (Z.of_nat x) (Z.of_nat y) = cget grown (Z.of_nat x) (Z.of_nat y)).
Proof.
  intros R Hsx Hsy.
  set (W := Z.to_nat (Z.max (dcx start + Z.of_nat (length text))
                        (fst (get_canvas_size canvas)) + 1)).
  set (H := Z.to_nat (Z.max (dcy start) (snd (get_canvas_size canvas)) + 1)).
  pose proof (rectangular_cols canvas R) as Rc.
  assert (HW : (length canvas <= W)%nat).
  { unfold W, get_canvas_size. cbn [fst]. lia. }
  assert (HH : forall c, c ∈ canvas -> (length c <= H)%nat).
  { intros c Hc. rewrite (Rc c Hc). unfold H, canvas_height. lia. }
  assert (E : increase_size canvas (dcx start + Z.of_nat (length text)) (dcy start)
              = Some (grow_to W H canvas)) by (by apply increase_size_eq).
  set (sx := Z.to_nat (dcx start)). set (sy := Z.to_nat (dcy start)).
  destruct (draw_text_loop sx sy text 0 (grow_to W H canvas)) as (c' & L & Hl & P).
  { rewrite grow_to_length by done. unfold W, sx. lia. }
  { intros col Hc. rewrite (grow_to_cols W H canvas col HW HH Hc). unfold H, sy. lia. }
  exists (grow_to W H canvas), c'.
  assert (D : draw_text canvas start text = Some c').
  { unfold draw_text. rewrite E. cbn [mbind option_bind]. unfold py_enumerate.
    change 0 with (Z.of_nat 0) at 1.
    replace (dcx start) with (Z.of_nat sx) by (unfold sx; lia).
    replace (dcy start) with (Z.of_nat sy) by (unfold sy; lia).
    exact L. }
  split; [exact E|]. split; [exact D|]. split; [exact Hl|].
  assert (Cols : forall x, (x < W)%nat -> exists col,
            grow_to W H canvas !! x = Some col /\ length col = H).
  { intros x Hx. destruct (lookup_lt_is_Some_2 (grow_to W H canvas) x) as [col Hc].
    - by rewrite grow_to_length.
    - exists col. split; [exact Hc|].
      apply (grow_to_cols W H canvas col HW HH).
      by apply list_elem_of_lookup_2 with x. }
  split.
  - intros i ch Hi.
    assert (Li : (i < length text)%nat) by (by apply lookup_lt_Some with ch).
    destruct (Cols (sx + i)%nat) as (col & Hc & Lc); [unfold W, sx; lia|].
    replace (dcx start + Z.of_nat i) with (Z.of_nat (sx + i)) by (unfold sx; lia).
    replace (dcy start) with (Z.of_nat sy) by (unfold sy; lia).
    rewrite cget_nat. unfold Canvas in *. rewrite (P _ _ Hc).
    destruct (decide _); [|lia].
    replace (sx + i - sx - 0)%nat with i by lia. rewrite Hi.
    cbn [mbind option_bind]. apply list_lookup_insert_eq. unfold H, sy in *. lia.
  - intros x y N. rewrite !cget_nat. unfold Canvas in *.
    destruct ((grow_to W H canvas : list (list string)) !! x) as [col|] eqn:Hc.
    + rewrite (P _ _ Hc). cbn [mbind option_bind].
      destruct (decide _) as [Lx|_]; [|reflexivity].
      destruct (text !! (x - sx - 0)%nat) as [ch|] eqn:Et; [|reflexivity].
      apply lookup_lt_Some in Et.
      apply list_lookup_insert_ne. intros <-. apply N. unfold sx, sy in *. lia.
    + apply lookup_ge_None in Hc. rewrite <- Hl in Hc.
      by rewrite (proj2 (lookup_ge_None c' x)).
Qed.

Lemma draw_text_cells_witness :
  let canvas := [["a"; "b"]; ["c"; "d"]] in
  let start := mkDrawingCoord 1 1 in
  rectangular canvas /\
  exists drawn, draw_text canvas start ["x"; "y"] = Some drawn /\
    cget drawn 2 1 = Some "y".
Proof.
  intros canvas start.
  assert (R : rectangular canvas).
  { intros col Hc. repeat (apply elem_of_cons in Hc as [->|Hc]; [reflexivity|]).
    by apply elem_of_nil in Hc. }
  split; [exact R|].
  destruct (draw_text_cells canvas start ["x"; "y"] R) as (grown & drawn & _ & D & _ & P & _).
  { simpl. lia. }
  { simpl. lia. }
  exists drawn. split; [exact D|]. exact (P 1%nat "y" eq_refl).
Defined.

(** ** Blank canvases *)

(** For non-negative largest indices [mk_canvas] and [get_canvas_size]
    are inverse to each other, and the canvas made is rectangular and
    blank. *)
Theorem mk_canvas_size (x y : Z) :
  0 <= x -> 0 <= y ->
  get_canvas_size (mk_canvas x y) = (x, y) /\
  rectangular (mk_canvas x y) /\ blank (mk_canvas x y).
Proof.
  intros Hx Hy.
  assert (E : get_canvas_size (mk_canvas x y) = (x, y)).
  { unfold get_canvas_size, mk_canvas. rewrite length_replicate.
    destruct (Z.to_nat (x + 1)) as [|n] eqn:En; [lia|].
    cbn [replicate]. rewrite length_replicate. f_equal; lia. }
  split; [exact E|]. split.
  - intros col Hc. rewrite E. cbn [snd]. unfold mk_canvas in Hc.
    apply elem_of_replicate in Hc as [-> _]. rewrite length_replicate. lia.
  - intros col ch Hc Hch. unfold mk_canvas in Hc.
    apply elem_of_replicate in Hc as [-> _].
    by apply elem_of_replicate in Hch as [-> _].
Qed.

Lemma mk_canvas_size_witness :
  get_canvas_size (mk_canvas 3 2) = (3, 2).
Proof.
  apply (mk_canvas_size 3 2); lia.
Defined.

(** ** The priority queue *)

Lemma swap_nat (items : list PQItem) (i j : nat) (vi vj : PQItem) :
  items !! i = Some vi -> items !! j = Some vj ->
  MinHeap.swap items (Z.of_nat i) (Z.of_nat j)
    = Some (<[j := vi]> (<[i := vj]> items)).
Proof.
  intros Hi Hj. unfold MinHeap.swap.
  rewrite !py_get_nat, Hj. cbn [mbind option_bind]. rewrite Hi.
  cbn [mbind option_bind].
  rewrite py_set_nat by (by apply lookup_lt_Some with vi).
  cbn [mbind option_bind].
  apply py_set_nat. rewrite length_insert. by apply lookup_lt_Some with vj.
Qed.

Lemma parent_nat (i : nat) :
  (0 < i)%nat -> Z.shiftr (Z.of_nat i - 1) 1 = Z.of_nat ((i - 1) / 2).
Proof.
  intros H. rewrite Z.shiftr_div_pow2 by lia.
  change (2 ^ 1) with 2. rewrite Nat2Z.inj_div. f_equal. lia.
Qed.

Lemma parent_lt (i : nat) : (0 < i)%nat -> ((i - 1) / 2 < i)%nat.
Proof.
  intros H. apply Nat.Div0.div_lt_upper_bound. lia.
Qed.

Lemma bubble_up_loop_perm (fuel : nat) :
  forall (items : list PQItem) (i : nat),
    (i < length items)%nat -> (i <= fuel)%nat ->
    exists items', MinHeap._bubble_up_loop fuel items (Z.of_nat i) = Some items' /\
                   items' ≡ₚ items.
Proof.
  induction fuel as [|fuel IH]; intros items i Hi Hf.
  - exists items. split; [|done]. simpl. destruct (decide _); [lia|reflexivity].
  - cbn [MinHeap._bubble_up_loop].
    destruct (decide (Z.of_nat i > 0)) as [Hpos|_]; [|by exists items].
    rewrite parent_nat by lia.
    pose proof (parent_lt i ltac:(lia)) as Hp.
    destruct (lookup_lt_is_Some_2 items i Hi) as [vi Hvi].
    destruct (lookup_lt_is_Some_2 items ((i - 1) / 2)) as [vp Hvp]; [lia|].
    rewrite !py_get_nat, Hvi. cbn [mbind option_bind]. rewrite Hvp.
    cbn [mbind option_bind].
    destruct (decide _) as [_|_]; [|by exists items].
    rewrite (swap_nat items i ((i - 1) / 2) vi vp Hvi Hvp).
    cbn [mbind option_bind].
    destruct (IH (<[((i - 1) / 2)%nat := vi]> (<[i := vp]> items)) ((i - 1) / 2)%nat)
      as (items' & E & P).
    + rewrite !length_insert. lia.
    + lia.
    + exists items'. split; [exact E|]. rewrite P.
      apply Permutation_insert_swap; assumption.
Qed.

Lemma push_perm (items : list PQItem) (item : PQItem) :
  exists items', MinHeap.push items item = Some items' /\ items' ≡ₚ item :: items.
Proof.
  unfold MinHeap.push, MinHeap._bubble_up.
  rewrite length_app. cbn [length].
  replace (Z.of_nat (length items + 1) - 1) with (Z.of_nat (length items)) by lia.
  rewrite Nat2Z.id.
  destruct (bubble_up_loop_perm (length items) (items ++ [item]) (length items))
    as (items' & E & P).
  - rewrite length_app. simpl. lia.
  - lia.
  - exists items'. split; [exact E|]. rewrite P.
    by rewrite Permutation_app_comm.
Qed.

Lemma sink_down_step_indices (items : list PQItem) (i : nat) :
  (i < length items)%nat ->
  exists (sm : nat) (vs : PQItem),
    (if decide (2 * Z.of_nat i + 1 < Z.of_nat (length items)) then
        item_l ← Py.get items (2 * Z.of_nat i + 1);
        item_s ← Py.get items (Z.of_nat i);
        Some (if decide (priority item_l < priority item_s)
              then 2 * Z.of_nat i + 1 else Z.of_nat i)
      else Some (Z.of_nat i)) ≫=
    (fun smallest =>
       if decide (2 * Z.of_nat i + 2 < Z.of_nat (length items)) then
         item_r ← Py.get items (2 * Z.of_nat i + 2);
         item_s ← Py.get items smallest;
         Some (if decide (priority item_r < priority item_s)
               then 2 * Z.of_nat i + 2 else smallest)
       else Some smallest) = Some (Z.of_nat sm) /\
    items !! sm = Some vs /\
    (sm = i \/ sm = (2 * i + 1)%nat \/ sm = (2 * i + 2)%nat) /\
    (forall v, items !! i = Some v -> priority vs <= priority v) /\
    (forall v, items !! (2 * i + 1)%nat = Some v -> priority vs <= priority v) /\
    (forall v, items !! (2 * i + 2)%nat = Some v -> priority vs <= priority v) /\
    (sm <> i -> forall v, items !! i = Some v -> priority vs < priority v).
Proof.
  intros Hi.
  destruct (lookup_lt_is_Some_2 items i Hi) as [vi Hvi].
  replace (2 * Z.of_nat i + 1) with (Z.of_nat (2 * i + 1)) by lia.
  replace (2 * Z.of_nat i + 2) with (Z.of_nat (2 * i + 2)) by lia.
  destruct (decide (Z.of_nat (2 * i + 1) < Z.of_nat (length items))) as [Hl|Hl].
  - destruct (lookup_lt_is_Some_2 items (2 * i + 1)) as [vl Hvl]; [lia|].
    rewrite !py_get_nat, Hvl. cbn [mbind option_bind].
    rewrite Hvi. cbn [mbind option_bind].
    destruct (decide (Z.of_nat (2 * i + 2) < Z.of_nat (length items))) as [Hr|Hr].
    + destruct (lookup_lt_is_Some_2 items (2 * i + 2)) as [vr Hvr]; [lia|].
      rewrite Hvr. cbn [mbind option_bind].
      destruct (decide (priority vl < priority vi)) as [L|L].
      * rewrite py_get_nat, Hvl. cbn [mbind option_bind].
        destruct (decide (priority vr < priority vl)) as [Rr|Rr].
        -- exists (2 * i + 2)%nat, vr. split; [reflexivity|]. split; [done|].
           split; [lia|].
           repeat split; intros; simplify_eq; lia.
        -- exists (2 * i + 1)%nat, vl. split; [reflexivity|]. split; [done|].
           split; [lia|].
           repeat split; intros; simplify_eq; lia.
      * rewrite py_get_nat, Hvi. cbn [mbind option_bind].
        destruct (decide (priority vr < priority vi)) as [Rr|Rr].
        -- exists (2 * i + 2)%nat, vr. split; [reflexivity|]. split; [done|].
           split; [lia|].
           repeat split; intros; simplify_eq; lia.
        -- exists i, vi. split; [reflexivity|]. split; [done|].
           split; [lia|].
           repeat split; intros; simplify_eq; lia.
    + assert (Nr : items !! (2 * i + 2)%nat = None) by (apply lookup_ge_None; lia).
      destruct (decide (priority vl < priority vi)) as [L|L].
      * exists (2 * i + 1)%nat, vl. split; [reflexivity|]. split; [done|].
        split; [lia|].
        repeat split; intros; simplify_eq; lia.
      * exists i, vi. split; [reflexivity|]. split; [done|].
        split; [lia|].
        repeat split; intros; simplify_eq; lia.
  - assert (Nl : items !! (2 * i + 1)%nat = None) by (apply lookup_ge_None; lia).
    assert (Nr : items !! (2 * i + 2)%nat = None) by (apply lookup_ge_None; lia).
    cbn [mbind option_bind].
    destruct (decide (Z.of_nat (2 * i + 2) < Z.of_nat (length items))) as [Hr|Hr]; [lia|].
    exists i, vi. split; [reflexivity|]. split; [done|].
    split; [lia|].
    repeat split; intros; simplify_eq; lia.
Qed.

(** One iteration of [_sink_down]: the position [sm] chosen holds a
    smallest priority among [i] and its children. *)
Lemma sink_down_loop_unfold (fuel : nat) (items : list PQItem) (i : nat) :
  (i < length items)%nat ->
  exists (sm : nat) (vs : PQItem),
    MinHeap._sink_down_loop (S fuel) (Z.of_nat (length items)) items (Z.of_nat i)
    = (if decide (sm <> i) then
         items0 ← MinHeap.swap items (Z.of_nat i) (Z.of_nat sm);
         MinHeap._sink_down_loop fuel (Z.of_nat (length items)) items0 (Z.of_nat sm)
       else Some items) /\
    items !! sm = Some vs /\
    (sm = i \/ sm = (2 * i + 1)%nat \/ sm = (2 * i + 2)%nat) /\
    (forall v, items !! i = Some v -> priority vs <= priority v) /\
    (forall v, items !! (2 * i + 1)%nat = Some v -> priority vs <= priority v) /\
    (forall v, items !! (2 * i + 2)%nat = Some v -> priority vs <= priority v) /\
    (sm <> i -> forall v, items !! i = Some v -> priority vs < priority v).
Proof.
  intros Hi.
  destruct (sink_down_step_indices items i Hi) as (sm & vs & E & Hs & Hrest).
  exists sm, vs. split; [|split; [exact Hs|exact Hrest]].
  cbn [MinHeap._sink_down_loop]. cbv zeta.
  match goal with |- (?A ≫= _) = _ => destruct A as [s1|] eqn:EA end.
  2:{ cbn [mbind option_bind] in E. discriminate E. }
  cbn [mbind option_bind] in E |- *. rewrite E. cbn [mbind option_bind].
  destruct (decide (Z.of_nat sm <> Z.of_nat i)), (decide (sm <> i));
    try reflexivity; lia.
Qed.

Lemma sink_down_loop_perm (fuel : nat) :
  forall (items : list PQItem) (i : nat),
    (i < length items)%nat -> (length items - i <= fuel)%nat ->
    exists items',
      MinHeap._sink_down_loop fuel (Z.of_nat (length items)) items (Z.of_nat i)
        = Some items' /\
      items' ≡ₚ items.
Proof.
  induction fuel as [|fuel IH]; intros items i Hi Hf; [lia|].
  destruct (sink_down_loop_unfold fuel items i Hi)
    as (sm & vs & E & Hs & Hc & _).
  rewrite E. destruct (decide (sm <> i)) as [Hne|_]; [|by exists items].
  destruct (lookup_lt_is_Some_2 items i Hi) as [vi Hvi].
  rewrite (swap_nat items i sm vi vs Hvi Hs). cbn [mbind option_bind].
  pose proof (lookup_lt_Some _ _ _ Hs) as Lsm.
  destruct (IH (<[sm := vi]> (<[i := vs]> items)) sm) as (items' & E' & P).
  - rewrite !length_insert. lia.
  - rewrite !length_insert. lia.
  - rewrite !length_insert in E'. exists items'. split; [exact E'|].
    rewrite P. apply Permutation_insert_swap; assumption.
Qed.

Lemma pop_perm (items : list PQItem) :
  items <> [] ->
  exists top rest, MinHeap.pop items = Some (Some top, rest) /\
    head items = Some top /\ items ≡ₚ top :: rest.
Proof.
  intros Hne. unfold MinHeap.pop.
  destruct (decide (length items = 0%nat)) as [L0|_].
  { destruct items; [done|discriminate]. }
  destruct items as [|top items] using rev_ind; [done|]. clear IHitems.
  rename top into last.
  assert (Hlast : Py.get (items ++ [last]) (-1) = Some last).
  { unfold Py.get. destruct (decide (0 <= -1)); [lia|].
    rewrite length_app. cbn [length].
    destruct (decide _) as [_|N]; [|lia].
    replace (Z.to_nat (Z.of_nat (length items + 1) + -1)) with (length items) by lia.
    by rewrite lookup_app_r, Nat.sub_diag by lia. }
  rewrite Hlast.
  assert (Htake : take (length (items ++ [last]) - 1) (items ++ [last]) = items).
  { rewrite length_app. cbn [length].
    replace (length items + 1 - 1)%nat with (length items) by lia.
    by rewrite take_app_length. }
  rewrite Htake.
  change 0 with (Z.of_nat 0). rewrite py_get_nat.
  destruct items as [|top items].
  - cbn. exists last, []. done.
  - cbn [app lookup list_lookup mbind option_bind length].
    destruct (decide _) as [_|N]; [|lia].
    rewrite py_set_nat by (simpl; lia). cbn [mbind option_bind insert list_insert].
    unfold MinHeap._sink_down.
    destruct (sink_down_loop_perm (S (length (last :: items))) (last :: items) 0)
      as (rest & E & P).
    + simpl. lia.
    + lia.
    + rewrite E. cbn [mbind option_bind].
      exists top, rest. split; [reflexivity|]. split; [reflexivity|].
      rewrite P. rewrite (Permutation_app_comm items [last]). reflexivity.
Qed.

Lemma swapped_lookup (items : list PQItem) (i p : nat) (vi vp : PQItem) (x : nat) :
  items !! i = Some vi -> items !! p = Some vp -> i <> p ->
  <[p := vi]> (<[i := vp]> items) !! x
  = if decide (x = p) then Some vi
    else if decide (x = i) then Some vp else items !! x.
Proof.
  intros Hi Hp Hne.
  pose proof (lookup_lt_Some _ _ _ Hi). pose proof (lookup_lt_Some _ _ _ Hp).
  destruct (decide (x = p)) as [->|N1].
  - apply list_lookup_insert_eq. by rewrite length_insert.
  - rewrite list_lookup_insert_ne by done.
    destruct (decide (x = i)) as [->|N2].
    + by apply list_lookup_insert_eq.
    + by rewrite list_lookup_insert_ne.
Qed.

Lemma child_parent (k j : nat) : child_of k j -> j = ((k - 1) / 2)%nat /\ (j < k)%nat.
Proof. unfold child_of. intros [->| ->]; split; try lia.
  - replace (2 * j + 1 - 1)%nat with (j * 2)%nat by lia. by rewrite Nat.div_mul.
  - replace (2 * j + 2 - 1)%nat with (1 + j * 2)%nat by lia.
    rewrite Nat.div_add by lia. reflexivity.
Qed.

Lemma bubble_up_loop_ordered (fuel : nat) :
  forall (items items' : list PQItem) (i : nat),
    (i < length items)%nat -> (i <= fuel)%nat -> ordered_but_up items i ->
    MinHeap._bubble_up_loop fuel items (Z.of_nat i) = Some items' ->
    heap_ordered items'.
Proof.
  induction fuel as [|fuel IH]; intros items items' i Hi Hf [O1 O2].
  - assert (i = 0)%nat as -> by lia. simpl. intros [= <-].
    intros j k a b Hc. apply O1; [exact Hc|].
    apply child_parent in Hc. lia.
  - cbn [MinHeap._bubble_up_loop].
    destruct (decide (Z.of_nat i > 0)) as [Hpos|Hz].
    2:{ intros [= <-]. intros j k a b Hc. apply O1; [exact Hc|].
        apply child_parent in Hc. lia. }
    rewrite parent_nat by lia.
    pose proof (parent_lt i ltac:(lia)) as Hp.
    set (p := ((i - 1) / 2)%nat) in *.
    destruct (lookup_lt_is_Some_2 items i Hi) as [vi Hvi].
    destruct (lookup_lt_is_Some_2 items p) as [vp Hvp]; [lia|].
    rewrite !py_get_nat, Hvi. cbn [mbind option_bind]. rewrite Hvp.
    cbn [mbind option_bind].
    destruct (decide (priority vi < priority vp)) as [Hlt|Hge].
    + rewrite (swap_nat items i p vi vp Hvi Hvp). cbn [mbind option_bind].
      apply IH; [rewrite !length_insert; lia|lia|].
      assert (Hne : i <> p) by lia.
      split.
      * intros j k a b Hc Hk.
        rewrite !(swapped_lookup items i p vi vp _ Hvi Hvp Hne).
        pose proof (child_parent k j Hc) as [Hj Hjk].
        destruct (decide (k = p)) as [->|_]; [done|].
        destruct (decide (j = p)) as [->|Njp].
        -- intros [= <-]. destruct (decide (k = i)) as [->|Nki].
           ++ intros [= <-]. lia.
           ++ intros Hb. pose proof (O1 p k vp b Hc Nki Hvp Hb). lia.
        -- destruct (decide (j = i)) as [->|Nji].
           ++ intros [= <-]. destruct (decide (k = i)) as [->|Nki]; [lia|].
              intros Hb. apply (O2 k vp b); [lia|exact Hc|exact Hvp|exact Hb].
           ++ intros Ha. destruct (decide (k = i)) as [->|Nki].
              ** exfalso. apply Njp. unfold p. exact Hj.
              ** intros Hb. by apply (O1 j k a b).
      * intros k a b Hp0 Hc.
        rewrite !(swapped_lookup items i p vi vp _ Hvi Hvp Hne).
        pose proof (child_parent k p Hc) as [Hj Hjk].
        pose proof (parent_lt p Hp0) as Hg.
        destruct (decide (((p - 1) / 2)%nat = p)) as [Eg|_]; [lia|].
        destruct (decide (((p - 1) / 2)%nat = i)) as [Eg|_]; [lia|].
        intros Ha.
        assert (Hgp : priority a <= priority vp).
        { apply (O1 ((p - 1) / 2)%nat p a vp); [|lia|exact Ha|exact Hvp].
          unfold child_of.
          pose proof (Nat.div_mod_eq (p - 1) 2) as DM.
          pose proof (Nat.mod_upper_bound (p - 1) 2 ltac:(lia)) as MB. lia. }
        destruct (decide (k = p)) as [->|_]; [lia|].
        destruct (decide (k = i)) as [->|Nki].
        -- intros [= <-]. exact Hgp.
        -- intros Hb. pose proof (O1 p k vp b Hc Nki Hvp Hb). lia.
    + intros [= <-]. intros j k a b Hc Ha Hb.
      destruct (decide (k = i)) as [->|Nki].
      * pose proof (child_parent i j Hc) as [Hj _]. fold p in Hj. subst j.
        simplify_eq. lia.
      * by apply (O1 j k a b).
Qed.

Lemma sink_down_loop_ordered (fuel : nat) :
  forall (items items' : list PQItem) (i : nat),
    (i < length items)%nat -> (length items - i <= fuel)%nat ->
    ordered_but_down items i ->
    MinHeap._sink_down_loop fuel (Z.of_nat (length items)) items (Z.of_nat i)
      = Some items' ->
    heap_ordered items'.
Proof.
  induction fuel as [|fuel IH]; intros items items' i Hi Hf [O1 O2]; [lia|].
  destruct (sink_down_loop_unfold fuel items i Hi)
    as (sm & vs & E & Hs & Hc & Pi & Pl & Pr & Plt).
  rewrite E. clear E.
  destruct (lookup_lt_is_Some_2 items i Hi) as [vi Hvi].
  destruct (decide (sm <> i)) as [Hne|Heq].
  - rewrite (swap_nat items i sm vi vs Hvi Hs). cbn [mbind option_bind].
    pose proof (lookup_lt_Some _ _ _ Hs) as Lsm.
    assert (Hchild : child_of sm i) by (unfold child_of; lia).
    intros Hloop.
    apply (IH (<[sm := vi]> (<[i := vs]> items)) items' sm);
      [rewrite !length_insert; lia|rewrite !length_insert; lia| |
       by rewrite !length_insert].
    clear Hloop. split.
    + intros j k a b Hck Hj.
      rewrite !(swapped_lookup items i sm vi vs _ Hvi Hs (not_eq_sym Hne)).
      pose proof (child_parent k j Hck) as [Hjp Hjk].
      destruct (decide (j = sm)) as [->|_]; [done|].
      destruct (decide (j = i)) as [->|Nji].
      * intros [= <-]. destruct (decide (k = sm)) as [->|Nks].
        -- intros [= <-]. pose proof (Plt Hne vi Hvi). lia.
        -- destruct (decide (k = i)) as [->|_]; [lia|].
           intros Hb. destruct Hck as [->| ->]; [by apply Pl|by apply Pr].
      * intros Ha. destruct (decide (k = sm)) as [->|Nks].
        -- exfalso. apply Nji. pose proof (child_parent sm i Hchild) as [Hi' _]. lia.
        -- destruct (decide (k = i)) as [->|Nki].
           ++ intros [= <-].
              apply (O2 sm a vs); [lia|exact Hchild| |exact Hs].
              by rewrite <- Hjp.
           ++ intros Hb. by apply (O1 j k a b).
    + intros k a b _ Hck.
      rewrite !(swapped_lookup items i sm vi vs _ Hvi Hs (not_eq_sym Hne)).
      pose proof (child_parent sm i Hchild) as [Hi' _]. rewrite <- Hi'.
      pose proof (child_parent k sm Hck) as [_ Hlt].
      destruct (decide (i = sm)) as [->|_]; [done|].
      destruct (decide (i = i)) as [_|N]; [|done].
      intros [= <-].
      destruct (decide (k = sm)) as [->|_]; [lia|].
      destruct (decide (k = i)) as [->|_]; [lia|].
      intros Hb. by apply (O1 sm k vs b).
  - assert (sm = i) as -> by (destruct (decide (sm = i)); [done|contradiction]).
    intros [= <-]. simplify_eq.
    intros j k a b Hck Ha Hb.
    destruct (decide (j = i)) as [->|Nji].
    + simplify_eq. destruct Hck as [->| ->]; [by apply Pl|by apply Pr].
    + by apply (O1 j k a b).
Qed.

(** In an ordered queue the first item has the smallest priority. *)
Lemma heap_ordered_min (items : list PQItem) (top : PQItem) :
  heap_ordered items -> items !! 0%nat = Some top ->
  forall x, x ∈ items -> priority top <= priority x.
Proof.
  intros HO Htop x Hx. apply list_elem_of_lookup in Hx as [k Hk].
  revert x Hk. induction (lt_wf k) as [k _ IH]. intros x Hk.
  destruct (decide (k = 0)%nat) as [->|Hpos].
  - simplify_eq. lia.
  - pose proof (parent_lt k ltac:(lia)) as Hp.
    destruct (lookup_lt_is_Some_2 items ((k - 1) / 2)) as [p Hpp].
    { apply lookup_lt_Some in Hk. lia. }
    pose proof (IH _ Hp p Hpp) as Hle.
    assert (priority p <= priority x); [|lia].
    apply (HO ((k - 1) / 2)%nat k p x); [|exact Hpp|exact Hk].
    pose proof (Nat.div_mod_eq (k - 1) 2) as DM.
    pose proof (Nat.mod_upper_bound (k - 1) 2 ltac:(lia)) as MB. lia.
Qed.

(** [push] keeps an ordered queue ordered. *)
Lemma push_ordered (items items' : list PQItem) (item : PQItem) :
  MinHeap.push items item = Some items' -> heap_ordered items -> heap_ordered items'.
Proof.
  intros E HO. unfold MinHeap.push, MinHeap._bubble_up in E.
  rewrite length_app in E. cbn [length] in E.
  replace (Z.of_nat (length items + 1) - 1) with (Z.of_nat (length items)) in E by lia.
  rewrite Nat2Z.id in E.
  apply (bubble_up_loop_ordered (length items) (items ++ [item]) items' (length items));
    [rewrite length_app; simpl; lia|lia| |exact E].
  split.
  - intros j k a b Hc Hk Ha Hb.
    pose proof (child_parent k j Hc) as [_ Hjk].
    assert (Lk : (k < length items)%nat).
    { apply lookup_lt_Some in Hb. rewrite length_app in Hb. simpl in Hb. lia. }
    rewrite lookup_app_l in Ha, Hb by lia. by apply (HO j k a b).
  - intros k a b _ Hc _ Hb.
    pose proof (child_parent k _ Hc) as [_ Hjk].
    apply lookup_lt_Some in Hb. rewrite length_app in Hb. simpl in Hb. lia.
Qed.

(** [pop] takes a smallest item from an ordered queue and leaves it
    ordered. *)
Lemma pop_ordered (items rest : list PQItem) (top : PQItem) :
  MinHeap.pop items = Some (Some top, rest) -> heap_ordered items ->
  heap_ordered rest /\ forall x, x ∈ items -> priority top <= priority x.
Proof.
  intros E HO.
  assert (Hne : items <> []) by (intros ->; discriminate E).
  destruct (pop_perm items Hne) as (top' & rest' & E' & Hh & _).
  rewrite E in E'. injection E' as <- <-.
  split.
  2:{ apply heap_ordered_min; [exact HO|]. by destruct items. }
  unfold MinHeap.pop in E.
  destruct (decide (length items = 0%nat)) as [L0|_].
  { destruct items; [done|discriminate]. }
  destruct items as [|last items] using rev_ind; [done|]. clear IHitems.
  assert (Htake : take (length (items ++ [last]) - 1) (items ++ [last]) = items).
  { rewrite length_app. cbn [length].
    replace (length items + 1 - 1)%nat with (length items) by lia.
    by rewrite take_app_length. }
  rewrite Htake in E.
  destruct (Py.get (items ++ [last]) 0) as [top'|]; [|discriminate].
  cbn [mbind option_bind] in E.
  destruct (Py.get (items ++ [last]) (-1)) as [last'|] eqn:El; [|discriminate].
  cbn [mbind option_bind] in E.
  assert (last' = last) as ->.
  { unfold Py.get in El. destruct (decide (0 <= -1)); [lia|].
    rewrite length_app in El. cbn [length] in El.
    destruct (decide _) as [_|N]; [|lia].
    replace (Z.to_nat (Z.of_nat (length items + 1) + -1)) with (length items) in El by lia.
    rewrite lookup_app_r, Nat.sub_diag in El by lia. by injection El. }
  destruct (decide (0 < length items)%nat) as [Lpos|Lz].
  2:{ injection E as _ <-. destruct items; [|simpl in Lz; lia].
      intros j k a b _ Ha. discriminate Ha. }
  destruct items as [|first items]; [simpl in Lpos; lia|].
  change 0 with (Z.of_nat 0) in E.
  rewrite py_set_nat in E by (simpl; lia).
  cbn [mbind option_bind insert list_insert] in E.
  unfold MinHeap._sink_down in E.
  destruct (MinHeap._sink_down_loop _ _ _ _) as [rest'|] eqn:Es; [|discriminate].
  cbn [mbind option_bind] in E. injection E as _ <-.
  apply (sink_down_loop_ordered (S (length (last :: items))) (last :: items) rest' 0%nat);
    [simpl; lia|lia| |exact Es].
  split.
  - intros j k a b Hc Hj Ha Hb.
    pose proof (child_parent k j Hc) as [_ Hjk].
    destruct j as [|j]; [done|]. destruct k as [|k]; [lia|].
    cbn [lookup list_lookup] in Ha, Hb.
    apply (HO (S j) (S k) a b Hc).
    + cbn [app lookup list_lookup]. apply lookup_app_l_Some. exact Ha.
    + cbn [app lookup list_lookup]. apply lookup_app_l_Some. exact Hb.
  - intros k a b H0. lia.
Qed.

(** [push] never raises: the queue it returns holds the items of the
    given queue and the new item, each as often as before, and it is
    ordered when the given queue is. *)
Theorem heap_push_spec (items : list PQItem) (item : PQItem) :
  exists items', MinHeap.push items item = Some items' /\
    items' ≡ₚ item :: items /\
    (heap_ordered items -> heap_ordered items').
Proof.
  destruct (push_perm items item) as (items' & E & P).
  exists items'. split; [exact E|]. split; [exact P|].
  by apply push_ordered with item.
Qed.

(** [pop] on a queue that is not empty never raises: it returns the
    first item and a queue of the remaining items, each as often as
    before.  When the given queue is ordered, the returned item has the
    smallest priority of all and the returned queue is ordered. *)
Theorem heap_pop_spec (items : list PQItem) :
  items <> [] ->
  exists top rest, MinHeap.pop items = Some (Some top, rest) /\
    head items = Some top /\
    items ≡ₚ top :: rest /\
    (heap_ordered items ->
     heap_ordered rest /\ forall x, x ∈ items -> priority top <= priority x).
Proof.
  intros Hne. destruct (pop_perm items Hne) as (top & rest & E & Hh & P).
  exists top, rest. split; [exact E|]. split; [exact Hh|]. split; [exact P|].
  by apply pop_ordered.
Qed.

Lemma heap_pop_spec_witness :
  let items := [mkPQItem (mkGridCoord 3 0) 1; mkPQItem (mkGridCoord 1 0) 3;
                mkPQItem (mkGridCoord 2 0) 4; mkPQItem (mkGridCoord 0 0) 5] in
  items <> [] /\
  exists top rest, MinHeap.pop items = Some (Some top, rest) /\
    head items = Some top /\ items ≡ₚ top :: rest.
Proof.
  intros items. assert (Hne : items <> []) by discriminate.
  split; [exact Hne|].
  destruct (heap_pop_spec items Hne) as (top & rest & E & Hh & P & _).
  exists top, rest. split; [exact E|]. split; [exact Hh|exact P].
Defined.

(** ** The search *)

Lemma key_coord_grid_key (c : GridCoord) : key_coord (grid_key c) = c.
Proof. by destruct c. Qed.

Lemma unit_path_snoc (l : list GridCoord) (p c : GridCoord) :
  unit_path l -> last l = Some p -> unit_step p c -> unit_path (l ++ [c]).
Proof.
  induction l as [|a l IH]; [discriminate|].
  intros U L S. destruct l as [|b l].
  - simpl in L. injection L as ->. simpl. auto.
  - destruct U as [U1 U2]. change (unit_step a b /\ unit_path ((b :: l) ++ [c])).
    split; [exact U1|]. apply IH; [exact U2| |exact S].
    exact L.
Qed.

Lemma reconstruct_path_none (fuel : nat) came (acc : list GridCoord) :
  reconstruct_path fuel came None acc = Some acc.
Proof. by destruct fuel. Qed.

Lemma reconstruct_sound grid from_coord to_coord st :
  search_inv grid from_coord to_coord st ->
  forall (fuel : nat) (c : GridCoord) (acc path : list GridCoord),
    is_Some (came_from st !! grid_key c) ->
    reconstruct_path fuel (came_from st) (Some c) acc = Some path ->
    exists chain, path = (chain ++ acc)%list /\
      head chain = Some from_coord /\ last chain = Some c /\
      unit_path chain /\
      forall x, x ∈ chain -> x = from_coord \/ passable grid to_coord x.
Proof.
  intros Inv. induction fuel as [|fuel IH]; intros c acc path [v Hv] R;
    [discriminate|].
  cbn [reconstruct_path] in R. rewrite Hv in R. cbn [mbind option_bind id] in R.
  destruct v as [p|].
  - destruct (inv_parent _ _ _ _ Inv _ _ Hv) as (U & Pa & cp & ck & Hcp & _ & _).
    rewrite key_coord_grid_key in U, Pa.
    assert (Hp : is_Some (came_from st !! grid_key p)).
    { apply (inv_dom _ _ _ _ Inv). by exists cp. }
    destruct (IH p (c :: acc) path Hp R) as (chain & E & Hh & Hl & UP & Hin).
    exists (chain ++ [c])%list. split; [by rewrite <- app_assoc|].
    split; [|split; [by rewrite last_snoc|split]].
    + destruct chain; [discriminate|exact Hh].
    + by apply unit_path_snoc with p.
    + intros x Hx. apply elem_of_app in Hx as [Hx|Hx]; [by apply Hin|].
      apply list_elem_of_singleton in Hx as ->. by right.
  - rewrite reconstruct_path_none in R. injection R as <-.
    exists [c]. split; [reflexivity|].
    assert (c = from_coord) as ->.
    { apply grid_key_inj. by apply (inv_root _ _ _ _ Inv). }
    repeat split; try done.
    intros x Hx. apply list_elem_of_singleton in Hx as ->. by left.
Qed.

Lemma move_dir_unit_step (c d : GridCoord) :
  d ∈ MOVE_DIRS -> unit_step c (mkGridCoord (gx c + gx d) (gy c + gy d)).
Proof.
  intros Hd. unfold MOVE_DIRS in Hd.
  repeat (apply elem_of_cons in Hd as [->|Hd]; [unfold unit_step; simpl; lia|]).
  by apply elem_of_nil in Hd.
Qed.

(** One relaxation keeps the invariant and the cost of the current cell. *)
Lemma relax_inv grid from_coord to_coord (cur d : GridCoord) (cc : Z)
    (st : SearchState) :
  d ∈ MOVE_DIRS ->
  search_inv grid from_coord to_coord st ->
  cost_so_far st !! grid_key cur = Some cc ->
  exists st', relax grid to_coord cur cc d st = Some st' /\
    search_inv grid from_coord to_coord st' /\
    cost_so_far st' !! grid_key cur = Some cc.
Proof.
  intros Hd Inv Hcc. unfold relax.
  set (next := mkGridCoord (gx cur + gx d) (gy cur + gy d)).
  pose proof (move_dir_unit_step cur d Hd) as U. fold next in U.
  assert (Hnc : grid_key next <> grid_key cur).
  { intros E. apply grid_key_inj in E. unfold unit_step in U. rewrite E in U. lia. }
  destruct (negb (_is_free_in_grid grid next) && negb (grid_coord_equals next to_coord))
    eqn:Hblock; [by exists st|].
  assert (Pa : passable grid to_coord next).
  { unfold passable. apply andb_false_iff in Hblock as [H|H].
    - left. by apply negb_false_iff.
    - right. apply negb_false_iff in H. by apply grid_coord_equals_true. }
  pose proof (inv_cost_nonneg _ _ _ _ Inv _ _ Hcc) as Hcc0.
  destruct (match cost_so_far st !! grid_key next with
            | Some existing => bool_decide (cc + 1 < existing)
            | None => true
            end) eqn:Hupd; [|by exists st].
  destruct (push_perm (pq st) (mkPQItem next (cc + 1 + heuristic next to_coord)))
    as (pq' & Epush & Pperm).
  rewrite Epush. cbn [mbind option_bind].
  eexists. split; [reflexivity|]. split.
  2:{ cbn [cost_so_far]. by rewrite lookup_insert_ne. }
  assert (Hnf : grid_key next <> grid_key from_coord).
  { intros E. rewrite E, (inv_start_cost _ _ _ _ Inv) in Hupd.
    apply bool_decide_eq_true in Hupd. lia. }
  constructor; cbn [pq cost_so_far came_from].
  - rewrite lookup_insert_ne by done. apply (inv_start_cost _ _ _ _ Inv).
  - rewrite lookup_insert_ne by done. apply (inv_start_from _ _ _ _ Inv).
  - intros k c. destruct (decide (grid_key next = k)) as [<-|Hk].
    + rewrite lookup_insert_eq. intros [= <-]. lia.
    + rewrite lookup_insert_ne by done. apply (inv_cost_nonneg _ _ _ _ Inv).
  - intros item Hi. rewrite Pperm in Hi. apply elem_of_cons in Hi as [->|Hi].
    + cbn [coord]. rewrite lookup_insert_eq. by eexists.
    + destruct (decide (grid_key next = grid_key (coord item))) as [<-|Hk].
      * rewrite lookup_insert_eq. by eexists.
      * rewrite lookup_insert_ne by done. by apply (inv_pq_cost _ _ _ _ Inv).
  - intros k. destruct (decide (grid_key next = k)) as [<-|Hk].
    + rewrite !lookup_insert_eq. split; intros _; by eexists.
    + rewrite !lookup_insert_ne by done. apply (inv_dom _ _ _ _ Inv).
  - intros k. destruct (decide (grid_key next = k)) as [<-|Hk].
    + rewrite lookup_insert_eq. discriminate.
    + rewrite lookup_insert_ne by done. apply (inv_root _ _ _ _ Inv).
  - intros k p. destruct (decide (grid_key next = k)) as [<-|Hk].
    + rewrite lookup_insert_eq. intros [= <-].
      rewrite key_coord_grid_key. split; [exact U|]. split; [exact Pa|].
      exists cc, (cc + 1). rewrite lookup_insert_ne by done.
      rewrite lookup_insert_eq. split; [exact Hcc|]. split; [reflexivity|lia].
    + rewrite lookup_insert_ne by done. intros Hk'.
      destruct (inv_parent _ _ _ _ Inv _ _ Hk') as (U' & Pa' & cp & ck & Hcp & Hck & Hlt).
      split; [exact U'|]. split; [exact Pa'|].
      rewrite (lookup_insert_ne _ _ k) by done.
      destruct (decide (grid_key next = grid_key p)) as [Ep|Np].
      * rewrite <- Ep, lookup_insert_eq. rewrite <- Ep in Hcp. rewrite Hcp in Hupd.
        apply bool_decide_eq_true in Hupd.
        exists (cc + 1), ck. split; [reflexivity|]. split; [exact Hck|lia].
      * rewrite lookup_insert_ne by done. by exists cp, ck.
Qed.

Lemma relax_all_inv grid from_coord to_coord (cur : GridCoord) (cc : Z) :
  forall (dirs : list GridCoord) (st : SearchState),
    (forall d, d ∈ dirs -> d ∈ MOVE_DIRS) ->
    search_inv grid from_coord to_coord st ->
    cost_so_far st !! grid_key cur = Some cc ->
    exists st', Py.for_each dirs (relax grid to_coord cur cc) st = Some st' /\
      search_inv grid from_coord to_coord st'.
Proof.
  induction dirs as [|d dirs IH]; intros st Hd Inv Hcc.
  - exists st. by split.
  - destruct (relax_inv grid from_coord to_coord cur d cc st) as (st1 & E & Inv1 & Hcc1);
      [apply Hd; left|exact Inv|exact Hcc|].
    cbn [Py.for_each]. rewrite E. cbn [mbind option_bind].
    apply IH; [|exact Inv1|exact Hcc1].
    intros d' Hd'. apply Hd. by right.
Qed.

Lemma get_path_loop_inv grid from_coord to_coord :
  forall (fuel : nat) (st : SearchState),
    search_inv grid from_coord to_coord st ->
    match get_path_loop fuel grid to_coord st with
    | Returns (Some path) => route grid from_coord to_coord path
    | Returns None => True
    | Raises => False
    | OutOfFuel => True
    end.
Proof.
  induction fuel as [|fuel IH]; intros st Inv; cbn [get_path_loop];
    destruct (decide (0 < length (pq st))%nat) as [Hlen|_]; try exact I.
  assert (Hne : pq st <> []) by (intros E; rewrite E in Hlen; simpl in Hlen; lia).
  destruct (pop_perm (pq st) Hne) as (top & rest & Epop & _ & Perm).
  rewrite Epop.
  assert (Htop : is_Some (cost_so_far st !! grid_key (coord top))).
  { apply (inv_pq_cost _ _ _ _ Inv). rewrite Perm. left. }
  destruct (grid_coord_equals (coord top) to_coord) eqn:Heq.
  - apply grid_coord_equals_true in Heq.
    destruct (reconstruct_path (S fuel) (came_from st) (Some (coord top)) [])
      as [path|] eqn:R; [|exact I].
    destruct (reconstruct_sound grid from_coord to_coord st Inv _ _ _ _
                (proj1 (inv_dom _ _ _ _ Inv _) Htop) R)
      as (chain & -> & Hh & Hl & UP & Hin).
    rewrite app_nil_r. unfold route. rewrite Heq in Hl. auto.
  - destruct Htop as [cc Hcc]. rewrite Hcc.
    destruct (relax_all_inv grid from_coord to_coord (coord top) cc MOVE_DIRS
                (mkSearchState rest (cost_so_far st) (came_from st)))
      as (st' & E & Inv').
    + auto.
    + destruct Inv as [I1 I2 I3 I4 I5 I6 I7].
      constructor; cbn [pq cost_so_far came_from]; auto.
      intros item Hi. apply I4. rewrite Perm. by right.
    + exact Hcc.
    + rewrite E. by apply IH.
Qed.

Lemma get_path_unfold (fuel : nat) grid (from_coord to_coord : GridCoord) :
  get_path fuel grid from_coord to_coord
  = get_path_loop fuel grid to_coord
      (mkSearchState [mkPQItem from_coord 0] {[ grid_key from_coord := 0 ]}
                     {[ grid_key from_coord := None ]}).
Proof. reflexivity. Qed.

Lemma search_inv_init grid (from_coord to_coord : GridCoord) :
  search_inv grid from_coord to_coord
    (mkSearchState [mkPQItem from_coord 0] {[ grid_key from_coord := 0 ]}
                   {[ grid_key from_coord := None ]}).
Proof.
  constructor; cbn [pq cost_so_far came_from].
  - apply lookup_singleton_eq.
  - apply lookup_singleton_eq.
  - intros k c Hk. apply lookup_singleton_Some in Hk as [_ <-]. lia.
  - intros item Hi. apply list_elem_of_singleton in Hi as ->. cbn [coord].
    rewrite lookup_singleton_eq. by eexists.
  - intros k. rewrite !lookup_singleton_is_Some. tauto.
  - intros k Hk. by apply lookup_singleton_Some in Hk as [<- _].
  - intros k p Hk. apply lookup_singleton_Some in Hk as [_ Hk]. discriminate Hk.
Qed.

(** Every path returned by [get_path] starts at the start cell, ends at
    the goal, proceeds by unit steps in the four directions, and, beyond
    its first cell, only visits cells that are unoccupied with non-negative
    coordinates, or the goal itself. *)
Theorem get_path_sound (fuel : nat) grid (from_coord to_coord : GridCoord)
    (path : list GridCoord) :
  get_path fuel grid from_coord to_coord = Returns (Some path) ->
  head path = Some from_coord /\ last path = Some to_coord /\
  unit_path path /\
  forall c, c ∈ path ->
    c = from_coord \/ c = to_coord \/ _is_free_in_grid grid c = true.
Proof.
  intros E. rewrite get_path_unfold in E.
  pose proof (get_path_loop_inv grid from_coord to_coord fuel _
                (search_inv_init grid from_coord to_coord)) as H.
  rewrite E in H. destruct H as (Hh & Hl & UP & Hin).
  repeat split; auto. intros c Hc. destruct (Hin c Hc) as [->|[F| ->]]; auto.
Qed.

Lemma get_path_sound_witness :
  let grid : gmap (Z * Z) NodeRef := {[ (1, 0) := 0%nat ]} in
  get_path 20 grid (mkGridCoord 0 0) (mkGridCoord 2 0)
    = Returns (Some [mkGridCoord 0 0; mkGridCoord 0 1; mkGridCoord 1 1;
                     mkGridCoord 2 1; mkGridCoord 2 0]) /\
  unit_path [mkGridCoord 0 0; mkGridCoord 0 1; mkGridCoord 1 1;
             mkGridCoord 2 1; mkGridCoord 2 0].
Proof.
  intros grid.
  assert (E : get_path 20 grid (mkGridCoord 0 0) (mkGridCoord 2 0)
    = Returns (Some [mkGridCoord 0 0; mkGridCoord 0 1; mkGridCoord 1 1;
                     mkGridCoord 2 1; mkGridCoord 2 0])) by (vm_compute; reflexivity).
  split; [exact E|].
  exact (proj1 (proj2 (proj2 (get_path_sound _ _ _ _ _ E)))).
Defined.

(** The search never raises: the queue operations stay within the
    queue, and every cell taken from the queue has a recorded cost. *)
Theorem get_path_never_raises (fuel : nat) grid (from_coord to_coord : GridCoord) :
  get_path fuel grid from_coord to_coord <> Raises.
Proof.
  intros E. rewrite get_path_unfold in E.
  pose proof (get_path_loop_inv grid from_coord to_coord fuel _
                (search_inv_init grid from_coord to_coord)) as H.
  by rewrite E in H.
Qed.

Lemma grid_coord_equals_refl (c : GridCoord) : grid_coord_equals c c = true.
Proof. unfold grid_coord_equals. by rewrite !bool_decide_eq_true_2. Qed.

(** C10.  A search from a cell to itself returns the one-cell path in
    its first iteration, whether or not the cell is occupied or has
    negative coordinates: the start cell is never tested. *)
Theorem get_path_same_cell (fuel : nat) grid (c : GridCoord) :
  (0 < fuel)%nat -> get_path fuel grid c c = Returns (Some [c]).
Proof.
  intros Hf. destruct fuel as [|fuel]; [lia|].
  rewrite get_path_unfold. cbn [get_path_loop pq length].
  destruct (decide (0 < 1)%nat) as [_|N]; [|lia].
  change (MinHeap.pop [mkPQItem c 0]) with (Some (Some (mkPQItem c 0), @nil PQItem)).
  cbn [coord]. rewrite grid_coord_equals_refl.
  cbn [reconstruct_path came_from]. rewrite lookup_singleton_eq.
  cbn [mbind option_bind id]. by rewrite reconstruct_path_none.
Qed.

Lemma get_path_same_cell_witness :
  let grid : gmap (Z * Z) NodeRef := {[ (1, 1) := 0%nat ]} in
  get_path 1 grid (mkGridCoord 1 1) (mkGridCoord 1 1)
    = Returns (Some [mkGridCoord 1 1]) /\
  get_path 1 grid (mkGridCoord (-2) 0) (mkGridCoord (-2) 0)
    = Returns (Some [mkGridCoord (-2) 0]).
Proof.
  intros grid. split; apply get_path_same_cell; lia.
Defined.

Lemma reconstruct_path_mono (fuel fuel' : nat) came :
  forall (c : option GridCoord) (acc path : list GridCoord),
    reconstruct_path fuel came c acc = Some path -> (fuel <= fuel')%nat ->
    reconstruct_path fuel' came c acc = Some path.
Proof.
  revert fuel'. induction fuel as [|fuel IH]; intros fuel' c acc path R Hf.
  - destruct c; [discriminate|]. by rewrite reconstruct_path_none in *.
  - destruct c as [c|]; [|by rewrite reconstruct_path_none in *].
    destruct fuel' as [|fuel']; [lia|].
    cbn [reconstruct_path] in *. apply IH; [exact R|lia].
Qed.

Lemma get_path_loop_mono grid to_coord :
  forall (fuel fuel' : nat) (st : SearchState) r,
    get_path_loop fuel grid to_coord st = Returns r -> (fuel <= fuel')%nat ->
    get_path_loop fuel' grid to_coord st = Returns r.
Proof.
  induction fuel as [|fuel IH]; intros fuel' st r E Hf.
  - cbn [get_path_loop] in E.
    destruct (decide (0 < length (pq st))%nat) as [L|L]; [discriminate|].
    destruct fuel'; cbn [get_path_loop];
      (destruct (decide (0 < length (pq st))%nat); [lia|exact E]).
  - destruct fuel' as [|fuel']; [lia|]. cbn [get_path_loop] in *.
    destruct (decide (0 < length (pq st))%nat) as [L|L]; [|exact E].
    destruct (MinHeap.pop (pq st)) as [[[top|] rest]|]; try discriminate.
    destruct (grid_coord_equals (coord top) to_coord).
    + destruct (reconstruct_path (S fuel) (came_from st) (Some (coord top)) [])
        as [path|] eqn:R; [|discriminate].
      by rewrite (reconstruct_path_mono (S fuel) (S fuel') _ _ _ _ R) by lia.
    + destruct (cost_so_far st !! grid_key (coord top)); [|discriminate].
      destruct (Py.for_each MOVE_DIRS _ _); [|discriminate].
      apply IH; [exact E|lia].
Qed.

(** A result of the search does not depend on the number of iterations
    it was given: once the search returns within some number, it returns
    the same with any larger one. *)
Theorem get_path_fuel_stable (fuel fuel' : nat) grid (from_coord to_coord : GridCoord)
    (r : option (list GridCoord)) :
  get_path fuel grid from_coord to_coord = Returns r -> (fuel <= fuel')%nat ->
  get_path fuel' grid from_coord to_coord = Returns r.
Proof.
  rewrite !get_path_unfold. apply get_path_loop_mono.
Qed.

Lemma get_path_fuel_stable_witness :
  get_path 7 ∅ (mkGridCoord 0 0) (mkGridCoord 1 0)
    = Returns (Some [mkGridCoord 0 0; mkGridCoord 1 0]).
Proof.
  apply (get_path_fuel_stable 3 7); [vm_compute; reflexivity|lia].
Defined.

(** ** Choosing between the two candidate routes *)

Lemma determine_path_dirs (fuel : nat) (graph : AsciiGraph) (edge edge' : AsciiEdge) :
  determine_path fuel graph edge = Returns edge' ->
  exists p po a ao from_gc to_gc,
    determine_start_and_end_dir (nodes graph) edge (graph_direction (config graph))
      = Some (p, po, a, ao) /\
    (n ← nodes graph !! from_node edge; grid_coord n) = Some from_gc /\
    (n ← nodes graph !! to_node edge; grid_coord n) = Some to_gc.
Proof.
  unfold determine_path.
  destruct (determine_start_and_end_dir _ _ _) as [[[[p po] a] ao]|]; [|discriminate].
  destruct (n ← nodes graph !! from_node edge; grid_coord n) as [from_gc|] eqn:Ef;
    [|discriminate].
  destruct (n ← nodes graph !! to_node edge; grid_coord n) as [to_gc|] eqn:Et;
    [|destruct (_ ≫= _); discriminate].
  intros _. by exists p, po, a, ao, from_gc, to_gc.
Qed.

(** Whenever [determine_path] returns, it has kept the nodes, the text
    and the label line of the edge, and the route it has set is of one of
    two kinds.  Either the preferred search found nothing: then the path
    is empty and the directions are the alternative ones.  Or the path is
    the simplification of a path that the search found between the two
    anchor cells given by the recorded start and end directions, which are
    the preferred or the alternative pair. *)
Theorem determine_path_route (fuel : nat) (graph : AsciiGraph) (edge edge' : AsciiEdge) :
  determine_path fuel graph edge = Returns edge' ->
  from_node edge' = from_node edge /\ to_node edge' = to_node edge /\
  text edge' = text edge /\ label_line edge' = label_line edge /\
  exists p po a ao from_gc to_gc,
    determine_start_and_end_dir (nodes graph) edge (graph_direction (config graph))
      = Some (p, po, a, ao) /\
    (n ← nodes graph !! from_node edge; grid_coord n) = Some from_gc /\
    (n ← nodes graph !! to_node edge; grid_coord n) = Some to_gc /\
    ((path edge' = [] /\ start_dir edge' = a /\ end_dir edge' = ao /\
      get_path fuel (grid graph) (grid_coord_direction from_gc p)
        (grid_coord_direction to_gc po) = Returns None)
     \/
     (((start_dir edge' = p /\ end_dir edge' = po) \/
       (start_dir edge' = a /\ end_dir edge' = ao)) /\
      exists found,
        get_path fuel (grid graph)
          (grid_coord_direction from_gc (start_dir edge'))
          (grid_coord_direction to_gc (end_dir edge')) = Returns (Some found) /\
        path edge' = merge_path found)).
Proof.
  intros E. destruct (determine_path_dirs fuel graph edge edge' E)
    as (p & po & a & ao & from_gc & to_gc & Ed & Ef & Et).
  unfold determine_path in E. rewrite Ed, Ef, Et in E.
  destruct (get_path fuel (grid graph) (grid_coord_direction from_gc p)
              (grid_coord_direction to_gc po)) as [[pp|]| |] eqn:Ep;
    try discriminate.
  2:{ injection E as <-. cbn. repeat split.
      exists p, po, a, ao, from_gc, to_gc. repeat split; auto. }
  destruct (get_path fuel (grid graph) (grid_coord_direction from_gc a)
              (grid_coord_direction to_gc ao)) as [[ap|]| |] eqn:Ea;
    try discriminate.
  - destruct (decide _) as [Hle|Hgt]; injection E as <-; cbn; repeat split;
      exists p, po, a, ao, from_gc, to_gc; repeat split; auto; right.
    + split; [by left|]. by exists pp.
    + split; [by right|]. by exists ap.
  - injection E as <-. cbn. repeat split.
    exists p, po, a, ao, from_gc, to_gc. repeat split; auto. right.
    split; [by left|]. by exists pp.
Qed.

(** C7.  When both searches find a path, the shorter of the two
    simplified paths is set, and the preferred one, with the preferred
    directions, when they are equally long. *)
Theorem determine_path_shorter (fuel : nat) (graph : AsciiGraph) (edge : AsciiEdge)
    (p po a ao : Direction) (from_gc to_gc : GridCoord) (pp ap : list GridCoord) :
  determine_start_and_end_dir (nodes graph) edge (graph_direction (config graph))
    = Some (p, po, a, ao) ->
  (n ← nodes graph !! from_node edge; grid_coord n) = Some from_gc ->
  (n ← nodes graph !! to_node edge; grid_coord n) = Some to_gc ->
  get_path fuel (grid graph) (grid_coord_direction from_gc p)
    (grid_coord_direction to_gc po) = Returns (Some pp) ->
  get_path fuel (grid graph) (grid_coord_direction from_gc a)
    (grid_coord_direction to_gc ao) = Returns (Some ap) ->
  exists edge', determine_path fuel graph edge = Returns edge' /\
    length (path edge')
      = Nat.min (length (merge_path pp)) (length (merge_path ap)) /\
    ((length (merge_path pp) <= length (merge_path ap))%nat ->
     path edge' = merge_path pp /\ start_dir edge' = p /\ end_dir edge' = po) /\
    ((length (merge_path ap) < length (merge_path pp))%nat ->
     path edge' = merge_path ap /\ start_dir edge' = a /\ end_dir edge' = ao).
Proof.
  intros Ed Ef Et Ep Ea. unfold determine_path. rewrite Ed, Ef, Et, Ep, Ea.
  destruct (decide _) as [Hle|Hgt]; eexists; (split; [reflexivity|]); cbn.
  - split; [lia|]. split; [auto|lia].
  - split; [lia|]. split; [lia|auto].
Qed.

(** When the preferred search finds no path, the edge is left with an
    empty path and the alternative directions; the alternative search is
    not run, so that this is so even where it would find a path. *)
Theorem determine_path_preferred_fails (fuel : nat) (graph : AsciiGraph)
    (edge : AsciiEdge) (p po a ao : Direction) (from_gc to_gc : GridCoord) :
  determine_start_and_end_dir (nodes graph) edge (graph_direction (config graph))
    = Some (p, po, a, ao) ->
  (n ← nodes graph !! from_node edge; grid_coord n) = Some from_gc ->
  (n ← nodes graph !! to_node edge; grid_coord n) = Some to_gc ->
  get_path fuel (grid graph) (grid_coord_direction from_gc p)
    (grid_coord_direction to_gc po) = Returns None ->
  exists edge', determine_path fuel graph edge = Returns edge' /\
    path edge' = [] /\ start_dir edge' = a /\ end_dir edge' = ao.
Proof.
  intros Ed Ef Et Ep. unfold determine_path. rewrite Ed, Ef, Et, Ep.
  eexists. split; [reflexivity|]. cbn. auto.
Qed.

Lemma determine_path_route_witness :
  let node x y := mkAsciiNode "n" "n" 0 (Some (mkGridCoord x y)) None None false in
  let graph :=
    mkAsciiGraph [node 0 0; node 4 4] [] []
      (reserve_block (reserve_block ∅ 0%nat (mkGridCoord 0 0)) 1%nat (mkGridCoord 4 4))
      ∅ ∅ [] (mkAsciiConfig false 5 5 1 TD) 0 0 in
  let edge := mkAsciiEdge 0%nat 1%nat "go" [] [] UpperLeft UpperLeft in
  let edge' := mkAsciiEdge 0%nat 1%nat "go"
                 [mkGridCoord 2 1; mkGridCoord 5 1; mkGridCoord 5 4] [] Right Up in
  determine_path 100 graph edge = Returns edge' /\
  text edge' = text edge.
Proof.
  intros node graph edge edge'.
  assert (E : determine_path 100 graph edge = Returns edge')
    by (vm_compute; reflexivity).
  split; [exact E|].
  exact (proj1 (proj2 (proj2 (determine_path_route 100 graph edge edge' E)))).
Defined.

Lemma determine_path_shorter_witness :
  let node x y := mkAsciiNode "n" "n" 0 (Some (mkGridCoord x y)) None None false in
  let graph :=
    mkAsciiGraph [node 0 0; node 4 4] [] []
      (reserve_block (reserve_block ∅ 0%nat (mkGridCoord 0 0)) 1%nat (mkGridCoord 4 4))
      ∅ ∅ [] (mkAsciiConfig false 5 5 1 TD) 0 0 in
  let edge := mkAsciiEdge 0%nat 1%nat "go" [] [] UpperLeft UpperLeft in
  exists edge', determine_path 100 graph edge = Returns edge' /\
    start_dir edge' = Right /\ end_dir edge' = Up /\
    path edge' = [mkGridCoord 2 1; mkGridCoord 5 1; mkGridCoord 5 4].
Proof.
  intros node graph edge.
  destruct (determine_path_shorter 100 graph edge Right Up Down Left
              (mkGridCoord 0 0) (mkGridCoord 4 4)
              [mkGridCoord 2 1; mkGridCoord 3 1; mkGridCoord 4 1; mkGridCoord 5 1;
               mkGridCoord 5 2; mkGridCoord 5 3; mkGridCoord 5 4]
              [mkGridCoord 1 2; mkGridCoord 1 3; mkGridCoord 1 4; mkGridCoord 1 5;
               mkGridCoord 2 5; mkGridCoord 3 5; mkGridCoord 4 5])
    as (edge' & E & _ & Hpref & _);
    [vm_compute; reflexivity..|].
  exists edge'. split; [exact E|].
  destruct Hpref as (Hp & Hs & He); [vm_compute; lia|].
  split; [exact Hs|]. split; [exact He|]. rewrite Hp. vm_compute. reflexivity.
Defined.

Lemma determine_path_preferred_fails_witness :
  let node x y := mkAsciiNode "n" "n" 0 (Some (mkGridCoord x y)) None None false in
  let grid :=
    reserve_block (reserve_block (reserve_block ∅ 0%nat (mkGridCoord 0 0))
                     1%nat (mkGridCoord 3 0)) 2%nat (mkGridCoord 0 4) in
  let graph :=
    mkAsciiGraph [node 0 0; node 3 0; node 0 4] [] [] grid
      ∅ ∅ [] (mkAsciiConfig false 5 5 1 TD) 0 0 in
  let edge := mkAsciiEdge 1%nat 2%nat "go" [] [] UpperLeft UpperLeft in
  get_path 100 grid (mkGridCoord 4 2) (mkGridCoord 2 5)
    = Returns (Some [mkGridCoord 4 2; mkGridCoord 4 3; mkGridCoord 3 3;
                     mkGridCoord 3 4; mkGridCoord 3 5; mkGridCoord 2 5]) /\
  exists edge', determine_path 100 graph edge = Returns edge' /\
    path edge' = [] /\ start_dir edge' = Down /\ end_dir edge' = Right.
Proof.
  intros node grid graph edge. split; [vm_compute; reflexivity|].
  apply (determine_path_preferred_fails 100 graph edge Left Up Down Right
           (mkGridCoord 3 0) (mkGridCoord 0 4)); vm_compute; reflexivity.
Defined.

Lemma get_path_never_raises_witness :
  get_path 5 ∅ (mkGridCoord 0 0) (mkGridCoord 9 9) <> Raises.
Proof. apply get_path_never_raises. Defined.

(** ** Reserving a block of the grid *)

Lemma reserve_block_lookup (grid : gmap (Z * Z) NodeRef) (node : NodeRef)
    (c : GridCoord) (k : Z * Z) :
  reserve_block grid node c !! k
  = if decide (in_block_at c k) then Some node else grid !! k.
Proof.
  unfold reserve_block. change (py_range 3) with [0; 1; 2].
  cbn [foldl]. unfold grid_key. cbn [gx gy].
  destruct k as [x y]. unfold in_block_at. cbn [fst snd].
  destruct (decide _) as [[Hx Hy]|N].
  - assert (x = gx c + 0 \/ x = gx c + 1 \/ x = gx c + 2) as Cx by lia.
    assert (y = gy c + 0 \/ y = gy c + 1 \/ y = gy c + 2) as Cy by lia.
    destruct Cx as [->|[->| ->]]; destruct Cy as [->|[->| ->]];
      repeat (first [ rewrite lookup_insert_eq; reflexivity
                    | rewrite lookup_insert_ne by (intros [=]; lia) ]).
  - repeat (rewrite lookup_insert_ne by (intros [=]; lia)). reflexivity.
Qed.

Lemma shifted_0 d c : shifted d c 0 = c.
Proof. destruct d, c; unfold shifted; cbn; f_equal; lia. Qed.

Lemma shifted_S d c (k : nat) :
  shifted d c (S k)
  = shifted d (match d with
               | LR => mkGridCoord (gx c) (gy c + 4)
               | TD => mkGridCoord (gx c + 4) (gy c)
               end) k.
Proof. destruct d; unfold shifted; cbn [gx gy]; f_equal; lia. Qed.

Lemma ahead_step_size (d : GraphDirection) (c : GridCoord)
    (grid : gmap (Z * Z) NodeRef) :
  is_Some (grid !! grid_key c) ->
  (size (filter (ahead d (shifted d c 1)) (dom grid))
   < size (filter (ahead d c) (dom grid)))%nat.
Proof.
  intros Hc. apply subset_size. apply elem_of_dom in Hc.
  apply elem_of_subset. split.
  - intros k Hk. apply elem_of_filter in Hk as [Hk Hd].
    apply elem_of_filter. split; [|exact Hd].
    destruct d; unfold ahead, shifted in *; cbn [gx gy] in *; lia.
  - intros Hall. specialize (Hall (grid_key c)).
    assert (Hin : grid_key c ∈ filter (ahead d c) (dom grid)).
    { apply elem_of_filter. split; [|exact Hc].
      destruct d; unfold ahead, grid_key; cbn; lia. }
    apply Hall in Hin. apply elem_of_filter in Hin as [Hk _].
    destruct d; unfold ahead, shifted, grid_key in Hk; cbn in Hk; lia.
Qed.

(** Among the positions tried there is a first unoccupied one, after at
    most as many occupied ones as the map has cells ahead. *)
Lemma first_free_shift (grid : gmap (Z * Z) NodeRef) (d : GraphDirection) :
  forall (n : nat) (requested : GridCoord),
    (size (filter (ahead d requested) (dom grid)) < n)%nat ->
    exists k : nat,
      (k <= size (filter (ahead d requested) (dom grid)))%nat /\
      (forall j, (j < k)%nat -> is_Some (grid !! grid_key (shifted d requested j))) /\
      grid !! grid_key (shifted d requested k) = None.
Proof.
  induction n as [|n IH]; intros requested Hn; [lia|].
  destruct (decide (is_Some (grid !! grid_key requested))) as [Hocc|Hfree].
  - pose proof (ahead_step_size d requested grid Hocc) as Hlt.
    destruct (IH (shifted d requested 1)) as (k & Hk & Hbefore & Hat); [lia|].
    assert (Hsh : forall j, shifted d (shifted d requested 1) j
                            = shifted d requested (S j)).
    { intros j. unfold shifted. destruct d; cbn [gx gy]; f_equal; lia. }
    rewrite Hsh in Hat.
    exists (S k). split; [lia|]. split; [|exact Hat].
    intros j Hj. destruct j as [|j]; [by rewrite shifted_0|].
    rewrite <- Hsh. apply Hbefore. lia.
  - exists 0%nat. rewrite shifted_0. split; [lia|]. split; [intros j Hj; lia|].
    by apply eq_None_not_Some.
Qed.

(** With the first unoccupied position [k] shifts away, the function
    returns when [k + 1] nested calls are allowed and raises otherwise. *)
Lemma reserve_spot_in_grid_shifts (graph : AsciiGraph) (node : NodeRef)
    (d : GraphDirection) :
  graph_direction (config graph) = d ->
  forall (k depth : nat) (requested : GridCoord),
    (forall j, (j < k)%nat ->
       is_Some (grid graph !! grid_key (shifted d requested j))) ->
    grid graph !! grid_key (shifted d requested k) = None ->
    reserve_spot_in_grid depth graph node requested
    = if decide (k < depth)%nat
      then Some (set_nodes
                   (set_grid graph
                      (reserve_block (grid graph) node (shifted d requested k)))
                   (alter (fun n => set_grid_coord n (shifted d requested k)) node
                      (nodes graph)),
                 shifted d requested k)
      else None.
Proof.
  intros Hd. induction k as [|k IH]; intros depth requested Hbefore Hat.
  - rewrite shifted_0 in *. destruct depth as [|depth]; [reflexivity|].
    cbn [reserve_spot_in_grid].
    destruct (decide (is_Some (grid graph !! grid_key requested))) as [Hocc|_].
    + rewrite Hat in Hocc. by destruct Hocc.
    + destruct (decide (0 < S depth)%nat); [reflexivity|lia].
  - destruct depth as [|depth]; [reflexivity|].
    cbn [reserve_spot_in_grid].
    assert (Hsh : forall j, shifted d (shifted d requested 1) j
                            = shifted d requested (S j)).
    { intros j. unfold shifted. destruct d; cbn [gx gy]; f_equal; lia. }
    destruct (decide (is_Some (grid graph !! grid_key requested))) as [_|Hfree].
    + assert (Hm : match graph_direction (config graph) with
                   | LR => reserve_spot_in_grid depth graph node
                             (mkGridCoord (gx requested) (gy requested + 4))
                   | TD => reserve_spot_in_grid depth graph node
                             (mkGridCoord (gx requested + 4) (gy requested))
                   end
                   = reserve_spot_in_grid depth graph node (shifted d requested 1)).
      { rewrite Hd. unfold shifted. destruct d; cbn [gx gy]; do 2 f_equal; lia. }
      rewrite Hm. rewrite (IH depth (shifted d requested 1)).
      * rewrite !Hsh.
        destruct (decide (k < depth)%nat), (decide (S k < S depth)%nat);
          try lia; reflexivity.
      * intros j Hj. rewrite Hsh. apply Hbefore. lia.
      * by rewrite Hsh.
    + exfalso. apply Hfree. rewrite <- (shifted_0 d requested). apply Hbefore. lia.
Qed.

(** The position [reserve_spot_in_grid] aims at is the first one, among
    the requested position and its shifts by multiples of four in the
    direction across the flow, whose top-left cell is unoccupied; it lies
    at most as many shifts away as the map has cells.  The function calls
    itself once per shift: when the recursion limit leaves room for more
    nested calls than there are shifts it returns that position, the nine
    cells of the block there are given to the node, whatever they held
    before, no other cell of the map is changed, and the node's grid
    coordinate is set to the position; otherwise it raises
    RecursionError. *)
Theorem reserve_spot_in_grid_first_free (depth : nat) (graph : AsciiGraph)
    (node : NodeRef) (requested : GridCoord) :
  let d := graph_direction (config graph) in
  exists k : nat,
    (k <= size (grid graph))%nat /\
    (forall j, (j < k)%nat ->
       is_Some (grid graph !! grid_key (shifted d requested j))) /\
    grid graph !! grid_key (shifted d requested k) = None /\
    ((k < depth)%nat ->
     exists graph' : AsciiGraph,
       reserve_spot_in_grid depth graph node requested
         = Some (graph', shifted d requested k) /\
       (forall key, grid graph' !! key
          = if decide (in_block_at (shifted d requested k) key) then Some node
            else grid graph !! key) /\
       nodes graph'
         = alter (fun n => set_grid_coord n (shifted d requested k)) node
             (nodes graph)) /\
    ((depth <= k)%nat -> reserve_spot_in_grid depth graph node requested = None).
Proof.
  intros d.
  assert (Hsz : (size (filter (ahead d requested) (dom (grid graph)))
                 <= size (grid graph))%nat).
  { rewrite <- size_dom. apply subseteq_size. intros x Hx.
    by apply elem_of_filter in Hx as [_ Hx]. }
  destruct (first_free_shift (grid graph) d (S (size (grid graph))) requested)
    as (k & Hk & Hbefore & Hat); [lia|].
  pose proof (reserve_spot_in_grid_shifts graph node d eq_refl k depth requested
                Hbefore Hat) as E.
  exists k. split; [lia|]. split; [exact Hbefore|]. split; [exact Hat|]. split.
  - intros Hlt. destruct (decide (k < depth)%nat); [|lia].
    eexists. split; [exact E|]. split; [|reflexivity].
    intros key. cbn [grid set_nodes set_grid]. apply reserve_block_lookup.
  - intros Hge. destruct (decide (k < depth)%nat); [lia|exact E].
Qed.

Lemma reserve_spot_in_grid_first_free_witness :
  let node x := mkAsciiNode "n" "n" 0 (Some (mkGridCoord x 0)) None None false in
  let graph :=
    mkAsciiGraph [node 0; node 4; mkAsciiNode "m" "m" 2 None None None false] [] []
      (reserve_block (reserve_block ∅ 0%nat (mkGridCoord 0 0)) 1%nat (mkGridCoord 4 0))
      ∅ ∅ [] (mkAsciiConfig false 5 5 1 TD) 0 0 in
  (exists graph', reserve_spot_in_grid 3 graph 2%nat (mkGridCoord 0 0)
                  = Some (graph', mkGridCoord 8 0)) /\
  reserve_spot_in_grid 2 graph 2%nat (mkGridCoord 0 0) = None.
Proof.
  intros node graph.
  assert (K : forall k : nat,
            (forall j, (j < k)%nat ->
               is_Some (grid graph !! grid_key (shifted TD (mkGridCoord 0 0) j))) ->
            grid graph !! grid_key (shifted TD (mkGridCoord 0 0) k) = None ->
            k = 2%nat).
  { intros k Hb Ha. destruct k as [|[|[|k]]]; [discriminate Ha..|reflexivity|].
    destruct (Hb 2%nat ltac:(lia)) as [v Hv]. discriminate Hv. }
  split.
  - destruct (reserve_spot_in_grid_first_free 3 graph 2%nat (mkGridCoord 0 0))
      as (k & _ & Hb & Ha & Hret & _).
    pose proof (K k Hb Ha) as ->.
    destruct (Hret ltac:(lia)) as (graph' & E & _). exists graph'. exact E.
  - destruct (reserve_spot_in_grid_first_free 2 graph 2%nat (mkGridCoord 0 0))
      as (k & _ & Hb & Ha & _ & Hraise).
    pose proof (K k Hb Ha) as ->. apply Hraise. lia.
Defined.

(** ** Widths and heights along a path *)

Lemma increase_grid_size_fold (px py : Z) (path : list GridCoord) :
  forall (cw rh : gmap Z Z),
    let r := foldl (fun '(column_width, row_height) c =>
               let column_width :=
                 if decide (is_Some (column_width !! gx c)) then column_width
                 else <[gx c := px `div` 2]> column_width in
               let row_height :=
                 if decide (is_Some (row_height !! gy c)) then row_height
                 else <[gy c := py `div` 2]> row_height in
               (column_width, row_height)) (cw, rh) path in
    cw ⊆ fst r /\ rh ⊆ snd r /\
    (forall c, c ∈ path -> is_Some (fst r !! gx c) /\ is_Some (snd r !! gy c)) /\
    (forall k v, fst r !! k = Some v ->
       cw !! k = Some v \/ (v = px `div` 2 /\ exists c, c ∈ path /\ gx c = k)) /\
    (forall k v, snd r !! k = Some v ->
       rh !! k = Some v \/ (v = py `div` 2 /\ exists c, c ∈ path /\ gy c = k)).
Proof.
  induction path as [|c path IH]; intros cw rh.
  - cbn. split; [done|]. split; [done|].
    split; [intros c0 Hc; by apply elem_of_nil in Hc|].
    split; intros k v H; by left.
  - cbn [foldl].
    set (cw' := if decide (is_Some (cw !! gx c)) then cw
                else <[gx c := px `div` 2]> cw).
    set (rh' := if decide (is_Some (rh !! gy c)) then rh
                else <[gy c := py `div` 2]> rh).
    assert (Hcw : cw ⊆ cw' /\ is_Some (cw' !! gx c) /\
                  forall k v, cw' !! k = Some v ->
                    cw !! k = Some v \/ (v = px `div` 2 /\ gx c = k)).
    { unfold cw'. destruct (decide (is_Some (cw !! gx c))) as [Y|N].
      - split; [done|]. split; [exact Y|]. auto.
      - split; [apply insert_subseteq; by apply eq_None_not_Some|].
        split; [rewrite lookup_insert_eq; by eexists|].
        intros k v. destruct (decide (gx c = k)) as [<-|Hk].
        + rewrite lookup_insert_eq. intros [= <-]. auto.
        + rewrite lookup_insert_ne by done. auto. }
    assert (Hrh : rh ⊆ rh' /\ is_Some (rh' !! gy c) /\
                  forall k v, rh' !! k = Some v ->
                    rh !! k = Some v \/ (v = py `div` 2 /\ gy c = k)).
    { unfold rh'. destruct (decide (is_Some (rh !! gy c))) as [Y|N].
      - split; [done|]. split; [exact Y|]. auto.
      - split; [apply insert_subseteq; by apply eq_None_not_Some|].
        split; [rewrite lookup_insert_eq; by eexists|].
        intros k v. destruct (decide (gy c = k)) as [<-|Hk].
        + rewrite lookup_insert_eq. intros [= <-]. auto.
        + rewrite lookup_insert_ne by done. auto. }
    destruct Hcw as (S1 & I1 & O1). destruct Hrh as (S2 & I2 & O2).
    destruct (IH cw' rh') as (Sc & Sr & Hin & Hc & Hr).
    cbv zeta in Sc, Sr, Hin, Hc, Hr. cbv zeta.
    split; [by trans cw'|]. split; [by trans rh'|]. split; [|split].
    + intros c' Hc'. apply elem_of_cons in Hc' as [->|Hc']; [|by apply Hin].
      split.
      * destruct I1 as [v Hv]. exists v. by apply (lookup_weaken _ _ _ _ Hv).
      * destruct I2 as [v Hv]. exists v. by apply (lookup_weaken _ _ _ _ Hv).
    + intros k v Hk. destruct (Hc k v Hk) as [H|(-> & c' & Hc' & <-)].
      * destruct (O1 k v H) as [?|[-> <-]]; [by left|].
        right. split; [done|]. exists c. split; [left|done].
      * right. split; [done|]. exists c'. split; [by right|done].
    + intros k v Hk. destruct (Hr k v Hk) as [H|(-> & c' & Hc' & <-)].
      * destruct (O2 k v H) as [?|[-> <-]]; [by left|].
        right. split; [done|]. exists c. split; [left|done].
      * right. split; [done|]. exists c'. split; [by right|done].
Qed.

(** After [increase_grid_size_for_path] every column and every row that
    the path passes through has a width, respectively a height.  The
    entries that were there are kept as they were, and each new entry is
    half of the padding, rounded down, for a column or a row of the
    path. *)
Theorem increase_grid_size_for_path_spec (graph : AsciiGraph) (path : list GridCoord) :
  let '(cw, rh) := increase_grid_size_for_path graph path in
  column_width graph ⊆ cw /\ row_height graph ⊆ rh /\
  (forall c, c ∈ path -> is_Some (cw !! gx c) /\ is_Some (rh !! gy c)) /\
  (forall k v, cw !! k = Some v ->
     column_width graph !! k = Some v \/
     (v = padding_x (config graph) `div` 2 /\ exists c, c ∈ path /\ gx c = k)) /\
  (forall k v, rh !! k = Some v ->
     row_height graph !! k = Some v \/
     (v = padding_y (config graph) `div` 2 /\ exists c, c ∈ path /\ gy c = k)).
Proof.
  pose proof (increase_grid_size_fold (padding_x (config graph))
                (padding_y (config graph)) path (column_width graph)
                (row_height graph)) as H.
  cbv zeta in H. unfold increase_grid_size_for_path.
  destruct (foldl _ _ path) as [cw rh]. exact H.
Qed.

(** ** Shifting the drawing for the subgraphs *)

Lemma fold_min_x_le (l : list AsciiSubgraph) (m : Z) :
  foldl (fun m sg => Z.min m (min_x sg)) m l <= m /\
  forall sg, sg ∈ l -> foldl (fun m sg => Z.min m (min_x sg)) m l <= min_x sg.
Proof.
  revert m. induction l as [|a l IH]; intros m; cbn [foldl].
  - split; [lia|]. intros sg H. by apply elem_of_nil in H.
  - destruct (IH (Z.min m (min_x a))) as [H1 H2]. split; [lia|].
    intros sg H. apply elem_of_cons in H as [->|H]; [lia|by apply H2].
Qed.

Lemma fold_min_y_le (l : list AsciiSubgraph) (m : Z) :
  foldl (fun m sg => Z.min m (min_y sg)) m l <= m /\
  forall sg, sg ∈ l -> foldl (fun m sg => Z.min m (min_y sg)) m l <= min_y sg.
Proof.
  revert m. induction l as [|a l IH]; intros m; cbn [foldl].
  - split; [lia|]. intros sg H. by apply elem_of_nil in H.
  - destruct (IH (Z.min m (min_y a))) as [H1 H2]. split; [lia|].
    intros sg H. apply elem_of_cons in H as [->|H]; [lia|by apply H2].
Qed.

Lemma fold_min_x_nonneg (l : list AsciiSubgraph) :
  (forall sg, sg ∈ l -> 0 <= min_x sg) ->
  foldl (fun m sg => Z.min m (min_x sg)) 0 l = 0.
Proof.
  induction l as [|a l IH]; intros H; cbn [foldl]; [reflexivity|].
  rewrite Z.min_l by (apply H; left). apply IH. intros sg Hs. apply H. by right.
Qed.

Lemma fold_min_y_nonneg (l : list AsciiSubgraph) :
  (forall sg, sg ∈ l -> 0 <= min_y sg) ->
  foldl (fun m sg => Z.min m (min_y sg)) 0 l = 0.
Proof.
  induction l as [|a l IH]; intros H; cbn [foldl]; [reflexivity|].
  rewrite Z.min_l by (apply H; left). apply IH. intros sg Hs. apply H. by right.
Qed.

Lemma shift_subgraph_0 (sg : AsciiSubgraph) : shift_subgraph 0 0 sg = sg.
Proof. destruct sg. unfold shift_subgraph. cbn. f_equal; lia. Qed.

Lemma shift_node_0 (n : AsciiNode) : shift_node 0 0 n = n.
Proof.
  destruct n as [? ? ? ? [[x y]|] ? ?]; unfold shift_node; cbn; [|reflexivity].
  do 3 f_equal; lia.
Qed.

(** [offset_drawing_for_subgraphs] moves all subgraphs and all drawn
    nodes by one and the same offset, which is not negative in either
    direction; afterwards no subgraph begins at a negative coordinate, and
    a second call changes nothing. *)
Theorem offset_drawing_for_subgraphs_nonneg (graph : AsciiGraph) :
  let graph' := offset_drawing_for_subgraphs graph in
  (exists off_x off_y, 0 <= off_x /\ 0 <= off_y /\
     subgraphs graph' = shift_subgraph off_x off_y <$> subgraphs graph /\
     nodes graph' = shift_node off_x off_y <$> nodes graph) /\
  (forall sg, sg ∈ subgraphs graph' -> 0 <= min_x sg /\ 0 <= min_y sg) /\
  offset_drawing_for_subgraphs graph' = graph'.
Proof.
  intros graph'. unfold graph', offset_drawing_for_subgraphs.
  pose proof (fold_min_x_le (subgraphs graph) 0) as [Hx0 Hx].
  pose proof (fold_min_y_le (subgraphs graph) 0) as [Hy0 Hy].
  set (mx := foldl (fun m sg => Z.min m (min_x sg)) 0 (subgraphs graph)) in *.
  set (my := foldl (fun m sg => Z.min m (min_y sg)) 0 (subgraphs graph)) in *.
  assert (Hid : (shift_subgraph 0 0 <$> subgraphs graph) = subgraphs graph /\
                (shift_node 0 0 <$> nodes graph) = nodes graph).
  { split.
    - rewrite <- (list_fmap_id (subgraphs graph)) at 2.
      apply list_fmap_ext. intros _ sg _. apply shift_subgraph_0.
    - rewrite <- (list_fmap_id (nodes graph)) at 2.
      apply list_fmap_ext. intros _ n _. apply shift_node_0. }
  destruct Hid as [Hid1 Hid2].
  destruct (decide (length (subgraphs graph) = 0%nat)) as [L0|Lpos].
  { split; [|split].
    - exists 0, 0. by rewrite Hid1, Hid2.
    - destruct (subgraphs graph); [|discriminate]. intros sg H.
      by apply elem_of_nil in H.
    - destruct (decide _); [reflexivity|contradiction]. }
  destruct (decide (- mx = 0 /\ - my = 0)) as [[Ex Ey]|Hoff].
  { split; [|split].
    - exists 0, 0. by rewrite Hid1, Hid2.
    - intros sg H. pose proof (Hx sg H). pose proof (Hy sg H). lia.
    - destruct (decide _) as [|_]; [contradiction|]. fold mx my.
      destruct (decide _) as [_|N]; [reflexivity|]. exfalso. apply N. lia. }
  cbn [subgraphs nodes].
  assert (Hnn : forall sg, sg ∈ shift_subgraph (- mx) (- my) <$> subgraphs graph ->
                  0 <= min_x sg /\ 0 <= min_y sg).
  { intros sg H. apply list_elem_of_fmap in H as (sg0 & -> & H0).
    pose proof (Hx sg0 H0). pose proof (Hy sg0 H0). cbn. lia. }
  split; [|split].
  - exists (- mx), (- my). repeat split; lia.
  - exact Hnn.
  - rewrite length_fmap. destruct (decide _) as [|_]; [contradiction|].
    rewrite (fold_min_x_nonneg _ (fun sg H => proj1 (Hnn sg H))).
    rewrite (fold_min_y_nonneg _ (fun sg H => proj2 (Hnn sg H))).
    destruct (decide _) as [_|N]; [reflexivity|]. exfalso. apply N. lia.
Qed.

(** ** More on path simplification *)

Lemma retained_sublist (rest : list GridCoord) :
  forall a b,
    sublist (retained a b rest) (b :: rest) /\
    last (retained a b rest) = last (b :: rest) /\
    (length (retained a b rest) <= S (length rest))%nat /\
    (length (retained a b rest) = S (length rest) -> straight_free (a :: b :: rest)).
Proof.
  induction rest as [|c rest IH]; intros a b.
  - cbn. repeat split; auto.
  - cbn [retained]. destruct (IH b c) as (Hs & Hl & Hlen & Hsf).
    destruct (same_step a b c) eqn:E.
    + split; [by apply sublist_cons|]. split; [|split].
      * rewrite Hl. reflexivity.
      * cbn [length] in *. lia.
      * cbn [length] in *. lia.
    + split; [by apply sublist_skip|]. split; [|split].
      * change (last (b :: c :: rest)) with (last (c :: rest)).
        rewrite <- Hl. destruct (retained b c rest) eqn:Er; [|reflexivity].
        symmetry in Hl. apply last_None in Hl. discriminate Hl.
      * cbn [length] in *. lia.
      * cbn [length] in *. intros H. split; [exact E|]. apply Hsf. lia.
Qed.

(** [merge_path] only removes points: what it returns is the given path
    with some points left out, in the same order, and the first and the
    last point are never among them. *)
Theorem merge_path_sublist (path : list GridCoord) :
  sublist (merge_path path) path /\
  head (merge_path path) = head path /\
  last (merge_path path) = last path /\
  (2 <= length path -> 2 <= length (merge_path path))%nat.
Proof.
  destruct path as [|a [|b rest]].
  - cbn. repeat split; auto.
  - cbn. repeat split; auto.
  - rewrite merge_path_retained.
    destruct (retained_sublist rest a b) as (Hs & Hl & _ & _).
    split; [by apply sublist_skip|]. split; [reflexivity|]. split.
    + destruct (retained a b rest) as [|q r] eqn:E.
      * symmetry in Hl. apply last_None in Hl. discriminate Hl.
      * change (last (q :: r) = last (b :: rest)). exact Hl.
    + intros _. destruct (retained a b rest) as [|q r] eqn:E.
      * symmetry in Hl. apply last_None in Hl. discriminate Hl.
      * cbn. lia.
Qed.

(** The paths that [merge_path] leaves as they are are exactly those
    without three points in a row on equal steps. *)
Theorem merge_path_fixed_iff (path : list GridCoord) :
  merge_path path = path <-> straight_free path.
Proof.
  split; [|apply merge_path_straight_free].
  destruct path as [|a [|b rest]]; [done..|].
  rewrite merge_path_retained. intros [= E].
  destruct (retained_sublist rest a b) as (_ & _ & _ & Hsf).
  apply Hsf. by rewrite E.
Qed.

Lemma unit_step_cases (a b : GridCoord) :
  unit_step a b ->
  (gx b - gx a = 1 /\ gy b - gy a = 0) \/
  (gx b - gx a = -1 /\ gy b - gy a = 0) \/
  (gx b - gx a = 0 /\ gy b - gy a = 1) \/
  (gx b - gx a = 0 /\ gy b - gy a = -1).
Proof. unfold unit_step. lia. Qed.

Lemma retained_segments (rest : list GridCoord) :
  forall (p0 p1 a : GridCoord) (k : Z),
    unit_step p0 p1 -> 1 <= k ->
    gx p1 - gx a = k * (gx p1 - gx p0) ->
    gy p1 - gy a = k * (gy p1 - gy p0) ->
    unit_path (p1 :: rest) ->
    axis_parallel (a :: retained p0 p1 rest) /\
    path_length (a :: retained p0 p1 rest) = k + path_length (p1 :: rest).
Proof.
  induction rest as [|p2 rest IH]; intros p0 p1 a k U Hk Hx Hy UP.
  - cbn [retained axis_parallel path_length]. unfold manhattan.
    destruct (unit_step_cases p0 p1 U) as [[A B]|[[A B]|[[A B]|[A B]]]];
      rewrite A, B in *; split; try lia; (split; [lia|exact I]).
  - destruct UP as [U2 UP]. cbn [retained].
    assert (M12 : manhattan p1 p2 = 1).
    { unfold manhattan, unit_step in *. lia. }
    destruct (same_step p0 p1 p2) eqn:Hs.
    + apply same_step_true in Hs as [Sx Sy].
      destruct (IH p1 p2 a (k + 1) U2 ltac:(lia) ltac:(lia) ltac:(lia) UP)
        as [AP PL].
      split; [exact AP|]. rewrite PL.
      change (path_length (p1 :: p2 :: rest))
        with (manhattan p1 p2 + path_length (p2 :: rest)). lia.
    + destruct (IH p1 p2 p1 1 U2 ltac:(lia) ltac:(lia) ltac:(lia) UP) as [AP PL].
      change (axis_parallel (a :: p1 :: retained p1 p2 rest))
        with ((gx a = gx p1 \/ gy a = gy p1) /\
              axis_parallel (p1 :: retained p1 p2 rest)).
      change (path_length (a :: p1 :: retained p1 p2 rest))
        with (manhattan a p1 + path_length (p1 :: retained p1 p2 rest)).
      change (path_length (p1 :: p2 :: rest))
        with (manhattan p1 p2 + path_length (p2 :: rest)).
      rewrite PL. unfold manhattan in *.
      destruct (unit_step_cases p0 p1 U) as [[A B]|[[A B]|[[A B]|[A B]]]];
        rewrite A, B in *; (split; [split; [lia|exact AP]|lia]).
Qed.

Lemma unit_path_length (path : list GridCoord) :
  unit_path path -> path <> [] ->
  path_length path = Z.of_nat (length path) - 1.
Proof.
  induction path as [|a path IH]; [done|]. intros U _.
  destruct path as [|b path]; [reflexivity|].
  destruct U as [U1 U2].
  change (path_length (a :: b :: path)) with (manhattan a b + path_length (b :: path)).
  rewrite IH by done. unfold manhattan, unit_step in *. cbn [length]. lia.
Qed.

(** On a path of unit steps [merge_path] keeps the way and its length:
    the segments between the points that are kept are horizontal or
    vertical, and their lengths add up to the number of steps of the given
    path. *)
Theorem merge_path_unit_segments (path : list GridCoord) :
  unit_path path -> path <> [] ->
  axis_parallel (merge_path path) /\
  path_length (merge_path path) = Z.of_nat (length path) - 1.
Proof.
  intros U Hne. rewrite <- (unit_path_length path U Hne).
  destruct path as [|p0 [|p1 rest]]; [done|by cbn|].
  rewrite merge_path_retained. destruct U as [U UP].
  destruct (retained_segments rest p0 p1 p0 1 U ltac:(lia) ltac:(lia) ltac:(lia) UP)
    as [AP PL].
  split; [exact AP|]. rewrite PL.
  change (path_length (p0 :: p1 :: rest))
    with (manhattan p0 p1 + path_length (p1 :: rest)).
  unfold manhattan, unit_step in *. lia.
Qed.

Lemma merge_path_unit_segments_witness :
  let path := [mkGridCoord 0 0; mkGridCoord 1 0; mkGridCoord 2 0;
               mkGridCoord 2 1; mkGridCoord 2 2] in
  unit_path path /\
  path_length (merge_path path) = 4.
Proof.
  intros path.
  assert (UP : unit_path path) by (repeat split; reflexivity).
  split; [exact UP|].
  exact (proj2 (merge_path_unit_segments path UP ltac:(discriminate))).
Defined.

Lemma merge_path_fixed_iff_witness :
  merge_path [mkGridCoord 0 0; mkGridCoord 2 0; mkGridCoord 2 2]
  = [mkGridCoord 0 0; mkGridCoord 2 0; mkGridCoord 2 2].
Proof.
  apply merge_path_fixed_iff. split; [reflexivity|exact I].
Defined.

(** ** Applying an overlay *)

Lemma for_from_imap {A} (body : Z -> list A -> option (list A)) (G : nat -> A -> A)
    (o N : nat) (M0 : list A) :
  (forall (i : nat) (cur : list A) (m : A),
     (i < N)%nat -> M0 !! (i + o)%nat = Some m -> cur !! (i + o)%nat = Some m ->
     length cur = length M0 ->
     body (Z.of_nat i) cur = Some (<[(i + o)%nat := G i m]> cur)) ->
  forall (n k : nat),
    (k + n <= N)%nat -> (N + o <= length M0)%nat ->
    Py.for_from (Z.of_nat k) n body
      (imap (fun j m => if decide (o <= j < o + k)%nat then G (j - o)%nat m else m) M0)
    = Some (imap (fun j m => if decide (o <= j < o + (k + n))%nat
                             then G (j - o)%nat m else m) M0).
Proof.
  intros Hbody. induction n as [|n IH]; intros k Hk HN.
  - cbn [Py.for_from]. by rewrite Nat.add_0_r.
  - destruct (lookup_lt_is_Some_2 M0 (k + o)) as [m Hm]; [lia|].
    cbn [Py.for_from].
    rewrite (Hbody k _ m); [|lia|exact Hm| |by rewrite length_imap].
    2:{ rewrite list_lookup_imap, Hm. cbn.
        destruct (decide _) as [L|_]; [lia|reflexivity]. }
    cbn [mbind option_bind].
    replace (Z.of_nat k + 1) with (Z.of_nat (S k)) by lia.
    replace (k + S n)%nat with (S k + n)%nat by lia.
    rewrite <- (IH (S k)) by lia. f_equal.
    apply list_eq. intros j.
    destruct (decide (j = k + o)%nat) as [->|Hne].
    + rewrite list_lookup_insert_eq by (rewrite length_imap; lia).
      rewrite list_lookup_imap, Hm. cbn.
      destruct (decide _) as [_|N']; [|lia].
      do 2 f_equal. lia.
    + rewrite list_lookup_insert_ne by done.
      rewrite !list_lookup_imap. destruct (M0 !! j) as [mj|]; [|reflexivity]. cbn.
      destruct (decide (o <= j < o + k)%nat), (decide (o <= j < o + S k)%nat);
        try reflexivity; lia.
Qed.

Lemma imap_id_when {A} (f : nat -> A -> A) (l : list A) :
  (forall j m, l !! j = Some m -> f j m = m) -> imap f l = l.
Proof.
  intros H. apply list_eq. intros j. rewrite list_lookup_imap.
  destruct (l !! j) as [m|] eqn:E; [|reflexivity]. cbn. by rewrite (H j m E).
Qed.

(** One cell of the overlay, applied to the column it lands in. *)
Lemma apply_overlay_cell_col (ox oy : nat) (ua : bool) (overlay merged : list (list string))
    (x y : nat) (ocol col : list string) (c m : string) :
  overlay !! x = Some ocol -> ocol !! y = Some c ->
  merged !! (x + ox)%nat = Some col -> col !! (y + oy)%nat = Some m ->
  apply_overlay_cell (mkDrawingCoord (Z.of_nat ox) (Z.of_nat oy)) ua overlay
    (Z.of_nat x) (Z.of_nat y) merged
  = Some (<[(x + ox)%nat := <[(y + oy)%nat := overlay_cell_result ua c m]> col]> merged).
Proof.
  intros Ho Hc Hm Hcol. unfold apply_overlay_cell, overlay_cell_result.
  rewrite cget_nat. unfold Canvas in *. rewrite Ho. cbn [mbind option_bind].
  rewrite Hc. cbn [mbind option_bind dcx dcy].
  replace (Z.of_nat x + Z.of_nat ox) with (Z.of_nat (x + ox)) by lia.
  replace (Z.of_nat y + Z.of_nat oy) with (Z.of_nat (y + oy)) by lia.
  pose proof (lookup_lt_Some _ _ _ Hcol) as Ly.
  destruct (decide (c <> space)) as [Hne|Heq].
  - rewrite cget_nat. unfold Canvas in *. rewrite Hm. cbn [mbind option_bind].
    rewrite Hcol. cbn [mbind option_bind].
    destruct (negb ua && is_junction_char c && is_junction_char m);
      by apply cset_nat.
  - f_equal. symmetry. rewrite (list_insert_id col) by done. by apply list_insert_id.
Qed.

(** The loop over one column of the overlay. *)
Lemma apply_overlay_column (ox oy : nat) (ua : bool) (overlay : list (list string))
    (x : nat) (ocol : list string) :
  overlay !! x = Some ocol ->
  forall (merged : list (list string)) (col : list string),
    merged !! (x + ox)%nat = Some col ->
    (length ocol + oy <= length col)%nat ->
    Py.for_from 0 (length ocol)
      (apply_overlay_cell (mkDrawingCoord (Z.of_nat ox) (Z.of_nat oy)) ua overlay
         (Z.of_nat x)) merged
    = Some (<[(x + ox)%nat :=
              imap (fun j m =>
                      if decide (oy <= j < oy + length ocol)%nat then
                        match ocol !! (j - oy)%nat with
                        | Some c => overlay_cell_result ua c m
                        | None => m
                        end
                      else m) col]> merged).
Proof.
  intros Ho merged col Hm Hl.
  set (G := fun (y : nat) (m : string) =>
              match ocol !! y with
              | Some c => overlay_cell_result ua c m
              | None => m
              end).
  set (body := fun (y : Z) (cur : list string) =>
            match ocol !! Z.to_nat y with
            | Some c =>
                m ← cur !! (Z.to_nat y + oy)%nat;
                Some (<[(Z.to_nat y + oy)%nat := overlay_cell_result ua c m]> cur)
            | None => None
            end).
  assert (Hlift : forall (n k : nat) (mg : list (list string)) (cur : list string),
            (k + n <= length ocol)%nat -> mg !! (x + ox)%nat = Some cur ->
            length cur = length col ->
            Py.for_from (Z.of_nat k) n
              (apply_overlay_cell (mkDrawingCoord (Z.of_nat ox) (Z.of_nat oy)) ua
                 overlay (Z.of_nat x)) mg
            = (cur' ← Py.for_from (Z.of_nat k) n body cur;
               Some (<[(x + ox)%nat := cur']> mg))).
  { induction n as [|n IH]; intros k mg cur Hk Hmg Hlen.
    - cbn. f_equal. symmetry. by apply list_insert_id.
    - destruct (lookup_lt_is_Some_2 ocol k) as [c Hc]; [lia|].
      destruct (lookup_lt_is_Some_2 cur (k + oy)) as [m Hcm]; [lia|].
      cbn [Py.for_from].
      rewrite (apply_overlay_cell_col ox oy ua overlay mg x k ocol cur c m Ho Hc Hmg Hcm).
      assert (Hb : body (Z.of_nat k) cur
                   = Some (<[(k + oy)%nat := overlay_cell_result ua c m]> cur)).
      { unfold body. rewrite Nat2Z.id, Hc, Hcm. reflexivity. }
      rewrite Hb. cbn [mbind option_bind].
      replace (Z.of_nat k + 1) with (Z.of_nat (S k)) by lia.
      rewrite (IH (S k) _ (<[(k + oy)%nat := overlay_cell_result ua c m]> cur)).
      + destruct (Py.for_from _ n body _) as [cur'|]; [|reflexivity].
        cbn [mbind option_bind]. by rewrite list_insert_insert_eq.
      + lia.
      + apply list_lookup_insert_eq. by apply lookup_lt_Some with cur.
      + by rewrite length_insert. }
  change 0 with (Z.of_nat 0).
  rewrite (Hlift (length ocol) 0%nat merged col) by (done || lia).
  assert (Hbody : forall (i : nat) (cur : list string) (m : string),
            (i < length ocol)%nat -> col !! (i + oy)%nat = Some m ->
            cur !! (i + oy)%nat = Some m -> length cur = length col ->
            body (Z.of_nat i) cur = Some (<[(i + oy)%nat := G i m]> cur)).
  { intros i cur m Hi _ Hcm _. unfold body, G. rewrite Nat2Z.id.
    destruct (lookup_lt_is_Some_2 ocol i Hi) as [c Hc].
    rewrite Hc, Hcm. reflexivity. }
  pose proof (for_from_imap body G oy (length ocol) col Hbody (length ocol) 0%nat
                ltac:(lia) ltac:(lia)) as F.
  rewrite (imap_id_when (fun j m => if decide (oy <= j < oy + 0)%nat
                                    then G (j - oy)%nat m else m) col) in F.
  2:{ intros j m _. destruct (decide _); [lia|reflexivity]. }
  cbn [Nat.add] in F. rewrite F. reflexivity.
Qed.

(** The whole overlay. *)
Lemma apply_overlay_eq (ox oy : nat) (ua : bool) (overlay merged : list (list string)) :
  rectangular overlay ->
  (length overlay + ox <= length merged)%nat ->
  (forall col, col ∈ merged -> (canvas_height overlay + oy <= length col)%nat) ->
  apply_overlay (mkDrawingCoord (Z.of_nat ox) (Z.of_nat oy)) ua overlay merged
  = Some (imap (fun X col =>
                  if decide (ox <= X < ox + length overlay)%nat then
                    match overlay !! (X - ox)%nat with
                    | Some ocol =>
                        imap (fun j m =>
                                if decide (oy <= j < oy + length ocol)%nat then
                                  match ocol !! (j - oy)%nat with
                                  | Some c => overlay_cell_result ua c m
                                  | None => m
                                  end
                                else m) col
                    | None => col
                    end
                  else col) merged).
Proof.
  intros R Hw Hh. unfold apply_overlay, Py.for_range. rewrite Nat2Z.id.
  pose proof (rectangular_cols overlay R) as Rc.
  set (G := fun (x : nat) (col : list string) =>
              match overlay !! x with
              | Some ocol =>
                  imap (fun j m =>
                          if decide (oy <= j < oy + length ocol)%nat then
                            match ocol !! (j - oy)%nat with
                            | Some c => overlay_cell_result ua c m
                            | None => m
                            end
                          else m) col
              | None => col
              end).
  set (body := fun (x : Z) (merged : Canvas) =>
                 len0 overlay ≫= fun h =>
                   Py.for_from 0 (Z.to_nat h)
                     (apply_overlay_cell (mkDrawingCoord (Z.of_nat ox) (Z.of_nat oy))
                        ua overlay x) merged).
  assert (Hbody : forall (i : nat) (cur : list (list string)) (m : list string),
            (i < length overlay)%nat -> merged !! (i + ox)%nat = Some m ->
            cur !! (i + ox)%nat = Some m -> length cur = length merged ->
            body (Z.of_nat i) cur = Some (<[(i + ox)%nat := G i m]> cur)).
  { intros i cur m Hi Hm0 Hcm _. unfold body, G.
    destruct (lookup_lt_is_Some_2 overlay i Hi) as [ocol Ho].
    assert (Hne : overlay <> []) by (intros E; rewrite E in Hi; simpl in Hi; lia).
    rewrite (rectangular_len0_height overlay Hne). cbn [mbind option_bind].
    rewrite Nat2Z.id.
    pose proof (Rc ocol (list_elem_of_lookup_2 _ _ _ Ho)) as Lo.
    rewrite <- Lo, Ho.
    apply (apply_overlay_column ox oy ua overlay i ocol Ho cur m Hcm).
    rewrite Lo. apply Hh. by apply list_elem_of_lookup_2 with (i + ox)%nat. }
  pose proof (for_from_imap body G ox (length overlay) merged Hbody (length overlay)
                0%nat ltac:(lia) ltac:(lia)) as F.
  rewrite (imap_id_when (fun j m => if decide (ox <= j < ox + 0)%nat
                                    then G (j - ox)%nat m else m) merged) in F.
  2:{ intros j m _. destruct (decide _); [lia|reflexivity]. }
  cbn [Nat.add] in F. exact F.
Qed.

(** [apply_overlay], the loop of [merge_canvases] over one overlay, at an
    offset that is not negative and on a canvas that is large enough,
    never raises and keeps the shape of the canvas.  A cell on which a
    character of the overlay other than the space lands takes that
    character, or the junction merged from the cell and the character when
    both are junction characters and the output is not ASCII; every other
    cell is left as it is. *)
Theorem apply_overlay_cells (offset : DrawingCoord) (ua : bool)
    (overlay merged : Canvas) :
  rectangular overlay -> 0 <= dcx offset -> 0 <= dcy offset ->
  Z.of_nat (length overlay) + dcx offset <= Z.of_nat (length merged) ->
  (forall col, col ∈ merged ->
     Z.of_nat (canvas_height overlay) + dcy offset <= Z.of_nat (length col)) ->
  exists merged', apply_overlay offset ua overlay merged = Some merged' /\
    length merged' = length merged /\
    forall x y : nat,
      cget merged' (Z.of_nat x) (Z.of_nat y)
      = (fun current =>
           match overlay_cell_at overlay (Z.to_nat (dcx offset))
                   (Z.to_nat (dcy offset)) x y with
           | Some c => overlay_cell_result ua c current
           | None => current
           end) <$> cget merged (Z.of_nat x) (Z.of_nat y).
Proof.
  intros R Hx Hy Hw Hh. destruct offset as [ox oy]. cbn [dcx dcy] in *.
  pose proof (rectangular_cols overlay R) as Rc.
  eexists. split.
  { replace ox with (Z.of_nat (Z.to_nat ox)) at 1 by lia.
    replace oy with (Z.of_nat (Z.to_nat oy)) at 1 by lia.
    apply apply_overlay_eq; [exact R|lia|].
    intros col Hc. specialize (Hh col Hc). lia. }
  split; [by rewrite length_imap|].
  intros x y. rewrite !cget_nat. unfold overlay_cell_at, Canvas in *.
  rewrite list_lookup_imap.
  destruct (merged !! x) as [col|] eqn:Hm; [|reflexivity].
  cbn [fmap option_fmap option_map mbind option_bind].
  destruct (decide (Z.to_nat ox <= x < Z.to_nat ox + length overlay)%nat) as [Lx|Lx].
  - destruct (lookup_lt_is_Some_2 overlay (x - Z.to_nat ox)) as [ocol Ho]; [lia|].
    rewrite Ho. rewrite list_lookup_imap.
    destruct (col !! y) as [cur|] eqn:Hc; [|reflexivity].
    cbn [fmap option_fmap option_map].
    destruct (decide (Z.to_nat ox <= x /\ Z.to_nat oy <= y)%nat) as [[_ Ly]|N].
    + cbn [mbind option_bind].
      destruct (decide (Z.to_nat oy <= y < Z.to_nat oy + length ocol)%nat) as [Ly'|Ly'].
      * reflexivity.
      * rewrite (proj2 (lookup_ge_None ocol (y - Z.to_nat oy))) by lia. reflexivity.
    + destruct (decide (Z.to_nat oy <= y < Z.to_nat oy + length ocol)%nat);
        [lia|reflexivity].
  - destruct (col !! y) as [cur|] eqn:Hc; [|reflexivity].
    cbn [fmap option_fmap option_map].
    destruct (decide (Z.to_nat ox <= x /\ Z.to_nat oy <= y)%nat) as [[Lx' _]|N];
      [|reflexivity].
    rewrite (proj2 (lookup_ge_None overlay (x - Z.to_nat ox))) by lia. reflexivity.
Qed.

Lemma apply_overlay_cells_witness :
  let overlay := [["x"; " "]; ["─"; "│"]] in
  let merged := [["a"; "b"; "c"]; ["d"; "│"; "─"]; ["g"; "h"; "i"]] in
  rectangular overlay /\
  exists merged', apply_overlay (mkDrawingCoord 0 1) false overlay merged = Some merged' /\
    cget merged' 1 1 = Some "┼" /\ cget merged' 0 2 = Some "c".
Proof.
  intros overlay merged.
  assert (R : rectangular overlay).
  { intros col Hc. repeat (apply elem_of_cons in Hc as [->|Hc]; [reflexivity|]).
    by apply elem_of_nil in Hc. }
  split; [exact R|].
  assert (Hh : forall col, col ∈ merged ->
            Z.of_nat (canvas_height overlay) + dcy (mkDrawingCoord 0 1)
            <= Z.of_nat (length col)).
  { intros col Hc. unfold merged in Hc.
    repeat (apply elem_of_cons in Hc as [->|Hc];
            [vm_compute; intros H; discriminate H|]).
    by apply elem_of_nil in Hc. }
  destruct (apply_overlay_cells (mkDrawingCoord 0 1) false overlay merged R
              ltac:(cbn; lia) ltac:(cbn; lia) ltac:(cbn; lia) Hh)
    as (merged' & E & _ & P).
  exists merged'. split; [exact E|]. split.
  - change (cget merged' (Z.of_nat 1) (Z.of_nat 1) = Some "┼").
    rewrite (P 1%nat 1%nat). vm_compute. reflexivity.
  - change (cget merged' (Z.of_nat 0) (Z.of_nat 2) = Some "c").
    rewrite (P 0%nat 2%nat). vm_compute. reflexivity.
Defined.

(** The loop of [merge_canvases] that copies the base pads it with
    spaces. *)
Lemma copy_base_grow_to (base : Canvas) (W H : nat) :
  rectangular base -> (length base <= W)%nat -> (canvas_height base <= H)%nat ->
  Py.for_from 0 W
    (fun x merged => Py.for_from 0 H (copy_base_cell base x) merged)
    (replicate W (replicate H space))
  = Some (grow_to W H base).
Proof.
  intros R HW HH. pose proof (rectangular_cols base R) as Rc. unfold Canvas in *.
  set (I := fun cur : list (list string) => forall col, col ∈ cur -> length col = H).
  assert (HT : length (grow_to W H base) = length (replicate W (replicate H space))).
  { rewrite grow_to_length by done. by rewrite length_replicate. }
  assert (Hstep : forall (i : nat) (t : list string) (cur : list (list string)),
     grow_to W H base !! i = Some t -> I cur ->
     length cur = length (replicate W (replicate H space)) ->
     cur !! i = replicate W (replicate H space) !! i ->
     Py.for_from 0 H (copy_base_cell base (Z.of_nat i)) cur
       = Some (<[i := t]> cur) /\ I (<[i := t]> cur)).
  { intros i t cur Ht HI Hl Hc. rewrite length_replicate in Hl.
    assert (Hi : (i < W)%nat).
    { apply lookup_lt_Some in Ht. by rewrite grow_to_length in Ht. }
    rewrite lookup_replicate_2 in Hc by done.
    rewrite grow_to_lookup in Ht by done. injection Ht as <-.
    pose proof (copy_column_full base i cur (replicate H space) Hc) as F.
    rewrite length_replicate in F. rewrite F.
    + assert (Ecol : match base !! i with
                     | Some bcol => (bcol ++ drop (length bcol) (replicate H space))%list
                     | None => replicate H space
                     end
                   = match base !! i with
                     | Some bcol => (bcol ++ replicate (H - length bcol) space)%list
                     | None => replicate H space
                     end).
      { destruct (base !! i); [|reflexivity]. by rewrite drop_replicate. }
      rewrite Ecol. split; [reflexivity|].
      intros col Hcol. apply list_elem_of_lookup in Hcol as [j Hj].
      destruct (decide (i = j)) as [->|Hne].
      * rewrite list_lookup_insert_eq in Hj by lia. injection Hj as <-.
        destruct (base !! j) as [bcol|] eqn:Ej.
        -- rewrite length_app, length_replicate.
           pose proof (Rc bcol (list_elem_of_lookup_2 _ _ _ Ej)). lia.
        -- by rewrite length_replicate.
      * rewrite list_lookup_insert_ne in Hj by done.
        apply HI. by apply list_elem_of_lookup_2 with j.
    + intros bcol Hb.
      pose proof (Rc bcol (list_elem_of_lookup_2 _ _ _ Hb)) as Lb.
      rewrite Lb. split; [|lia].
      apply rectangular_len0_height. intros ->. discriminate Hb. }
  apply (for_from_build _ _ _ I HT Hstep W 0%nat).
  - by rewrite Nat.add_0_l, length_replicate.
  - intros col Hcol. apply elem_of_replicate in Hcol as [-> _].
    by rewrite length_replicate.
  - by rewrite length_replicate.
  - reflexivity.
  - reflexivity.
Qed.

(** [merge_canvases] on a rectangular base is [increase_size] to the
    merged size followed by the overlays, applied one after the other. *)
Theorem merge_canvases_grow_then_overlay (base : Canvas) (offset : DrawingCoord)
    (ua : bool) (overlays : list Canvas) :
  rectangular base ->
  merge_canvases base offset ua overlays
  = (grown ← increase_size base (fst (merged_size base offset overlays))
                                (snd (merged_size base offset overlays));
     Py.for_each overlays (apply_overlay offset ua) grown).
Proof.
  intros R. unfold merge_canvases.
  pose proof (size_fold_ge offset overlays (fst (get_canvas_size base))
                (snd (get_canvas_size base))) as G.
  cbv zeta in G. rewrite <- surjective_pairing in G. fold (merged_size base offset overlays) in G.
  destruct (merged_size base offset overlays) as [mx my]. cbn [fst snd] in *.
  rewrite increase_size_eq by done. rewrite !Z.max_l by lia.
  cbn [mbind option_bind].
  assert (E : Py.for_range (mx + 1)
                (fun x merged => Py.for_range (my + 1) (copy_base_cell base x) merged)
                (mk_canvas mx my)
              = Some (grow_to (Z.to_nat (mx + 1)) (Z.to_nat (my + 1)) base)).
  { unfold Py.for_range.
    change (mk_canvas mx my)
      with (replicate (Z.to_nat (mx + 1)) (replicate (Z.to_nat (my + 1)) space)).
    apply copy_base_grow_to; [exact R| |].
    - unfold get_canvas_size in G. cbn [fst] in G. lia.
    - unfold canvas_height. lia. }
  rewrite E. reflexivity.
Qed.

Lemma merge_canvases_grow_then_overlay_witness :
  let base := [["a"; "b"]; ["c"; "d"]] in
  rectangular base /\
  merge_canvases base (mkDrawingCoord 1 0) true [[["x"]; ["y"]]]
    = Some [["a"; "b"]; ["x"; "d"]; ["y"; " "]].
Proof.
  intros base.
  assert (R : rectangular base).
  { intros col Hc. repeat (apply elem_of_cons in Hc as [->|Hc]; [reflexivity|]).
    by apply elem_of_nil in Hc. }
  split; [exact R|].
  rewrite (merge_canvases_grow_then_overlay base (mkDrawingCoord 1 0) true
             [[["x"]; ["y"]]] R).
  vm_compute. reflexivity.
Defined.

(** ** From grid to drawing coordinates *)

Lemma py_range_S (n : nat) : py_range (Z.of_nat (S n)) = (py_range (Z.of_nat n) ++ [Z.of_nat n])%list.
Proof.
  unfold py_range. rewrite !Nat2Z.id, seq_S, fmap_app. reflexivity.
Qed.

Lemma sum_before_S (m : gmap Z Z) (n : nat) :
  sum_before m (Z.of_nat (S n)) = sum_before m (Z.of_nat n) + default 0 (m !! Z.of_nat n).
Proof.
  unfold sum_before. rewrite py_range_S, foldl_app. reflexivity.
Qed.

Lemma default_nonneg (m : gmap Z Z) (k : Z) : nonneg_sizes m -> 0 <= default 0 (m !! k).
Proof.
  intros H. destruct (m !! k) as [v|] eqn:E; cbn; [by apply (H k v)|lia].
Qed.

Lemma sum_before_mono (m : gmap Z Z) (a b : nat) :
  nonneg_sizes m -> (a < b)%nat ->
  sum_before m (Z.of_nat a) + default 0 (m !! Z.of_nat a) <= sum_before m (Z.of_nat b).
Proof.
  intros H Hab. induction b as [|b IH]; [lia|].
  rewrite sum_before_S. pose proof (default_nonneg m (Z.of_nat b) H).
  destruct (decide (a = b)) as [->|Hne]; [lia|].
  assert (a < b)%nat by lia. specialize (IH ltac:(lia)). lia.
Qed.

(** With widths and heights that are not negative, the drawing
    coordinate of a cell lies within the span of its column and of its
    row, and cells further right or further down are not drawn further
    left or further up. *)
Theorem grid_to_drawing_coord_monotone (graph : AsciiGraph) (c1 c2 : GridCoord) :
  nonneg_sizes (column_width graph) -> nonneg_sizes (row_height graph) ->
  0 <= gx c1 -> 0 <= gy c1 ->
  let d1 := grid_to_drawing_coord graph c1 None in
  let d2 := grid_to_drawing_coord graph c2 None in
  sum_before (column_width graph) (gx c1) <= dcx d1 - offset_x graph
    <= sum_before (column_width graph) (gx c1 + 1) /\
  sum_before (row_height graph) (gy c1) <= dcy d1 - offset_y graph
    <= sum_before (row_height graph) (gy c1 + 1) /\
  (gx c1 <= gx c2 -> dcx d1 <= dcx d2) /\
  (gy c1 <= gy c2 -> dcy d1 <= dcy d2).
Proof.
  intros Hc Hr Hx Hy d1 d2. unfold d1, d2, grid_to_drawing_coord. cbn [dcx dcy].
  fold (sum_before (column_width graph) (gx c1)).
  fold (sum_before (column_width graph) (gx c2)).
  fold (sum_before (row_height graph) (gy c1)).
  fold (sum_before (row_height graph) (gy c2)).
  assert (Hmono : forall (m : gmap Z Z) (a b : Z), nonneg_sizes m -> 0 <= a -> a <= b ->
            sum_before m a <= sum_before m a + default 0 (m !! a) `div` 2
              <= sum_before m (a + 1) /\
            sum_before m a + default 0 (m !! a) `div` 2
              <= sum_before m b + default 0 (m !! b) `div` 2).
  { intros m a b Hm Ha Hab.
    pose proof (default_nonneg m a Hm) as Wa.
    pose proof (default_nonneg m b Hm) as Wb.
    assert (D : 0 <= default 0 (m !! a) `div` 2 <= default 0 (m !! a)).
    { split; [apply Z.div_pos; lia|apply Z.div_le_upper_bound; lia]. }
    assert (Db : 0 <= default 0 (m !! b) `div` 2) by (apply Z.div_pos; lia).
    replace a with (Z.of_nat (Z.to_nat a)) in * by lia.
    replace (Z.of_nat (Z.to_nat a) + 1) with (Z.of_nat (S (Z.to_nat a))) by lia.
    rewrite sum_before_S. split; [lia|].
    destruct (decide (Z.of_nat (Z.to_nat a) = b)) as [<-|Hne]; [lia|].
    replace b with (Z.of_nat (Z.to_nat b)) in * by lia.
    pose proof (sum_before_mono m (Z.to_nat a) (Z.to_nat b) Hm ltac:(lia)). lia. }
  destruct (Hmono (column_width graph) (gx c1) (gx c1) Hc Hx ltac:(lia)) as [B1 _].
  destruct (Hmono (row_height graph) (gy c1) (gy c1) Hr Hy ltac:(lia)) as [B2 _].
  split; [lia|]. split; [lia|]. split.
  - intros Hle. destruct (Hmono (column_width graph) (gx c1) (gx c2) Hc Hx Hle). lia.
  - intros Hle. destruct (Hmono (row_height graph) (gy c1) (gy c2) Hr Hy Hle). lia.
Qed.

Lemma grid_to_drawing_coord_monotone_witness :
  let graph := mkAsciiGraph [] [] [] ∅ {[ 0 := 1; 1 := 5; 2 := 1 ]}
                 {[ 0 := 1; 1 := 3; 2 := 1 ]} []
                 (mkAsciiConfig false 5 5 1 TD) 0 0 in
  grid_to_drawing_coord graph (mkGridCoord 1 1) None = mkDrawingCoord 3 2 /\
  dcx (grid_to_drawing_coord graph (mkGridCoord 1 1) None)
    <= dcx (grid_to_drawing_coord graph (mkGridCoord 2 0) None).
Proof.
  intros graph. split; [vm_compute; reflexivity|].
  assert (Hc : nonneg_sizes (column_width graph)).
  { intros k v Hk. unfold graph in Hk. cbn [column_width] in Hk.
    repeat (apply lookup_insert_Some in Hk as [[_ <-]|[_ Hk]]; [lia|]).
    apply lookup_singleton_Some in Hk as [_ <-]. lia. }
  assert (Hr : nonneg_sizes (row_height graph)).
  { intros k v Hk. unfold graph in Hk. cbn [row_height] in Hk.
    repeat (apply lookup_insert_Some in Hk as [[_ <-]|[_ Hk]]; [lia|]).
    apply lookup_singleton_Some in Hk as [_ <-]. lia. }
  destruct (grid_to_drawing_coord_monotone graph (mkGridCoord 1 1) (mkGridCoord 2 0)
              Hc Hr ltac:(cbn; lia) ltac:(cbn; lia)) as (_ & _ & Mx & _).
  apply Mx. cbn. lia.
Defined.


(** ** Lines on the canvas *)

Lemma line_points_S (count : nat) (x y dx dy : Z) :
  line_points (S count) x y dx dy =
    mkDrawingCoord x y :: line_points count (x + dx) (y + dy) dx dy.
Proof.
  unfold line_points. cbn [seq fmap list_fmap]. f_equal.
  - f_equal; lia.
  - rewrite <- seq_shift, <- list_fmap_compose. apply list_fmap_ext.
    intros _ i _. cbn. f_equal; lia.
Qed.

(** Writing a cell that is inside the canvas. *)
Lemma cset_inside (c : list (list string)) (p : DrawingCoord) (ch : string) :
  inside c p ->
  exists c' : list (list string),
    cset c (dcx p) (dcy p) ch = Some c' /\
    (forall q, inside c q -> inside c' q) /\
    cget c' (dcx p) (dcy p) = Some ch /\
    (forall X Y : nat, mkDrawingCoord (Z.of_nat X) (Z.of_nat Y) <> p ->
       cget c' (Z.of_nat X) (Z.of_nat Y) = cget c (Z.of_nat X) (Z.of_nat Y)).
Proof.
  intros (Hx & Hy & [v Hv]). destruct p as [px py]. cbn [dcx dcy] in *.
  unfold Canvas in *.
  destruct (c !! Z.to_nat px) as [col|] eqn:Hc; [|discriminate Hv].
  cbn [mbind option_bind] in Hv.
  assert (Ly : (Z.to_nat py < length col)%nat) by (by apply lookup_lt_Some with v).
  assert (Lx : (Z.to_nat px < length c)%nat) by (by apply lookup_lt_Some with col).
  exists (<[Z.to_nat px := <[Z.to_nat py := ch]> col]> c).
  assert (E := cset_nat c (Z.to_nat px) (Z.to_nat py) col ch Hc Ly).
  rewrite !Z2Nat.id in E by lia.
  split; [exact E|]. split; [|split].
  - intros q (Qx & Qy & [w Hw]). split; [exact Qx|]. split; [exact Qy|].
    unfold Canvas in *.
    destruct (decide (Z.to_nat px = Z.to_nat (dcx q))) as [Eq|Ne].
    + rewrite <- Eq in *. rewrite Hc in Hw. cbn [mbind option_bind] in Hw.
      rewrite list_lookup_insert_eq by done. cbn [mbind option_bind].
      apply lookup_lt_is_Some_2. rewrite length_insert.
      by apply lookup_lt_Some with w.
    + rewrite list_lookup_insert_ne by done. by exists w.
  - pose proof (cget_nat (<[Z.to_nat px := <[Z.to_nat py := ch]> col]> c)
                  (Z.to_nat px) (Z.to_nat py)) as G.
    rewrite !Z2Nat.id in G by lia. rewrite G. unfold Canvas in *.
    rewrite list_lookup_insert_eq by done.
    cbn [mbind option_bind]. by apply list_lookup_insert_eq.
  - intros X Y Hne. rewrite !cget_nat. unfold Canvas in *.
    destruct (decide (Z.to_nat px = X)) as [<-|Nx].
    + rewrite list_lookup_insert_eq by done. rewrite Hc. cbn [mbind option_bind].
      apply list_lookup_insert_ne. intros <-. apply Hne. f_equal; lia.
    + by rewrite list_lookup_insert_ne.
Qed.

(** The loop writes its character at the points of the line, in their
    order, and nowhere else. *)
Lemma line_loop_spec (ch : string) (dx dy : Z) (count : nat) :
  forall (x y : Z) (c : list (list string)) (drawn : list DrawingCoord),
    (forall p, p ∈ line_points count x y dx dy -> inside c p) ->
    exists c' : list (list string),
      line_loop count x y dx dy ch c drawn
        = Some (c', (drawn ++ line_points count x y dx dy)%list) /\
      (forall q, inside c q -> inside c' q) /\
      (forall p, p ∈ line_points count x y dx dy ->
         cget c' (dcx p) (dcy p) = Some ch) /\
      (forall X Y : nat,
         mkDrawingCoord (Z.of_nat X) (Z.of_nat Y) ∉ line_points count x y dx dy ->
         cget c' (Z.of_nat X) (Z.of_nat Y) = cget c (Z.of_nat X) (Z.of_nat Y)).
Proof.
  induction count as [|n IH]; intros x y c drawn Hin.
  - exists c. cbn [line_loop]. unfold line_points. cbn [seq fmap list_fmap].
    rewrite app_nil_r. split; [reflexivity|]. split; [auto|]. split; [|reflexivity].
    intros p Hp. by apply elem_of_nil in Hp.
  - rewrite line_points_S in *.
    destruct (cset_inside c (mkDrawingCoord x y) ch) as (c1 & E1 & I1 & G1 & O1).
    { apply Hin. by left. }
    cbn [dcx dcy] in E1, G1.
    destruct (IH (x + dx) (y + dy) c1 (drawn ++ [mkDrawingCoord x y])%list)
      as (c' & E & I & G & O).
    { intros p Hp. apply I1, Hin. by right. }
    exists c'. cbn [line_loop]. unfold Canvas in *. rewrite E1. cbn [mbind option_bind].
    rewrite E, <- app_assoc. split; [reflexivity|]. split; [auto|]. split.
    + intros p Hp.
      destruct (decide (p ∈ line_points n (x + dx) (y + dy) dx dy)) as [Y|N];
        [by apply G|].
      apply elem_of_cons in Hp as [->|Hp]; [|done]. cbn [dcx dcy].
      destruct (Hin (mkDrawingCoord x y)) as (Px & Py & _); [by left|].
      cbn [dcx dcy] in Px, Py.
      pose proof (O (Z.to_nat x) (Z.to_nat y)) as Q.
      rewrite !Z2Nat.id in Q by lia. rewrite (Q N). exact G1.
    + intros X Y N. apply not_elem_of_cons in N as [N1 N2].
      rewrite (O X Y N2). apply O1. exact N1.
Qed.

(** A line between two different points of one row or one column never
    raises when its cells are inside the canvas.  It runs from the start
    point moved [offset_from] cells towards the end point, to the end
    point moved [offset_to] cells further on; it puts the vertical
    character on the cells of a vertical line and the horizontal one on
    those of a horizontal line, returns these cells in the order drawn,
    and changes no other cell. *)
Theorem draw_line_straight (canvas : Canvas) (from_coord to_coord : DrawingCoord)
    (offset_from offset_to : Z) (use_ascii : bool) :
  from_coord <> to_coord ->
  dcx from_coord = dcx to_coord \/ dcy from_coord = dcy to_coord ->
  let dx := Z.sgn (dcx to_coord - dcx from_coord) in
  let dy := Z.sgn (dcy to_coord - dcy from_coord) in
  let count :=
    Z.to_nat (Z.abs (dcx to_coord - dcx from_coord)
              + Z.abs (dcy to_coord - dcy from_coord)
              + offset_to - offset_from + 1) in
  let points :=
    line_points count (dcx from_coord + offset_from * dx)
      (dcy from_coord + offset_from * dy) dx dy in
  (forall p, p ∈ points -> inside canvas p) ->
  exists drawn : Canvas,
    draw_line canvas from_coord to_coord offset_from offset_to use_ascii
      = Some (drawn, points) /\
    (forall p, p ∈ points ->
       cget drawn (dcx p) (dcy p)
         = Some (if decide (dx = 0) then v_char use_ascii else h_char use_ascii)) /\
    (forall x y : nat,
       mkDrawingCoord (Z.of_nat x) (Z.of_nat y) ∉ points ->
       cget drawn (Z.of_nat x) (Z.of_nat y) = cget canvas (Z.of_nat x) (Z.of_nat y)).
Proof.
  intros Hne Hax dx dy count points Hin.
  destruct from_coord as [fx fy], to_coord as [tx ty]. cbn [dcx dcy] in *.
  assert (Hd : fx <> tx \/ fy <> ty).
  { destruct (decide (fx = tx)) as [->|]; [|by left].
    right. intros ->. by apply Hne. }
  assert (Loop : forall ch dx' dy' n x0 y0,
            dx = dx' -> dy = dy' ->
            n = count -> x0 = fx + offset_from * dx -> y0 = fy + offset_from * dy ->
            exists c' : list (list string),
              line_loop n x0 y0 dx' dy' ch canvas [] = Some (c', points) /\
              (forall p, p ∈ points -> cget c' (dcx p) (dcy p) = Some ch) /\
              (forall x y : nat,
                 mkDrawingCoord (Z.of_nat x) (Z.of_nat y) ∉ points ->
                 cget c' (Z.of_nat x) (Z.of_nat y)
                   = cget canvas (Z.of_nat x) (Z.of_nat y))).
  { intros ch dx' dy' n x0 y0 <- <- -> -> ->.
    destruct (line_loop_spec ch dx dy count (fx + offset_from * dx)
                (fy + offset_from * dy) canvas [] Hin) as (c' & E & _ & G & O).
    exists c'. split; [exact E|]. split; [exact G|exact O]. }
  unfold draw_line, determine_direction. cbn [px py DrawingCoord_xy dcx dcy].
  destruct (decide (fx = tx)) as [Ex|Nx].
  - assert (Hdx : dx = 0) by (unfold dx; lia).
    destruct (decide (dx = 0)) as [_|]; [|done].
    destruct (decide (fy < ty)) as [Ly|Gy].
    + change (dir_equals Down Up) with false. change (dir_equals Down Down) with true.
      cbv iota. apply Loop; unfold dx, dy, count, steps; lia.
    + change (dir_equals Up Up) with true.
      cbv iota. apply Loop; unfold dx, dy, count, steps; lia.
  - assert (Ey : fy = ty) by (destruct Hax; done).
    assert (Hdx : dx <> 0) by (unfold dx; lia).
    destruct (decide (dx = 0)) as [|_]; [done|].
    destruct (decide (fy = ty)) as [_|]; [|done].
    destruct (decide (fx < tx)) as [Lx|Gx].
    + change (dir_equals Right Up) with false. change (dir_equals Right Down) with false.
      change (dir_equals Right Left) with false. change (dir_equals Right Right) with true.
      cbv iota. apply Loop; unfold dx, dy, count, steps; lia.
    + change (dir_equals Left Up) with false. change (dir_equals Left Down) with false.
      change (dir_equals Left Left) with true.
      cbv iota. apply Loop; unfold dx, dy, count, steps; lia.
Qed.

Lemma draw_line_straight_witness :
  let canvas := mk_canvas 5 2 in
  exists drawn,
    draw_line canvas (mkDrawingCoord 1 1) (mkDrawingCoord 5 1) 1 (-1) false
      = Some (drawn, [mkDrawingCoord 2 1; mkDrawingCoord 3 1; mkDrawingCoord 4 1]) /\
    cget drawn 3 1 = Some "─" /\
    cget drawn 1 1 = Some " ".
Proof.
  intros canvas.
  destruct (draw_line_straight canvas (mkDrawingCoord 1 1) (mkDrawingCoord 5 1)
              1 (-1) false) as (drawn & E & G & O).
  - discriminate.
  - right. reflexivity.
  - intros p Hp. vm_compute in Hp.
    repeat (apply elem_of_cons in Hp as [->|Hp];
            [repeat split; try (cbn; lia); by eexists|]).
    by apply elem_of_nil in Hp.
  - exists drawn. split; [exact E|]. split.
    + apply (G (mkDrawingCoord 3 1)). vm_compute. right. left.
    + change (cget drawn (Z.of_nat 1) (Z.of_nat 1) = Some " ").
      rewrite (O 1%nat 1%nat); [reflexivity|]. vm_compute. intros Hp.
      repeat (apply elem_of_cons in Hp as [Hp|Hp]; [discriminate Hp|]).
      by apply elem_of_nil in Hp.
Defined.

(** ** The label line *)

Lemma label_line_scan_spec (graph : AsciiGraph) (len : Z) (path : list GridCoord) :
  forall (steps_left pre : list GridCoord) (prev : GridCoord) (i : nat) (s : Z)
         (a b : GridCoord),
    path = (pre ++ prev :: steps_left)%list ->
    path !! i = Some a -> path !! S i = Some b ->
    (forall j wj, (j < length pre)%nat -> segment_width graph path j = Some wj ->
       wj < len /\ wj <= s) ->
    (forall j wj, (j < i)%nat -> segment_width graph path j = Some wj -> wj < s) ->
    (i = 0%nat /\ s = 0 \/
     (i < length pre)%nat /\ segment_width graph path i = Some s /\ 0 < s) ->
    exists (i' : nat) (a' b' : GridCoord) (wi : Z),
      label_line_scan graph len prev steps_left (a, b) s = (a', b') /\
      path !! i' = Some a' /\ path !! S i' = Some b' /\
      segment_width graph path i' = Some wi /\
      (len <= wi /\
       (forall j wj, (j < i')%nat -> segment_width graph path j = Some wj ->
          wj < len)
       \/
       (forall j wj, segment_width graph path j = Some wj ->
          wj < len /\ wj <= Z.max 0 wi) /\
       (forall j wj, (j < i')%nat -> segment_width graph path j = Some wj ->
          wj < wi) /\
       (i' = 0%nat \/ 0 < wi)).
Proof.
  induction steps_left as [|step rest IH]; intros pre prev i s a b Hp Ha Hb Hk Hi Hs.
  - exists i, a, b, (_calculate_line_width graph (a, b)).
    cbn [label_line_scan]. split; [reflexivity|]. split; [exact Ha|].
    split; [exact Hb|].
    assert (Ew : segment_width graph path i
                 = Some (_calculate_line_width graph (a, b))).
    { unfold segment_width. by rewrite Ha, Hb. }
    split; [exact Ew|]. right.
    assert (Hall : forall j wj, segment_width graph path j = Some wj ->
                     (j < length pre)%nat).
    { intros j wj Hj. unfold segment_width in Hj.
      destruct (path !! j) as [x|]; [|discriminate Hj].
      destruct (path !! S j) as [y|] eqn:Ey; [|discriminate Hj].
      apply lookup_lt_Some in Ey. rewrite Hp, length_app in Ey. cbn in Ey. lia. }
    destruct Hs as [[-> ->]|(Li & Es & Ps)].
    + split; [|split; [intros j wj Hj; lia|by left]].
      intros j wj Hj. destruct (Hk j wj (Hall j wj Hj) Hj). lia.
    + rewrite Ew in Es. injection Es as Es. rewrite Es.
      split; [|split; [exact Hi|by right]].
      intros j wj Hj. destruct (Hk j wj (Hall j wj Hj) Hj). lia.
  - set (k := length pre).
    assert (Pk : path !! k = Some prev).
    { rewrite Hp. by apply list_lookup_middle. }
    assert (Pk1 : path !! S k = Some step).
    { rewrite Hp. rewrite (cons_middle prev pre (step :: rest)), app_assoc.
      apply list_lookup_middle. rewrite length_app. cbn. unfold k. lia. }
    assert (Ew : segment_width graph path k
                 = Some (_calculate_line_width graph (prev, step))).
    { unfold segment_width. by rewrite Pk, Pk1. }
    assert (Sn : 0 <= s) by (destruct Hs as [[_ ->]|(_ & _ & ?)]; lia).
    cbn [label_line_scan].
    set (wk := _calculate_line_width graph (prev, step)) in *.
    destruct (decide (wk >= len)) as [Wide|Narrow].
    + exists k, prev, step, wk. split; [reflexivity|]. split; [exact Pk|].
      split; [exact Pk1|]. split; [exact Ew|]. left. split; [lia|].
      intros j wj Hj Ej. by destruct (Hk j wj Hj Ej).
    + assert (Hp' : path = ((pre ++ [prev]) ++ step :: rest)%list).
      { by rewrite <- app_assoc. }
      assert (Lp : length (pre ++ [prev]) = S k).
      { rewrite length_app. cbn. unfold k. lia. }
      destruct (decide (wk > s)) as [Larger|Smaller].
      * apply (IH (pre ++ [prev])%list step k wk prev step Hp' Pk Pk1).
        -- intros j wj Hj Ej. rewrite Lp in Hj.
           destruct (decide (j = k)) as [->|Nj].
           ++ rewrite Ew in Ej. injection Ej as <-. lia.
           ++ destruct (Hk j wj ltac:(unfold k in *; lia) Ej). lia.
        -- intros j wj Hj Ej. destruct (Hk j wj Hj Ej). lia.
        -- right. rewrite Lp. split; [lia|]. split; [exact Ew|lia].
      * apply (IH (pre ++ [prev])%list step i s a b Hp' Ha Hb).
        -- intros j wj Hj Ej. rewrite Lp in Hj.
           destruct (decide (j = k)) as [->|Nj].
           ++ rewrite Ew in Ej. injection Ej as <-. lia.
           ++ apply (Hk j wj); [unfold k in *; lia|exact Ej].
        -- exact Hi.
        -- destruct Hs as [Hs|(Li & Es & Ps)]; [by left|].
           right. rewrite Lp. split; [unfold k in *; lia|]. by split.
Qed.

(** [determine_label_line] raises exactly for an edge with a text whose
    path has fewer than two points: it reads the first two points of the
    path before it looks at anything else. *)
Theorem determine_label_line_raises_iff (graph : AsciiGraph) (edge : AsciiEdge) :
  determine_label_line graph edge = None <->
  text edge <> EmptyString /\ (length (path edge) < 2)%nat.
Proof.
  unfold determine_label_line.
  destruct (decide (String.length (text edge) = 0%nat)) as [E0|N0].
  - split; [discriminate|]. intros [Ht _]. destruct (text edge); [done|discriminate E0].
  - assert (Ht : text edge <> EmptyString) by (intros E; rewrite E in N0; by apply N0).
    destruct (path edge) as [|p0 [|p1 rest]]; cbn.
    + split; [intros _; split; [exact Ht|lia]|reflexivity].
    + split; [intros _; split; [exact Ht|lia]|reflexivity].
    + split; [discriminate|]. intros [_ Hl]. lia.
Qed.

(** A labelled edge for which the preferred search finds no path is left
    by [determine_path] with an empty path, and [determine_label_line],
    which [create_mapping] calls next on the edge, then raises whatever
    the column widths are. *)
Theorem determine_label_line_after_failed_search (fuel : nat) (graph : AsciiGraph)
    (edge : AsciiEdge) (p po a ao : Direction) (from_gc to_gc : GridCoord) :
  text edge <> EmptyString ->
  determine_start_and_end_dir (nodes graph) edge (graph_direction (config graph))
    = Some (p, po, a, ao) ->
  (n ← nodes graph !! from_node edge; grid_coord n) = Some from_gc ->
  (n ← nodes graph !! to_node edge; grid_coord n) = Some to_gc ->
  get_path fuel (grid graph) (grid_coord_direction from_gc p)
    (grid_coord_direction to_gc po) = Returns None ->
  exists edge', determine_path fuel graph edge = Returns edge' /\
    forall graph', determine_label_line graph' edge' = None.
Proof.
  intros Ht Ed Ef Et Ep. unfold determine_path. rewrite Ed, Ef, Et, Ep.
  eexists. split; [reflexivity|]. intros graph'.
  unfold determine_label_line. cbn [text path].
  destruct (decide (String.length (text edge) = 0%nat)) as [E0|N0]; [|reflexivity].
  destruct (text edge); [done|discriminate E0].
Qed.

(** For an edge with a text and a path of at least two points
    [determine_label_line] returns.  The label line it sets is a segment
    between two consecutive points of the path: the first segment at
    least as wide as the label or, when there is none, the first of the
    widest segments if that has a positive width and the first segment
    otherwise.  The column in the middle of the chosen segment gets a
    width of at least the length of the label plus two; no other column
    width and no other field of the edge changes. *)
Theorem determine_label_line_spec (graph : AsciiGraph) (edge : AsciiEdge) :
  text edge <> EmptyString -> (2 <= length (path edge))%nat ->
  let len_label := Z.of_nat (String.length (text edge)) in
  exists (i : nat) (a b : GridCoord) (wi : Z),
    path edge !! i = Some a /\ path edge !! S i = Some b /\
    segment_width graph (path edge) i = Some wi /\
    (len_label <= wi /\
     (forall j wj, (j < i)%nat -> segment_width graph (path edge) j = Some wj ->
        wj < len_label)
     \/
     (forall j wj, segment_width graph (path edge) j = Some wj ->
        wj < len_label /\ wj <= Z.max 0 wi) /\
     (forall j wj, (j < i)%nat -> segment_width graph (path edge) j = Some wj ->
        wj < wi) /\
     (i = 0%nat \/ 0 < wi)) /\
    let middle_x :=
      Z.min (gx a) (gx b) + (Z.max (gx a) (gx b) - Z.min (gx a) (gx b)) `div` 2 in
    determine_label_line graph edge =
      Some (<[middle_x := Z.max (default 0 (column_width graph !! middle_x))
                                (len_label + 2)]> (column_width graph),
            mkAsciiEdge (from_node edge) (to_node edge) (text edge) (path edge)
              [a; b] (start_dir edge) (end_dir edge)).
Proof.
  intros Ht Hl len_label.
  destruct (path edge) as [|p0 [|p1 rest]] eqn:Ep; [cbn in Hl; lia..|].
  destruct (label_line_scan_spec graph len_label (p0 :: p1 :: rest)
              (p1 :: rest) [] p0 0%nat 0 p0 p1) as (i & a & b & wi & E & Pa & Pb & Ew & C);
    [reflexivity..| | |by left|].
  { intros j wj Hj. cbn in Hj. lia. }
  { intros j wj Hj. lia. }
  exists i, a, b, wi. split; [exact Pa|]. split; [exact Pb|]. split; [exact Ew|].
  split; [exact C|]. intros middle_x.
  unfold determine_label_line. rewrite Ep.
  destruct (decide (String.length (text edge) = 0%nat)) as [E0|_].
  { destruct (text edge); [done|discriminate E0]. }
  cbn [Py.get]. change (Py.get (p0 :: p1 :: rest) 0) with (Some p0).
  change (Py.get (p0 :: p1 :: rest) 1) with (Some p1).
  cbn [mbind option_bind drop]. fold len_label. rewrite E. reflexivity.
Qed.

Lemma determine_label_line_spec_witness :
  let graph :=
    mkAsciiGraph [] [] [] ∅ (<[0 := 1]> (<[1 := 3]> (<[2 := 1]> ∅))) ∅ []
      (mkAsciiConfig false 5 5 1 TD) 0 0 in
  let edge := mkAsciiEdge 0%nat 1%nat "yes"
                [mkGridCoord 0 0; mkGridCoord 0 2; mkGridCoord 2 2] [] Down Left in
  text edge <> EmptyString /\ (2 <= length (path edge))%nat /\
  exists cw edge', determine_label_line graph edge = Some (cw, edge') /\
    length (label_line edge') = 2%nat /\ path edge' = path edge.
Proof.
  intros graph edge.
  assert (Ht : text edge <> EmptyString) by discriminate.
  assert (Hl : (2 <= length (path edge))%nat) by (cbn; lia).
  split; [exact Ht|]. split; [exact Hl|].
  destruct (determine_label_line_spec graph edge Ht Hl)
    as (i & a & b & wi & _ & _ & _ & _ & E).
  eexists _, _. split; [exact E|]. split; reflexivity.
Defined.

Lemma determine_label_line_after_failed_search_witness :
  let node x y := mkAsciiNode "n" "n" 0 (Some (mkGridCoord x y)) None None false in
  let grid :=
    reserve_block (reserve_block (reserve_block ∅ 0%nat (mkGridCoord 0 0))
                     1%nat (mkGridCoord 3 0)) 2%nat (mkGridCoord 0 4) in
  let graph :=
    mkAsciiGraph [node 0 0; node 3 0; node 0 4] [] [] grid
      ∅ ∅ [] (mkAsciiConfig false 5 5 1 TD) 0 0 in
  let edge := mkAsciiEdge 1%nat 2%nat "go" [] [] UpperLeft UpperLeft in
  exists edge', determine_path 100 graph edge = Returns edge' /\
    determine_label_line graph edge' = None.
Proof.
  intros node grid graph edge.
  destruct (determine_label_line_after_failed_search 100 graph edge Left Up Down Right
              (mkGridCoord 3 0) (mkGridCoord 0 4))
    as (edge' & E & N);
    [discriminate|vm_compute; reflexivity..|].
  exists edge'. split; [exact E|apply N].
Defined.

(** ** Column widths and row heights *)

Lemma size_at_widen (sizes : gmap Z Z) (key size k : Z) :
  size_at (widen sizes key size) k =
    if decide (key = k) then Z.max (size_at sizes key) size else size_at sizes k.
Proof.
  unfold size_at, widen. destruct (decide (key = k)) as [->|Hne].
  - by rewrite lookup_insert_eq.
  - by rewrite lookup_insert_ne.
Qed.

Lemma lookup_widen_ne (sizes : gmap Z Z) (key size k : Z) :
  key <> k -> widen sizes key size !! k = sizes !! k.
Proof. intros Hne. unfold widen. by rewrite lookup_insert_ne. Qed.

(** The loop over the three sizes of a block. *)
Lemma widen_block (sizes : gmap Z Z) (k a b c : Z) :
  Py.for_range (Z.of_nat (length [a; b; c]))
    (fun idx sizes => w ← Py.get [a; b; c] idx; Some (widen sizes (k + idx) w))
    sizes
  = Some (widen (widen (widen sizes (k + 0) a) (k + 1) b) (k + 2) c).
Proof. reflexivity. Qed.

(** The sizes after the loop and the padding entry before the block. *)
Lemma widen_block_spec (sizes : gmap Z Z) (k a b c pad : Z) :
  let sizes' :=
    let s := widen (widen (widen sizes (k + 0) a) (k + 1) b) (k + 2) c in
    if decide (k > 0) then widen s (k - 1) pad else s in
  (forall j, size_at sizes j <= size_at sizes' j) /\
  (forall j, j < k - 1 \/ k + 2 < j -> sizes' !! j = sizes !! j) /\
  size_at sizes' k = Z.max (size_at sizes k) a /\
  size_at sizes' (k + 1) = Z.max (size_at sizes (k + 1)) b /\
  size_at sizes' (k + 2) = Z.max (size_at sizes (k + 2)) c /\
  (0 < k -> size_at sizes' (k - 1) = Z.max (size_at sizes (k - 1)) pad) /\
  (k <= 0 -> sizes' !! (k - 1) = sizes !! (k - 1)).
Proof.
  intros sizes'. unfold sizes'. clear sizes'. rewrite Z.add_0_r.
  assert (T : forall (s : gmap Z Z) (x v j : Z),
            size_at s j <= size_at (widen s x v) j).
  { intros s x v j. rewrite size_at_widen. destruct (decide (x = j)) as [->|_]; lia. }
  destruct (decide (k > 0)) as [Hk|Hk].
  - split; [|split; [|repeat split]].
    + intros j. repeat (etransitivity; [|apply T]). lia.
    + intros j Hj. rewrite !lookup_widen_ne by lia. reflexivity.
    + rewrite !size_at_widen. repeat (destruct (decide _) as [?|?]; try lia).
    + rewrite !size_at_widen. repeat (destruct (decide _) as [?|?]; try lia).
    + rewrite !size_at_widen. repeat (destruct (decide _) as [?|?]; try lia).
    + intros _. rewrite !size_at_widen.
      repeat (destruct (decide _) as [?|?]; try lia).
    + intros ?. lia.
  - split; [|split; [|repeat split]].
    + intros j. repeat (etransitivity; [|apply T]). lia.
    + intros j Hj. rewrite !lookup_widen_ne by lia. reflexivity.
    + rewrite !size_at_widen. repeat (destruct (decide _) as [?|?]; try lia).
    + rewrite !size_at_widen. repeat (destruct (decide _) as [?|?]; try lia).
    + rewrite !size_at_widen. repeat (destruct (decide _) as [?|?]; try lia).
    + intros ?. lia.
    + intros _. rewrite !lookup_widen_ne by lia. reflexivity.
Qed.

Lemma set_column_width_eq (outside : AsciiGraph -> NodeRef -> bool)
    (graph : AsciiGraph) (node : NodeRef) (n : AsciiNode) (gc : GridCoord) :
  nodes graph !! node = Some n -> grid_coord n = Some gc ->
  let padding := box_border_padding (config graph) in
  let label_len := Z.of_nat (String.length (display_label n)) in
  set_column_width outside graph node =
    Some (let s := widen (widen (widen (column_width graph) (gx gc + 0) 1)
                            (gx gc + 1) (2 * padding + label_len)) (gx gc + 2) 1 in
          if decide (gx gc > 0) then widen s (gx gc - 1) (padding_x (config graph))
          else s,
          let s := widen (widen (widen (row_height graph) (gy gc + 0) 1)
                            (gy gc + 1) (1 + 2 * padding)) (gy gc + 2) 1 in
          if decide (gy gc > 0)
          then widen s (gy gc - 1)
                 (padding_y (config graph)
                  + (if outside graph node then 4 else 0))
          else s).
Proof.
  intros Hn Hgc padding label_len. unfold set_column_width.
  rewrite Hn. cbn [mbind option_bind]. rewrite Hgc. cbn [mbind option_bind].
  fold padding label_len. rewrite !widen_block. cbn [mbind option_bind].
  destruct (outside graph node); [reflexivity|].
  by rewrite (Z.add_0_r (padding_y (config graph))).
Qed.

(** [set_column_width] returns for every node that has a grid
    coordinate.  No column width and no row height gets smaller, and only
    those of the block of the node and of the column and the row before
    it can change.  Afterwards the columns of the block are at least 1,
    [2 * padding + len(label)] and 1 wide and its rows at least 1,
    [1 + 2 * padding] and 1 high; the column before a block with positive
    x is at least [padding_x] wide, and the row before a block with
    positive y at least [padding_y] high, 4 more if the node has an edge
    coming in from outside its subgraph. *)
Theorem set_column_width_spec (outside : AsciiGraph -> NodeRef -> bool)
    (graph : AsciiGraph) (node : NodeRef) (n : AsciiNode) (gc : GridCoord) :
  nodes graph !! node = Some n -> grid_coord n = Some gc ->
  let padding := box_border_padding (config graph) in
  let label_len := Z.of_nat (String.length (display_label n)) in
  exists cw rh, set_column_width outside graph node = Some (cw, rh) /\
    (forall k, size_at (column_width graph) k <= size_at cw k) /\
    (forall k, size_at (row_height graph) k <= size_at rh k) /\
    (forall k, k < gx gc - 1 \/ gx gc + 2 < k -> cw !! k = column_width graph !! k) /\
    (forall k, k < gy gc - 1 \/ gy gc + 2 < k -> rh !! k = row_height graph !! k) /\
    1 <= size_at cw (gx gc) /\ 2 * padding + label_len <= size_at cw (gx gc + 1) /\
    1 <= size_at cw (gx gc + 2) /\
    1 <= size_at rh (gy gc) /\ 1 + 2 * padding <= size_at rh (gy gc + 1) /\
    1 <= size_at rh (gy gc + 2) /\
    (0 < gx gc -> padding_x (config graph) <= size_at cw (gx gc - 1)) /\
    (0 < gy gc ->
     padding_y (config graph) + (if outside graph node then 4 else 0)
       <= size_at rh (gy gc - 1)) /\
    (gx gc <= 0 -> cw !! (gx gc - 1) = column_width graph !! (gx gc - 1)) /\
    (gy gc <= 0 -> rh !! (gy gc - 1) = row_height graph !! (gy gc - 1)).
Proof.
  intros Hn Hgc padding label_len.
  pose proof (set_column_width_eq outside graph node n gc Hn Hgc) as E.
  cbv zeta in E. fold padding label_len in E.
  destruct (widen_block_spec (column_width graph) (gx gc) 1
              (2 * padding + label_len) 1 (padding_x (config graph)))
    as (C1 & C2 & C3 & C4 & C5 & C6 & C7).
  destruct (widen_block_spec (row_height graph) (gy gc) 1 (1 + 2 * padding) 1
              (padding_y (config graph) + (if outside graph node then 4 else 0)))
    as (R1 & R2 & R3 & R4 & R5 & R6 & R7).
  cbv zeta in C1, C2, C3, C4, C5, C6, C7, R1, R2, R3, R4, R5, R6, R7.
  eexists _, _. split; [exact E|].
  split; [exact C1|]. split; [exact R1|]. split; [exact C2|]. split; [exact R2|].
  split; [rewrite C3; lia|]. split; [rewrite C4; lia|]. split; [rewrite C5; lia|].
  split; [rewrite R3; lia|]. split; [rewrite R4; lia|]. split; [rewrite R5; lia|].
  split; [intros H; rewrite (C6 H); lia|].
  split; [intros H; rewrite (R6 H); lia|].
  split; [exact C7|exact R7].
Qed.

Lemma set_column_width_spec_witness :
  let n := mkAsciiNode "a" "Web" 0 (Some (mkGridCoord 4 0)) None None false in
  let graph :=
    mkAsciiGraph [n] [] [] ∅ (<[5 := 9]> ∅) ∅ []
      (mkAsciiConfig false 5 5 1 TD) 0 0 in
  exists cw rh, set_column_width (fun _ _ => false) graph 0%nat = Some (cw, rh) /\
    9 <= size_at cw 5 /\ 5 <= size_at cw 3 /\ rh !! (-1) = None.
Proof.
  intros n graph.
  destruct (set_column_width_spec (fun _ _ => false) graph 0%nat n (mkGridCoord 4 0)
              eq_refl eq_refl)
    as (cw & rh & E & C1 & _ & _ & _ & _ & _ & _ & _ & _ & _ & Cp & _ & _ & Rp).
  exists cw, rh. split; [exact E|].
  split; [exact (C1 5)|]. split; [apply Cp; cbn; lia|].
  apply (Rp ltac:(cbn; lia)).
Defined.

(** ** A search that cannot end *)

(** A non-empty finite map has a key whose first component is largest. *)
Lemma gmap_max_fst {A} (m : gmap (Z * Z) A) :
  m <> ∅ ->
  exists k, is_Some (m !! k) /\ forall k', is_Some (m !! k') -> fst k' <= fst k.
Proof.
  induction m as [|i x m Hi _ IH] using map_first_key_ind; [done|]. intros _.
  destruct (decide (m = ∅)) as [->|Hne].
  - exists i. split; [rewrite lookup_insert_eq; by eexists|].
    intros k' Hk'. destruct (decide (i = k')) as [<-|N]; [lia|].
    rewrite lookup_insert_ne in Hk' by done. rewrite lookup_empty in Hk'.
    by destruct Hk'.
  - destruct (IH Hne) as (k & Hk & Hmax).
    destruct (decide (fst k <= fst i)) as [Le|Gt].
    + exists i. split; [rewrite lookup_insert_eq; by eexists|].
      intros k' Hk'. destruct (decide (i = k')) as [<-|N]; [lia|].
      rewrite lookup_insert_ne in Hk' by done. specialize (Hmax k' Hk'). lia.
    + exists k. split.
      * destruct (decide (i = k)) as [->|N]; [lia|]. by rewrite lookup_insert_ne.
      * intros k' Hk'. destruct (decide (i = k')) as [<-|N]; [lia|].
        rewrite lookup_insert_ne in Hk' by done. by apply Hmax.
Qed.

(** With a complete frontier the queue is not empty. *)
Lemma frontier_queue (st : SearchState) :
  frontier_except None st -> cost_so_far st <> ∅ -> pq st <> [].
Proof.
  intros F Hne E. destruct (gmap_max_fst (cost_so_far st) Hne) as (k & Hk & Hmax).
  destruct (F k Hk) as [N|[(item & Hi & _)|R]].
  - discriminate N.
  - rewrite E in Hi. by apply elem_of_nil in Hi.
  - specialize (Hmax _ R). cbn [fst] in Hmax. lia.
Qed.

Section Stuck.

Variable grid : gmap (Z * Z) NodeRef.
Variable to_coord : GridCoord.
Hypothesis free_right : forall c,
  _is_free_in_grid grid c = true ->
  _is_free_in_grid grid (moved c (mkGridCoord 1 0)) = true.
Hypothesis goal_walled : forall c d,
  d ∈ MOVE_DIRS -> _is_free_in_grid grid c = true -> moved c d <> to_coord.

(** One relaxation from a free cell records free cells only, forgets no
    cost and no queued item, and queues the cell it records. *)
Lemma relax_stuck (k0 : option (Z * Z)) (cur d : GridCoord) (cc : Z)
    (st st' : SearchState) :
  d ∈ MOVE_DIRS ->
  _is_free_in_grid grid cur = true ->
  relax grid to_coord cur cc d st = Some st' ->
  all_free grid st -> frontier_except k0 st ->
  all_free grid st' /\ frontier_except k0 st' /\
  (forall k, is_Some (cost_so_far st !! k) -> is_Some (cost_so_far st' !! k)) /\
  (d = mkGridCoord 1 0 -> is_Some (cost_so_far st' !! grid_key (moved cur d))).
Proof.
  intros Hd Hcur E AF FR. unfold relax in E. fold (moved cur d) in E.
  set (next := moved cur d) in *.
  assert (Nfree : d = mkGridCoord 1 0 -> _is_free_in_grid grid next = true).
  { intros ->. by apply free_right. }
  destruct (negb (_is_free_in_grid grid next) && negb (grid_coord_equals next to_coord))
    eqn:Hblock.
  { injection E as <-. split; [exact AF|]. split; [exact FR|]. split; [auto|].
    intros Hr. rewrite (Nfree Hr) in Hblock. discriminate Hblock. }
  assert (Hfree : _is_free_in_grid grid next = true).
  { apply andb_false_iff in Hblock as [H|H]; [by apply negb_false_iff in H|].
    apply negb_false_iff, grid_coord_equals_true in H.
    by destruct (goal_walled cur d Hd Hcur). }
  destruct (match cost_so_far st !! grid_key next with
            | Some existing => bool_decide (cc + 1 < existing)
            | None => true
            end) eqn:Hupd.
  2:{ injection E as <-. split; [exact AF|]. split; [exact FR|]. split; [auto|].
      intros _. destruct (cost_so_far st !! grid_key next); [by eexists|discriminate]. }
  destruct (push_perm (pq st) (mkPQItem next (cc + 1 + heuristic next to_coord)))
    as (pq' & Epush & Pperm).
  rewrite Epush in E. cbn [mbind option_bind] in E. injection E as <-.
  unfold all_free, frontier_except. cbn [cost_so_far pq came_from].
  split; [|split; [|split]].
  - intros k Hk. destruct (decide (grid_key next = k)) as [<-|N].
    + by rewrite key_coord_grid_key.
    + rewrite lookup_insert_ne in Hk by done. by apply AF.
  - intros k Hk. cbn [cost_so_far pq] in *.
    destruct (decide (grid_key next = k)) as [<-|N].
    + right. left. exists (mkPQItem next (cc + 1 + heuristic next to_coord)).
      split; [rewrite Pperm; left|reflexivity].
    + rewrite lookup_insert_ne in Hk by done.
      destruct (FR k Hk) as [H|[(item & Hi & Ek)|H]]; [by left| |].
      * right. left. exists item. split; [rewrite Pperm; by right|exact Ek].
      * right. right.
        destruct (decide (grid_key next = (fst k + 1, snd k))) as [<-|N'].
        -- rewrite lookup_insert_eq. by eexists.
        -- by rewrite lookup_insert_ne.
  - intros k Hk. destruct (decide (grid_key next = k)) as [<-|N].
    + rewrite lookup_insert_eq. by eexists.
    + by rewrite lookup_insert_ne.
  - intros _. rewrite lookup_insert_eq. by eexists.
Qed.

Lemma relax_all_stuck (k0 : option (Z * Z)) (cur : GridCoord) (cc : Z) :
  _is_free_in_grid grid cur = true ->
  forall (dirs : list GridCoord) (st st' : SearchState),
    (forall d, d ∈ dirs -> d ∈ MOVE_DIRS) ->
    Py.for_each dirs (relax grid to_coord cur cc) st = Some st' ->
    all_free grid st -> frontier_except k0 st ->
    all_free grid st' /\ frontier_except k0 st' /\
    (forall k, is_Some (cost_so_far st !! k) -> is_Some (cost_so_far st' !! k)) /\
    (mkGridCoord 1 0 ∈ dirs ->
     is_Some (cost_so_far st' !! grid_key (moved cur (mkGridCoord 1 0)))).
Proof.
  intros Hcur. induction dirs as [|d dirs IH]; intros st st' Hd E AF FR.
  - injection E as <-. split; [exact AF|]. split; [exact FR|]. split; [auto|].
    intros H. by apply elem_of_nil in H.
  - cbn [Py.for_each] in E.
    destruct (relax grid to_coord cur cc d st) as [st1|] eqn:E1; [|discriminate E].
    cbn [mbind option_bind] in E.
    destruct (relax_stuck k0 cur d cc st st1 (Hd d ltac:(left)) Hcur E1 AF FR)
      as (AF1 & FR1 & M1 & R1).
    destruct (IH st1 st' ltac:(intros d' Hd'; apply Hd; by right) E AF1 FR1)
      as (AF' & FR' & M' & R').
    split; [exact AF'|]. split; [exact FR'|]. split; [auto|].
    intros Hin. apply elem_of_cons in Hin as [<-|Hin]; [|by apply R'].
    apply M'. by apply R1.
Qed.

(** The loop of the search does not end: its queue is never empty and
    the goal is never taken from it. *)
Lemma get_path_loop_stuck (from_coord : GridCoord) :
  forall (fuel : nat) (st : SearchState),
    search_inv grid from_coord to_coord st ->
    all_free grid st -> frontier_except None st ->
    get_path_loop fuel grid to_coord st = OutOfFuel.
Proof.
  induction fuel as [|fuel IH]; intros st Inv AF FR.
  - assert (Hne : pq st <> []).
    { apply frontier_queue; [exact FR|]. intros E.
      pose proof (inv_start_cost _ _ _ _ Inv) as H. rewrite E in H. discriminate H. }
    cbn [get_path_loop].
    destruct (decide (0 < length (pq st))%nat) as [_|N]; [reflexivity|].
    destruct (pq st); [done|cbn in N; lia].
  - assert (Hne : pq st <> []).
    { apply frontier_queue; [exact FR|]. intros E.
      pose proof (inv_start_cost _ _ _ _ Inv) as H. rewrite E in H. discriminate H. }
    cbn [get_path_loop].
    destruct (decide (0 < length (pq st))%nat) as [_|N];
      [|destruct (pq st); [done|cbn in N; lia]].
    destruct (pop_perm (pq st) Hne) as (top & rest & Epop & _ & Perm).
    rewrite Epop.
    assert (Htop : is_Some (cost_so_far st !! grid_key (coord top))).
    { apply (inv_pq_cost _ _ _ _ Inv). rewrite Perm. left. }
    assert (Ftop : _is_free_in_grid grid (coord top) = true).
    { rewrite <- (key_coord_grid_key (coord top)). by apply AF. }
    assert (Ngoal : grid_coord_equals (coord top) to_coord = false).
    { apply grid_coord_equals_false. intros E.
      apply (goal_walled (moved (coord top) (mkGridCoord 1 0)) (mkGridCoord (-1) 0)).
      - unfold MOVE_DIRS. right. left.
      - by apply free_right.
      - rewrite <- E. unfold moved. destruct (coord top). cbn. f_equal; lia. }
    rewrite Ngoal. destruct Htop as [cc Hcc]. rewrite Hcc.
    set (st0 := mkSearchState rest (cost_so_far st) (came_from st)).
    assert (Inv0 : search_inv grid from_coord to_coord st0).
    { destruct Inv as [I1 I2 I3 I4 I5 I6 I7].
      constructor; cbn [pq cost_so_far came_from]; auto.
      intros item Hi. apply I4. rewrite Perm. by right. }
    destruct (relax_all_inv grid from_coord to_coord (coord top) cc MOVE_DIRS st0)
      as (st' & E & Inv'); [auto|exact Inv0|exact Hcc|].
    rewrite E.
    assert (FR0 : frontier_except (Some (grid_key (coord top))) st0).
    { intros k Hk. cbn [cost_so_far pq st0] in *.
      destruct (FR k Hk) as [H|[(item & Hi & Ek)|H]]; [discriminate H| |by auto].
      rewrite Perm in Hi. apply elem_of_cons in Hi as [->|Hi].
      - left. by rewrite Ek.
      - right. left. by exists item. }
    destruct (relax_all_stuck (Some (grid_key (coord top))) (coord top) cc Ftop
                MOVE_DIRS st0 st' ltac:(auto) E AF FR0) as (AF' & FR' & M' & R').
    apply IH; [exact Inv'|exact AF'|].
    intros k Hk. destruct (FR' k Hk) as [H|H]; [|by right].
    injection H as ->. right. right.
    specialize (R' ltac:(unfold MOVE_DIRS; left)).
    unfold moved, grid_key in *. cbn [gx gy fst snd] in *.
    replace (gy (coord top) + 0) with (gy (coord top)) in R' by lia. exact R'.
Qed.

End Stuck.

Lemma is_free_in_grid_iff (grid : gmap (Z * Z) NodeRef) (c : GridCoord) :
  _is_free_in_grid grid c = true <->
  0 <= gx c /\ 0 <= gy c /\ grid !! grid_key c = None.
Proof.
  unfold _is_free_in_grid.
  destruct (decide (gx c < 0 \/ gy c < 0)) as [Neg|Pos].
  - split; [discriminate|]. intros (? & ? & _). lia.
  - rewrite bool_decide_eq_true. split.
    + intros H. split; [lia|]. split; [lia|exact H].
    + intros (_ & _ & H). exact H.
Qed.

(** C2.  Where the start is a free cell, the right neighbour of every
    free cell is free and no free cell lies next to the goal, the search
    never returns: whatever number of iterations of its loop is allowed,
    the loop is still running after them.  The goal is never reached, and
    the queue never empties because the search spreads to the right
    without bound. *)
Theorem get_path_unreachable_goal_loops (grid : gmap (Z * Z) NodeRef)
    (from_coord to_coord : GridCoord) :
  _is_free_in_grid grid from_coord = true ->
  (forall c, _is_free_in_grid grid c = true ->
     _is_free_in_grid grid (moved c (mkGridCoord 1 0)) = true) ->
  (forall c d, d ∈ MOVE_DIRS -> _is_free_in_grid grid c = true ->
     moved c d <> to_coord) ->
  forall fuel : nat, get_path fuel grid from_coord to_coord = OutOfFuel.
Proof.
  intros Hstart Hright Hgoal fuel. rewrite get_path_unfold.
  apply (get_path_loop_stuck grid to_coord Hright Hgoal from_coord).
  - apply search_inv_init.
  - intros k Hk. cbn [cost_so_far] in Hk.
    destruct Hk as [v Hk]. apply lookup_singleton_Some in Hk as [<- _].
    by rewrite key_coord_grid_key.
  - intros k Hk. cbn [cost_so_far pq] in *.
    destruct Hk as [v Hk]. apply lookup_singleton_Some in Hk as [<- _].
    right. left. exists (mkPQItem from_coord 0). split; [left|reflexivity].
Qed.

(** With one node block at the origin, a search from (4, 1) for (0, 1),
    the point where an edge enters the block from the left, never
    returns. *)
Lemma get_path_unreachable_goal_loops_witness :
  let grid := reserve_block ∅ 0%nat (mkGridCoord 0 0) in
  get_path 10 grid (mkGridCoord 4 1) (mkGridCoord 0 1) = OutOfFuel /\
  forall fuel : nat,
    get_path fuel grid (mkGridCoord 4 1) (mkGridCoord 0 1) = OutOfFuel.
Proof.
  intros grid.
  assert (F : forall c, _is_free_in_grid grid c = true <->
                0 <= gx c /\ 0 <= gy c /\ ~ (gx c <= 2 /\ gy c <= 2)).
  { intros c. rewrite is_free_in_grid_iff. unfold grid.
    rewrite reserve_block_lookup. unfold in_block_at, grid_key. cbn [fst snd gx gy].
    destruct (decide _) as [Y|N]; rewrite ?lookup_empty; split;
      try (intros (? & ? & ?)); try discriminate; try lia; auto. }
  assert (L : forall fuel : nat,
            get_path fuel grid (mkGridCoord 4 1) (mkGridCoord 0 1) = OutOfFuel).
  { apply get_path_unreachable_goal_loops.
    - apply F. cbn. lia.
    - intros c Hc. apply F in Hc. apply F. unfold moved. cbn [gx gy]. lia.
    - intros c d Hd Hc E. apply F in Hc. unfold MOVE_DIRS in Hd.
      unfold moved in E. injection E as Ex Ey.
      repeat (apply elem_of_cons in Hd as [->|Hd]; [cbn [gx gy] in *; lia|]).
      by apply elem_of_nil in Hd. }
  split; [apply L|exact L].
Defined.

(** ** An edge left without a path *)

(** C1.  Three node blocks at (0, 0), (3, 0) and (0, 4) in a top-down
    graph, and an edge from the second node to the third.  The preferred
    route starts at (3, 1), a cell closed in by the first two blocks, and
    the search for it returns None; the alternative route from (4, 2) to
    (2, 5) exists.  [determine_path] leaves the edge with the alternative
    directions and an empty path. *)
Lemma determine_path_alternative_not_tried :
  let node x y := mkAsciiNode "n" "n" 0 (Some (mkGridCoord x y)) None None false in
  let grid :=
    reserve_block (reserve_block (reserve_block ∅ 0%nat (mkGridCoord 0 0))
                     1%nat (mkGridCoord 3 0)) 2%nat (mkGridCoord 0 4) in
  let graph :=
    mkAsciiGraph [node 0 0; node 3 0; node 0 4] [] [] grid
      ∅ ∅ [] (mkAsciiConfig false 5 5 1 TD) 0 0 in
  let edge := mkAsciiEdge 1%nat 2%nat "go" [] [] Middle Middle in
  determine_start_and_end_dir (nodes graph) edge TD = Some (Left, Up, Down, Right) /\
  get_path 100 grid (mkGridCoord 3 1) (mkGridCoord 1 4) = Returns None /\
  get_path 100 grid (mkGridCoord 4 2) (mkGridCoord 2 5)
    = Returns (Some [mkGridCoord 4 2; mkGridCoord 4 3; mkGridCoord 3 3;
                     mkGridCoord 3 4; mkGridCoord 3 5; mkGridCoord 2 5]) /\
  determine_path 100 graph edge
    = Returns (mkAsciiEdge 1%nat 2%nat "go" [] [] Down Right).
Proof.
  intros node grid graph edge. repeat split; vm_compute; reflexivity.
Qed.

(** ** Placing the nodes *)

Lemma aligned_blocks_meet (c1 c2 : GridCoord) (k : Z * Z) :
  aligned c1 -> aligned c2 -> in_block_at c1 k -> in_block_at c2 k -> c1 = c2.
Proof.
  intros [[a1 Ha1] [b1 Hb1]] [[a2 Ha2] [b2 Hb2]] [Hx1 Hy1] [Hx2 Hy2].
  destruct c1 as [x1 y1], c2 as [x2 y2]. cbn [gx gy] in *. f_equal; lia.
Qed.

Lemma in_block_at_self (c : GridCoord) : in_block_at c (grid_key c).
Proof. unfold in_block_at, grid_key. cbn [fst snd]. lia. Qed.

Lemma aligned_shifted (d : GraphDirection) (c : GridCoord) (k : nat) :
  aligned c -> aligned (shifted d c k).
Proof.
  intros [Hx Hy]. unfold shifted. destruct d; split; cbn [gx gy]; try done.
  - apply Z.divide_add_r; [done|]. by apply Z.divide_mul_l.
  - apply Z.divide_add_r; [done|]. by apply Z.divide_mul_l.
Qed.

(** A call of [reserve_spot_in_grid] at an aligned position keeps the
    invariant of the placement. *)
Lemma reserve_spot_in_grid_inv (depth : nat) (graph graph' : AsciiGraph)
    (node : NodeRef) (requested p : GridCoord) :
  placed_inv graph -> aligned requested ->
  reserve_spot_in_grid depth graph node requested = Some (graph', p) ->
  placed_inv graph' /\ config graph' = config graph /\ edges graph' = edges graph /\
  length (nodes graph') = length (nodes graph) /\
  (forall r, name <$> nodes graph' !! r = name <$> nodes graph !! r) /\
  (forall r, index <$> nodes graph' !! r = index <$> nodes graph !! r).
Proof.
  intros [Ia Ib] Hal E.
  set (d := graph_direction (config graph)).
  assert (Hsz : (size (filter (ahead d requested) (dom (grid graph)))
                 < S (size (grid graph)))%nat).
  { rewrite <- size_dom. apply Nat.lt_succ_r, subseteq_size. intros x Hx.
    by apply elem_of_filter in Hx as [_ Hx]. }
  destruct (first_free_shift (grid graph) d _ requested Hsz) as (k & _ & Hbefore & Hat).
  rewrite (reserve_spot_in_grid_shifts graph node d eq_refl k depth requested
             Hbefore Hat) in E.
  destruct (decide (k < depth)%nat); [|discriminate E].
  injection E as <- <-.
  set (p := shifted d requested k) in *.
  assert (Hp : aligned p) by (by apply aligned_shifted).
  assert (Hnew : forall key, grid (set_nodes (set_grid graph
                    (reserve_block (grid graph) node p))
                    (alter (fun n => set_grid_coord n p) node (nodes graph))) !! key
                 = if decide (in_block_at p key) then Some node else grid graph !! key).
  { intros key. cbn [grid set_nodes set_grid]. apply reserve_block_lookup. }
  assert (Hfree : forall key, in_block_at p key -> grid graph !! key = None).
  { intros key Hk. destruct (grid graph !! key) as [r|] eqn:Er; [|reflexivity].
    destruct (Ia key r Er) as (c & Hc & Hin & Hall).
    rewrite (aligned_blocks_meet c p key Hc Hp Hin Hk) in Hall.
    rewrite (Hall _ (in_block_at_self p)) in Hat. discriminate Hat. }
  split; [split|].
  - intros key r. rewrite Hnew. destruct (decide (in_block_at p key)) as [Hk|Hk].
    + intros [= <-]. exists p. split; [exact Hp|]. split; [exact Hk|].
      intros k' Hk'. rewrite Hnew. by destruct (decide (in_block_at p k')).
    + intros Er. destruct (Ia key r Er) as (c & Hc & Hin & Hall).
      exists c. split; [exact Hc|]. split; [exact Hin|].
      intros k' Hk'. rewrite Hnew. destruct (decide (in_block_at p k')) as [Hp'|_];
        [|by apply Hall].
      specialize (Hall k' Hk'). rewrite (Hfree k' Hp') in Hall. discriminate Hall.
  - intros r n c. cbn [nodes set_nodes]. intros Hn Hc.
    destruct (decide (node = r)) as [<-|Hne].
    + rewrite list_lookup_alter_eq in Hn.
      apply fmap_Some in Hn as (n0 & _ & ->).
      cbn [set_grid_coord grid_coord] in Hc. injection Hc as <-.
      split; [exact Hp|]. intros key Hk. rewrite Hnew.
      by destruct (decide (in_block_at p key)).
    + rewrite list_lookup_alter_ne in Hn by done.
      destruct (Ib r n c Hn Hc) as [Hc' Hall]. split; [exact Hc'|].
      intros key Hk. rewrite Hnew. destruct (decide (in_block_at p key)) as [Hp'|_];
        [|by apply Hall].
      discriminate (eq_trans (eq_sym (Hall key Hk)) (Hfree key Hp')).
  - split; [reflexivity|]. split; [reflexivity|]. cbn [nodes set_nodes].
    split; [by rewrite length_alter|].
    split; intros r; (destruct (decide (node = r)) as [<-|Hne];
      [rewrite list_lookup_alter_eq, <- option_fmap_compose; reflexivity
      |by rewrite list_lookup_alter_ne]).
Qed.

Lemma for_each_inv {A St} (P : St -> Prop) (f : A -> St -> option St) (l : list A) :
  (forall x s s', x ∈ l -> f x s = Some s' -> P s -> P s') ->
  forall s s', Py.for_each l f s = Some s' -> P s -> P s'.
Proof.
  induction l as [|x l IH]; intros Hf s s' E Hs.
  - injection E as <-. exact Hs.
  - cbn [Py.for_each] in E. apply bind_Some in E as (s1 & E1 & E).
    apply (IH ltac:(intros y t t' Hy; apply Hf; by right) s1 s' E).
    apply (Hf x s s1); [by left|exact E1|exact Hs].
Qed.

Lemma py_get_elem {A} (l : list A) (i : Z) (v : A) : Py.get l i = Some v -> v ∈ l.
Proof.
  unfold Py.get. intros H.
  destruct (decide (0 <= i)); [by apply list_elem_of_lookup_2 in H|].
  destruct (decide (- Z.of_nat (length l) <= i)); [|discriminate H].
  by apply list_elem_of_lookup_2 in H.
Qed.

Lemma py_set_aligned (l l' : list Z) (i v : Z) :
  Py.set l i v = Some l' -> aligned_levels l -> (4 | v) -> aligned_levels l'.
Proof.
  unfold Py.set. intros H Hl Hv x Hx.
  assert (Hins : forall j : nat, x ∈ <[j := v]> l -> (4 | x)).
  { intros j Hj. apply list_elem_of_lookup in Hj as [m Hm].
    destruct (decide (j = m)) as [->|Hne].
    - destruct (decide (m < length l)%nat) as [Lt|Ge].
      + rewrite list_lookup_insert_eq in Hm by done. by injection Hm as <-.
      + rewrite list_insert_ge in Hm by lia. apply Hl.
        by apply list_elem_of_lookup_2 in Hm.
    - rewrite list_lookup_insert_ne in Hm by done. apply Hl.
      by apply list_elem_of_lookup_2 in Hm. }
  destruct (decide (0 <= i)).
  - destruct (decide (i < Z.of_nat (length l))); [|discriminate H].
    injection H as <-. by apply Hins in Hx.
  - destruct (decide (- Z.of_nat (length l) <= i)); [|discriminate H].
    injection H as <-. by apply Hins in Hx.
Qed.

(** The state of the placement loops: the graph and the table of
    positions per level. *)
Lemma place_root_inv (depth : nat) (level : Z) (node : NodeRef)
    (st st' : AsciiGraph * list Z) :
  (4 | level) -> place_root depth level node st = Some st' ->
  placed_inv (fst st) /\ aligned_levels (snd st) ->
  placed_inv (fst st') /\ aligned_levels (snd st') /\
  length (nodes (fst st')) = length (nodes (fst st)).
Proof.
  intros Hlev E [Inv Hl]. destruct st as [graph hp]. cbn [fst snd] in *.
  unfold place_root in E.
  apply bind_Some in E as (highest & Eh & E).
  apply bind_Some in E as (n & En & E).
  apply bind_Some in E as (target & Et & E).
  apply bind_Some in E as ([graph1 p] & Er & E).
  apply bind_Some in E as (highest1 & Eh1 & E).
  apply bind_Some in E as (hp1 & Es & E).
  injection E as <-. cbn [fst snd].
  assert (Hh : (4 | highest)) by (apply Hl; by apply py_get_elem in Eh).
  assert (Hh1 : (4 | highest1)) by (apply Hl; by apply py_get_elem in Eh1).
  assert (Hreq : aligned match graph_direction (config graph) with
                         | LR => mkGridCoord level highest
                         | TD => mkGridCoord highest level
                         end).
  { destruct (graph_direction (config graph)); by split. }
  destruct (reserve_spot_in_grid_inv depth graph graph1 target _ p Inv Hreq Er)
    as (Inv1 & _ & _ & Len & _).
  split; [exact Inv1|]. split; [|exact Len].
  apply (py_set_aligned hp hp1 level (highest1 + 4) Es Hl).
  apply Z.divide_add_r; [exact Hh1|]. by exists 1.
Qed.

Lemma place_child_inv (depth : nat) (child_level : Z) (child : NodeRef)
    (st st' : AsciiGraph * list Z * Z) :
  (4 | child_level) -> place_child depth child_level child st = Some st' ->
  placed_inv (fst (fst st)) /\ aligned_levels (snd (fst st)) /\ (4 | snd st) ->
  placed_inv (fst (fst st')) /\ aligned_levels (snd (fst st')) /\ (4 | snd st').
Proof.
  intros Hlev E (Inv & Hl & Hp). destruct st as [[graph hp] highest]. cbn [fst snd] in *.
  unfold place_child in E.
  apply bind_Some in E as (c & Ec & E).
  destruct (decide (is_Some (grid_coord c))) as [_|_].
  { injection E as <-. cbn [fst snd]. auto. }
  apply bind_Some in E as (target & Et & E).
  apply bind_Some in E as ([graph1 p] & Er & E).
  apply bind_Some in E as (hp1 & Es & E).
  apply bind_Some in E as (highest1 & Eh1 & E).
  injection E as <-. cbn [fst snd].
  assert (Hreq : aligned match graph_direction (config graph) with
                         | LR => mkGridCoord child_level highest
                         | TD => mkGridCoord highest child_level
                         end).
  { destruct (graph_direction (config graph)); by split. }
  destruct (reserve_spot_in_grid_inv depth graph graph1 target _ p Inv Hreq Er)
    as (Inv1 & _).
  assert (Hl1 : aligned_levels hp1).
  { apply (py_set_aligned hp hp1 child_level (highest + 4) Es Hl).
    apply Z.divide_add_r; [exact Hp|]. by exists 1. }
  split; [exact Inv1|]. split; [exact Hl1|].
  apply Hl1. by apply py_get_elem in Eh1.
Qed.

Lemma place_children_inv (depth : nat) (node : NodeRef)
    (st st' : AsciiGraph * list Z) :
  place_children depth node st = Some st' ->
  placed_inv (fst st) /\ aligned_levels (snd st) ->
  placed_inv (fst st') /\ aligned_levels (snd st').
Proof.
  intros E [Inv Hl]. destruct st as [graph hp]. cbn [fst snd] in *.
  unfold place_children in E.
  apply bind_Some in E as (n & En & E).
  apply bind_Some in E as (gc & Eg & E).
  apply bind_Some in E as (highest & Eh & E).
  apply bind_Some in E as (children & Ech & E).
  apply bind_Some in E as ([[graph1 hp1] highest1] & Ef & E).
  injection E as <-. cbn [fst snd].
  destruct (proj2 Inv node n gc En Eg) as [[Hx Hy] _].
  set (child_level := match graph_direction (config graph) with
                      | LR => gx gc + 4
                      | TD => gy gc + 4
                      end) in *.
  assert (Hlev : (4 | child_level)).
  { unfold child_level. destruct (graph_direction (config graph));
      (apply Z.divide_add_r; [done|by exists 1]). }
  pose proof (for_each_inv
                (fun s : AsciiGraph * list Z * Z =>
                   placed_inv (fst (fst s)) /\ aligned_levels (snd (fst s))
                   /\ (4 | snd s))
                (place_child depth child_level) children
                ltac:(intros x s s' _ Ex Hs; by apply (place_child_inv depth child_level x s s'))
                _ _ Ef) as H.
  cbn [fst snd] in H. destruct H as (Inv1 & Hl1 & _); [|by split].
  split; [exact Inv|]. split; [exact Hl|].
  apply Hl. by apply py_get_elem in Eh.
Qed.

(** C4.  On a graph whose occupancy map is empty and whose nodes have no
    grid coordinate yet, whenever the placement of [create_mapping]
    completes, the occupancy map is made of whole 3x3 blocks at positions
    that are multiples of four: every occupied cell lies in such a block
    all nine cells of which are held by one node.  Every node with a grid
    coordinate holds all nine cells of the block there, so that the
    blocks of two different nodes have no cell in common.  Testing the
    top-left cell alone suffices because all positions tried are
    multiples of four. *)
Theorem create_mapping_placement_blocks
    (in_subgraph : AsciiGraph -> NodeRef -> bool) (depth : nat)
    (graph graph' : AsciiGraph) :
  grid graph = ∅ ->
  (forall n, n ∈ nodes graph -> grid_coord n = None) ->
  create_mapping_placement in_subgraph depth graph = Some graph' ->
  (forall k r, grid graph' !! k = Some r ->
     exists c, aligned c /\ in_block_at c k /\
       forall k', in_block_at c k' -> grid graph' !! k' = Some r) /\
  (forall r n c, nodes graph' !! r = Some n -> grid_coord n = Some c ->
     aligned c /\ forall k, in_block_at c k -> grid graph' !! k = Some r) /\
  (forall r1 r2 n1 n2 c1 c2,
     nodes graph' !! r1 = Some n1 -> grid_coord n1 = Some c1 ->
     nodes graph' !! r2 = Some n2 -> grid_coord n2 = Some c2 ->
     r1 <> r2 -> forall k, ~ (in_block_at c1 k /\ in_block_at c2 k)).
Proof.
  intros Hg Hn E. unfold create_mapping_placement in E.
  destruct (root_nodes_of graph) as [root_nodes|]; [|discriminate E].
  destruct (should_separate_roots in_subgraph graph root_nodes)
    as [should_separate|]; [|discriminate E].
  apply bind_Some in E as (st1 & E1 & E).
  apply bind_Some in E as (st2 & E2 & E).
  apply bind_Some in E as (st3 & E3 & E).
  injection E as <-.
  set (J := fun s : AsciiGraph * list Z =>
              placed_inv (fst s) /\ aligned_levels (snd s)).
  assert (J0 : J (graph, replicate 100 0)).
  { split; [split|]; cbn [fst snd].
    - intros k r Hk. rewrite Hg, lookup_empty in Hk. discriminate Hk.
    - intros r n c Hr Hc. rewrite (Hn n) in Hc; [discriminate Hc|].
      by apply list_elem_of_lookup_2 in Hr.
    - intros v Hv. apply elem_of_replicate in Hv as [-> _]. by exists 0. }
  assert (Root : forall level l s s', (4 | level) ->
            Py.for_each l (place_root depth level) s = Some s' -> J s -> J s').
  { intros level l s s' Hlev. apply for_each_inv. intros x t t' _ Ex Ht.
    destruct (place_root_inv depth level x t t' Hlev Ex Ht) as (H1 & H2 & _).
    by split. }
  assert (J1 : J st1) by (apply (Root 0 _ _ _ ltac:(by exists 0) E1 J0)).
  assert (J2 : J st2).
  { destruct (should_separate && _); [|by injection E2 as <-].
    apply (Root 4 _ _ _ ltac:(by exists 1) E2 J1). }
  assert (J3 : J st3).
  { revert E3 J2. apply for_each_inv. intros x t t' _ Ex Ht.
    by apply (place_children_inv depth x t t'). }
  destruct J3 as [[Ia Ib] _]. split; [exact Ia|]. split; [exact Ib|].
  intros r1 r2 n1 n2 c1 c2 H1 G1 H2 G2 Hne k [K1 K2].
  destruct (Ib r1 n1 c1 H1 G1) as [_ A1]. destruct (Ib r2 n2 c2 H2 G2) as [_ A2].
  apply Hne. pose proof (eq_trans (eq_sym (A1 k K1)) (A2 k K2)) as Q.
  by injection Q.
Qed.

Lemma create_mapping_placement_blocks_witness :
  let node i := mkAsciiNode (String (ascii_of_nat (65 + i)) EmptyString) "n"
                  (Z.of_nat i) None None None false in
  let edge a b := mkAsciiEdge a b EmptyString [] [] Middle Middle in
  let graph :=
    mkAsciiGraph [node 0%nat; node 1%nat; node 2%nat]
      [edge 0%nat 1%nat; edge 0%nat 2%nat] [] ∅ ∅ ∅ []
      (mkAsciiConfig false 5 5 1 TD) 0 0 in
  exists graph',
    create_mapping_placement (fun _ _ => false) 10 graph = Some graph' /\
    (grid_coord <$> nodes graph')
      = [Some (mkGridCoord 0 0); Some (mkGridCoord 0 4); Some (mkGridCoord 4 4)] /\
    forall k, ~ (in_block_at (mkGridCoord 0 4) k /\ in_block_at (mkGridCoord 4 4) k).
Proof.
  intros node edge graph.
  destruct (create_mapping_placement (fun _ _ => false) 10 graph) as [graph'|] eqn:E;
    [|vm_compute in E; discriminate E].
  assert (Hc : (grid_coord <$> nodes graph')
               = [Some (mkGridCoord 0 0); Some (mkGridCoord 0 4);
                  Some (mkGridCoord 4 4)]).
  { vm_compute in E. injection E as <-. reflexivity. }
  exists graph'. split; [reflexivity|]. split; [exact Hc|].
  destruct (create_mapping_placement_blocks (fun _ _ => false) 10 graph graph')
    as (_ & _ & D); [reflexivity| |exact E|].
  { intros n Hin. unfold graph in Hin. cbn [nodes] in Hin.
    repeat (apply elem_of_cons in Hin as [->|Hin]; [reflexivity|]).
    by apply elem_of_nil in Hin. }
  destruct (nodes graph') as [|n0 [|n1 [|n2 [|? ?]]]] eqn:En; try discriminate Hc.
  injection Hc as _ G1 G2.
  apply (D 1%nat 2%nat n1 n2); [reflexivity|exact G1|reflexivity|exact G2|lia].
Defined.

(** ** The search on the empty grid *)

Lemma heuristic_manhattan (x b : GridCoord) :
  manhattan x b <= heuristic x b <= manhattan x b + 1.
Proof. unfold heuristic, manhattan. destruct (decide _); lia. Qed.

Lemma heuristic_self (b : GridCoord) : heuristic b b = 0.
Proof. unfold heuristic. destruct (decide _); lia. Qed.

Lemma manhattan_moved_l (a c d : GridCoord) :
  d ∈ MOVE_DIRS -> manhattan a (moved c d) <= manhattan a c + 1.
Proof.
  intros Hd. unfold MOVE_DIRS in Hd.
  repeat (apply elem_of_cons in Hd as [->|Hd];
          [unfold manhattan, moved; cbn [gx gy]; lia|]).
  by apply elem_of_nil in Hd.
Qed.

Lemma manhattan_moved_r (b c d : GridCoord) :
  d ∈ MOVE_DIRS -> manhattan (moved c d) b <= manhattan c b + 1.
Proof.
  intros Hd. unfold MOVE_DIRS in Hd.
  repeat (apply elem_of_cons in Hd as [->|Hd];
          [unfold manhattan, moved; cbn [gx gy]; lia|]).
  by apply elem_of_nil in Hd.
Qed.

(** Case analysis on the direction from [a] to [b] in one coordinate. *)
Lemma sgn_cases (d : Z) :
  (d < 0 /\ Z.sgn d = -1 /\ Z.abs d = - d) \/
  (d = 0 /\ Z.sgn d = 0 /\ Z.abs d = 0) \/
  (0 < d /\ Z.sgn d = 1 /\ Z.abs d = d).
Proof. lia. Qed.

Lemma way_start (a b : GridCoord) : way a b 0 = a.
Proof.
  unfold way. destruct (decide _) as [_|N]; [|lia].
  destruct a as [ax ay]. cbn [gx gy]. f_equal; lia.
Qed.

Lemma way_end (a b : GridCoord) : way a b (manhattan a b) = b.
Proof.
  unfold way, manhattan. destruct a as [ax ay], b as [bx by']. cbn [gx gy].
  destruct (sgn_cases (bx - ax)) as [(? & -> & ?)|[(? & -> & ?)|(? & -> & ?)]];
  destruct (sgn_cases (by' - ay)) as [(? & -> & ?)|[(? & -> & ?)|(? & -> & ?)]];
  destruct (decide _); f_equal; lia.
Qed.

Lemma way_from_start (a b : GridCoord) (i : Z) :
  0 <= i <= manhattan a b -> manhattan a (way a b i) = i.
Proof.
  unfold way, manhattan. destruct a as [ax ay], b as [bx by']. cbn [gx gy].
  intros Hi.
  destruct (sgn_cases (bx - ax)) as [(? & -> & ?)|[(? & -> & ?)|(? & -> & ?)]];
  destruct (sgn_cases (by' - ay)) as [(? & -> & ?)|[(? & -> & ?)|(? & -> & ?)]];
  destruct (decide _); cbn [gx gy]; lia.
Qed.

Lemma way_to_goal (a b : GridCoord) (i : Z) :
  0 <= i <= manhattan a b -> manhattan (way a b i) b = manhattan a b - i.
Proof.
  unfold way, manhattan. destruct a as [ax ay], b as [bx by']. cbn [gx gy].
  intros Hi.
  destruct (sgn_cases (bx - ax)) as [(? & -> & ?)|[(? & -> & ?)|(? & -> & ?)]];
  destruct (sgn_cases (by' - ay)) as [(? & -> & ?)|[(? & -> & ?)|(? & -> & ?)]];
  destruct (decide _); cbn [gx gy]; lia.
Qed.

Lemma way_nonneg (a b : GridCoord) (i : Z) :
  0 <= gx a -> 0 <= gy a -> 0 <= gx b -> 0 <= gy b ->
  0 <= i <= manhattan a b -> 0 <= gx (way a b i) /\ 0 <= gy (way a b i).
Proof.
  unfold way, manhattan. destruct a as [ax ay], b as [bx by']. cbn [gx gy].
  intros ? ? ? ? Hi.
  destruct (sgn_cases (bx - ax)) as [(? & -> & ?)|[(? & -> & ?)|(? & -> & ?)]];
  destruct (sgn_cases (by' - ay)) as [(? & -> & ?)|[(? & -> & ?)|(? & -> & ?)]];
  destruct (decide _); cbn [gx gy]; lia.
Qed.

Lemma way_step (a b : GridCoord) (i : Z) :
  0 <= i < manhattan a b ->
  exists d, d ∈ MOVE_DIRS /\ moved (way a b i) d = way a b (i + 1).
Proof.
  unfold way, manhattan, moved, MOVE_DIRS.
  destruct a as [ax ay], b as [bx by']. cbn [gx gy]. intros Hi.
  destruct (sgn_cases (bx - ax)) as [(? & -> & ?)|[(? & -> & ?)|(? & -> & ?)]];
  destruct (sgn_cases (by' - ay)) as [(? & -> & ?)|[(? & -> & ?)|(? & -> & ?)]];
  destruct (decide (i <= _)); destruct (decide (i + 1 <= _)); try lia;
  first [ exists (mkGridCoord 1 0); split; [by repeat first [apply list_elem_of_here|apply list_elem_of_further]|cbn [gx gy]; f_equal; lia]
        | exists (mkGridCoord (-1) 0); split; [by repeat first [apply list_elem_of_here|apply list_elem_of_further]|cbn [gx gy]; f_equal; lia]
        | exists (mkGridCoord 0 1); split; [by repeat first [apply list_elem_of_here|apply list_elem_of_further]|cbn [gx gy]; f_equal; lia]
        | exists (mkGridCoord 0 (-1)); split; [by repeat first [apply list_elem_of_here|apply list_elem_of_further]|cbn [gx gy]; f_equal; lia] ].
Qed.

Lemma elem_of_py_range (n x : Z) : x ∈ py_range n <-> 0 <= x < n.
Proof.
  unfold py_range. rewrite list_elem_of_fmap. split.
  - intros (i & -> & Hi). apply elem_of_seq in Hi. lia.
  - intros Hx. exists (Z.to_nat x). split; [lia|]. apply elem_of_seq. lia.
Qed.

Lemma elem_of_slots (a b : GridCoord) (x y c : Z) :
  (x, y, c) ∈ slots a b <->
  0 <= x < gx b + manhattan a b + 3 /\ 0 <= y < gy b + manhattan a b + 3 /\
  0 <= c < manhattan a b + 3.
Proof.
  unfold slots. cbv zeta. rewrite elem_of_list_to_set. split.
  - intros H. apply list_elem_of_bind in H as (x' & H & Hx).
    apply list_elem_of_bind in H as (y' & H & Hy).
    apply list_elem_of_bind in H as (c' & H & Hc).
    apply list_elem_of_singleton in H. injection H as -> -> ->.
    by rewrite <- !elem_of_py_range.
  - intros (Hx & Hy & Hc). apply list_elem_of_bind. exists x.
    split; [|by apply elem_of_py_range].
    apply list_elem_of_bind. exists y. split; [|by apply elem_of_py_range].
    apply list_elem_of_bind. exists c. split; [|by apply elem_of_py_range].
    by apply list_elem_of_singleton.
Qed.

(** Recording a smaller cost for a cell near the goal leaves fewer costs
    that can still be given. *)
Lemma open_slots_update (a b : GridCoord) (cost : gmap (Z * Z) Z) (k : Z * Z) (c : Z) :
  match cost !! k with None => True | Some e => c < e end ->
  (k, c) ∈ slots a b ->
  (size (open_slots a b (<[k := c]> cost)) < size (open_slots a b cost))%nat.
Proof.
  intros Hlt Hin. apply subset_size. unfold open_slots. split.
  - intros s Hs. apply elem_of_filter in Hs as [Ho Hs]. apply elem_of_filter.
    split; [|exact Hs]. unfold slot_open in *.
    destruct (decide (k = fst s)) as [E|N].
    + rewrite <- E in *. rewrite lookup_insert_eq in Ho.
      destruct (cost !! k); [lia|exact I].
    + by rewrite lookup_insert_ne in Ho.
  - intros Hsub. assert (H : (k, c) ∈ filter (slot_open (<[k := c]> cost)) (slots a b)).
    { apply Hsub. apply elem_of_filter. split; [|exact Hin].
      unfold slot_open. cbn [fst snd]. destruct (cost !! k); [exact Hlt|exact I]. }
    apply elem_of_filter in H as [Ho _]. unfold slot_open in Ho. cbn [fst snd] in Ho.
    rewrite lookup_insert_eq in Ho. lia.
Qed.

Lemma passable_empty (b c : GridCoord) :
  0 <= gx b -> 0 <= gy b ->
  passable ∅ b c <-> 0 <= gx c /\ 0 <= gy c.
Proof.
  intros Hbx Hby. unfold passable. rewrite is_free_in_grid_iff. split.
  - intros [(? & ? & _)| ->]; lia.
  - intros [? ?]. left. split; [lia|]. split; [lia|]. apply lookup_empty.
Qed.

Lemma manhattan_coords (x b : GridCoord) (n : Z) :
  manhattan x b <= n ->
  gx x < gx b + n + 1 /\ gy x < gy b + n + 1.
Proof. unfold manhattan. lia. Qed.

Lemma manhattan_nonneg (x y : GridCoord) : 0 <= manhattan x y.
Proof. unfold manhattan. lia. Qed.

Section Astar.

Variables a b : GridCoord.
Hypothesis Hax : 0 <= gx a.
Hypothesis Hay : 0 <= gy a.
Hypothesis Hbx : 0 <= gx b.
Hypothesis Hby : 0 <= gy b.

(** Recording the cost [nc] for the cell [next] and queueing the cell. *)
Lemma astar_update (skip : option GridCoord) (next : GridCoord) (nc : Z)
    (st : SearchState) (pq' : list PQItem) (from : option GridCoord) :
  astar_inv a b skip st ->
  manhattan a next <= nc -> nc <= manhattan a b + 2 -> manhattan next b <= manhattan a b + 2 ->
  0 <= gx next -> 0 <= gy next ->
  match cost_so_far st !! grid_key next with None => True | Some e => nc < e end ->
  MinHeap.push (pq st) (mkPQItem next (nc + heuristic next b)) = Some pq' ->
  let st' := mkSearchState pq' (<[grid_key next := nc]> (cost_so_far st))
                           (<[grid_key next := from]> (came_from st)) in
  astar_inv a b skip st' /\
  (search_measure a b st' <= search_measure a b st)%nat.
Proof.
  intros Inv Hlow Hup Hgoal Hnx Hny Hlt Epush st'.
  destruct (push_perm (pq st) (mkPQItem next (nc + heuristic next b)))
    as (pq2 & Epush2 & Perm).
  rewrite Epush in Epush2. injection Epush2 as <-.
  pose proof (manhattan_nonneg a next) as Hm0.
  split.
  - constructor; unfold st'; cbn [pq cost_so_far came_from].
    + eapply push_ordered; [exact Epush|]. apply (ai_ordered _ _ _ _ Inv).
    + intros k c. destruct (decide (grid_key next = k)) as [<-|Hk].
      * rewrite lookup_insert_eq. intros [= <-]. by rewrite key_coord_grid_key.
      * rewrite lookup_insert_ne by done. apply (ai_lower _ _ _ _ Inv).
    + intros k c. destruct (decide (grid_key next = k)) as [<-|Hk].
      * rewrite lookup_insert_eq. intros [= <-]. rewrite key_coord_grid_key.
        cbn [grid_key fst snd]. lia.
      * rewrite lookup_insert_ne by done. apply (ai_upper _ _ _ _ Inv).
    + intros item Hi. rewrite Perm in Hi. apply elem_of_cons in Hi as [->|Hi].
      * cbn [coord priority]. exists nc. rewrite lookup_insert_eq.
        split; [reflexivity|]. right. lia.
      * destruct (ai_items _ _ _ _ Inv item Hi) as (c & Hc & Hor).
        destruct (decide (grid_key next = grid_key (coord item))) as [E|Hk].
        -- apply grid_key_inj in E. rewrite <- E in *. rewrite Hc in Hlt.
           exists nc. rewrite lookup_insert_eq. split; [reflexivity|].
           destruct Hor as [Hor|Hor]; [by left|right]. lia.
        -- exists c. rewrite lookup_insert_ne by done. by split.
    + intros i Hi. destruct (decide (grid_key next = grid_key (way a b i))) as [E|Hk].
      * rewrite <- E, lookup_insert_eq. intros [= ->]. right. left.
        exists (mkPQItem next (i + heuristic next b)). cbn [coord priority].
        split; [rewrite Perm; left|]. apply grid_key_inj in E.
        split; [exact E|]. rewrite E.
        pose proof (heuristic_manhattan (way a b i) b).
        pose proof (way_to_goal a b i Hi). lia.
      * rewrite lookup_insert_ne by done. intros Hc.
        destruct (ai_frontier _ _ _ _ Inv i Hi Hc) as [S|[(item & Hin & Hco & Hp)|[Hlt' Hn]]].
        -- by left.
        -- right. left. exists item. split; [rewrite Perm; by right|by split].
        -- right. right. split; [exact Hlt'|].
           destruct (decide (grid_key next = grid_key (way a b (i + 1)))) as [E|Hk'].
           ++ rewrite <- E in Hn. rewrite Hn in Hlt. apply grid_key_inj in E.
              rewrite E in Hlow. rewrite way_from_start in Hlow by lia. lia.
           ++ by rewrite lookup_insert_ne.
  - unfold search_measure, st'. cbn [pq cost_so_far].
    apply Permutation_length in Perm. cbn [length] in Perm. rewrite Perm.
    pose proof (open_slots_update a b (cost_so_far st) (grid_key next) nc Hlt) as Hsz.
    assert (Hin : (grid_key next, nc) ∈ slots a b).
    { unfold grid_key. apply elem_of_slots.
      pose proof (manhattan_coords next b (manhattan a b + 2) Hgoal). lia. }
    specialize (Hsz Hin). lia.
Qed.

(** One relaxation on the empty grid, from a cell [cur] whose cost and
    distance to the goal add up to at most [m + 1]. *)
Lemma relax_astar (cur d : GridCoord) (cc : Z) (st : SearchState) :
  d ∈ MOVE_DIRS ->
  astar_inv a b (Some cur) st ->
  cost_so_far st !! grid_key cur = Some cc ->
  cc + manhattan cur b <= manhattan a b + 1 ->
  exists st', relax ∅ b cur cc d st = Some st' /\
    astar_inv a b (Some cur) st' /\
    (search_measure a b st' <= search_measure a b st)%nat /\
    (forall k c, cost_so_far st !! k = Some c ->
       exists c', cost_so_far st' !! k = Some c' /\ c' <= c) /\
    cost_so_far st' !! grid_key cur = Some cc /\
    (passable ∅ b (moved cur d) ->
     exists c, cost_so_far st' !! grid_key (moved cur d) = Some c /\ c <= cc + 1).
Proof.
  intros Hd Inv Hcc Hpri. unfold relax.
  change (mkGridCoord (gx cur + gx d) (gy cur + gy d)) with (moved cur d).
  set (next := moved cur d).
  pose proof (move_dir_unit_step cur d Hd) as U.
  change (mkGridCoord (gx cur + gx d) (gy cur + gy d)) with next in U.
  assert (Hnc : grid_key next <> grid_key cur).
  { intros E. apply grid_key_inj in E. unfold unit_step in U. rewrite E in U. lia. }
  pose proof (ai_lower _ _ _ _ Inv _ _ Hcc) as Hlow. rewrite key_coord_grid_key in Hlow.
  pose proof (manhattan_nonneg a cur) as Hm0.
  pose proof (manhattan_moved_l a cur d Hd) as Hml. fold next in Hml.
  pose proof (manhattan_moved_r b cur d Hd) as Hmr. fold next in Hmr.
  pose proof (manhattan_nonneg cur b) as Hm1.
  destruct (negb (_is_free_in_grid ∅ next) && negb (grid_coord_equals next b))
    eqn:Hblock.
  { exists st. split; [reflexivity|]. split; [exact Inv|]. split; [lia|].
    split; [by eauto with lia|]. split; [exact Hcc|].
    intros [F| ->].
    - rewrite F in Hblock. discriminate.
    - rewrite grid_coord_equals_refl, andb_false_r in Hblock. discriminate. }
  assert (Pa : passable ∅ b next).
  { unfold passable. apply andb_false_iff in Hblock as [H|H].
    - left. by apply negb_false_iff.
    - right. apply negb_false_iff in H. by apply grid_coord_equals_true. }
  apply (passable_empty b next Hbx Hby) in Pa as [Hnx Hny].
  destruct (cost_so_far st !! grid_key next) as [existing|] eqn:Hex.
  - destruct (bool_decide (cc + 1 < existing)) eqn:Hupd.
    2:{ apply bool_decide_eq_false in Hupd.
        exists st. split; [reflexivity|]. split; [exact Inv|]. split; [lia|].
        split; [by eauto with lia|]. split; [exact Hcc|].
        intros _. exists existing. split; [exact Hex|lia]. }
    apply bool_decide_eq_true in Hupd.
    destruct (push_perm (pq st) (mkPQItem next (cc + 1 + heuristic next b)))
      as (pq' & Epush & _).
    rewrite Epush. cbn [mbind option_bind].
    destruct (astar_update (Some cur) next (cc + 1) st pq' (Some cur) Inv)
      as [Inv' Hmeas]; try lia; [by rewrite Hex|exact Epush|].
    eexists. split; [reflexivity|]. split; [exact Inv'|]. split; [exact Hmeas|].
    cbn [cost_so_far]. split; [|split].
    + intros k c Hk. destruct (decide (grid_key next = k)) as [<-|N].
      * rewrite lookup_insert_eq. exists (cc + 1). split; [reflexivity|].
        rewrite Hex in Hk. injection Hk as <-. lia.
      * rewrite lookup_insert_ne by done. exists c. split; [exact Hk|lia].
    + by rewrite lookup_insert_ne.
    + intros _. rewrite lookup_insert_eq. exists (cc + 1). split; [reflexivity|lia].
  - destruct (push_perm (pq st) (mkPQItem next (cc + 1 + heuristic next b)))
      as (pq' & Epush & _).
    rewrite Epush. cbn [mbind option_bind].
    destruct (astar_update (Some cur) next (cc + 1) st pq' (Some cur) Inv)
      as [Inv' Hmeas]; try lia; [by rewrite Hex|exact Epush|].
    eexists. split; [reflexivity|]. split; [exact Inv'|]. split; [exact Hmeas|].
    cbn [cost_so_far]. split; [|split].
    + intros k c Hk. destruct (decide (grid_key next = k)) as [<-|N].
      * rewrite Hex in Hk. discriminate.
      * rewrite lookup_insert_ne by done. exists c. split; [exact Hk|lia].
    + by rewrite lookup_insert_ne.
    + intros _. rewrite lookup_insert_eq. exists (cc + 1). split; [reflexivity|lia].
Qed.

(** The four relaxations of one iteration. *)
Lemma relax_all_astar (cur : GridCoord) (cc : Z) :
  cc + manhattan cur b <= manhattan a b + 1 ->
  forall (dirs : list GridCoord) (st : SearchState),
    (forall d, d ∈ dirs -> d ∈ MOVE_DIRS) ->
    astar_inv a b (Some cur) st ->
    cost_so_far st !! grid_key cur = Some cc ->
    exists st', Py.for_each dirs (relax ∅ b cur cc) st = Some st' /\
      astar_inv a b (Some cur) st' /\
      (search_measure a b st' <= search_measure a b st)%nat /\
      (forall k c, cost_so_far st !! k = Some c ->
         exists c', cost_so_far st' !! k = Some c' /\ c' <= c) /\
      cost_so_far st' !! grid_key cur = Some cc /\
      (forall d, d ∈ dirs -> passable ∅ b (moved cur d) ->
       exists c, cost_so_far st' !! grid_key (moved cur d) = Some c /\ c <= cc + 1).
Proof.
  intros Hpri. induction dirs as [|d dirs IH]; intros st Hd Inv Hcc.
  - exists st. split; [reflexivity|]. split; [exact Inv|]. split; [lia|].
    split; [by eauto with lia|]. split; [exact Hcc|].
    intros d Hin. by apply elem_of_nil in Hin.
  - destruct (relax_astar cur d cc st) as (st1 & E & Inv1 & Hm1 & Mono1 & Hcc1 & Hn1);
      [apply Hd; left|exact Inv|exact Hcc|exact Hpri|].
    cbn [Py.for_each]. rewrite E. cbn [mbind option_bind].
    destruct (IH st1) as (st' & E' & Inv' & Hm' & Mono' & Hcc' & Hn');
      [intros d' Hd'; apply Hd; by right|exact Inv1|exact Hcc1|].
    exists st'. split; [exact E'|]. split; [exact Inv'|]. split; [lia|].
    split; [|split; [exact Hcc'|]].
    + intros k c Hk. destruct (Mono1 k c Hk) as (c1 & Hk1 & Hle1).
      destruct (Mono' k c1 Hk1) as (c' & Hk' & Hle'). exists c'. split; [exact Hk'|lia].
    + intros d' Hin Pa. apply elem_of_cons in Hin as [->|Hin]; [|by apply Hn'].
      destruct (Hn1 Pa) as (c1 & Hk1 & Hle1).
      destruct (Mono' _ c1 Hk1) as (c' & Hk' & Hle'). exists c'. split; [exact Hk'|lia].
Qed.

(** While the goal has not been taken from the queue, the queue holds a
    point of the way with a priority of at most [m + 1]. *)
Lemma frontier_item (st : SearchState) :
  astar_inv a b None st ->
  forall (n : nat) (i : Z), 0 <= i <= manhattan a b -> manhattan a b - i <= Z.of_nat n ->
    cost_so_far st !! grid_key (way a b i) = Some i ->
    exists item, item ∈ pq st /\ priority item <= manhattan a b + 1.
Proof.
  intros Inv. induction n as [|n IH]; intros i Hi Hn Hc;
    destruct (ai_frontier _ _ _ _ Inv i Hi Hc) as [S|[(item & Hin & _ & Hp)|[Hlt Hnext]]];
    try discriminate; try (by exists item); [lia|].
  apply (IH (i + 1)); [lia|lia|exact Hnext].
Qed.

(** One iteration of the search loop. *)
Lemma astar_step (st : SearchState) :
  astar_inv a b None st -> search_inv ∅ a b st ->
  exists top rest cc,
    MinHeap.pop (pq st) = Some (Some top, rest) /\ (0 < length (pq st))%nat /\
    cost_so_far st !! grid_key (coord top) = Some cc /\
    0 <= cc /\ cc + manhattan (coord top) b <= manhattan a b + 1 /\
    (coord top <> b ->
     exists st', Py.for_each MOVE_DIRS (relax ∅ b (coord top) cc)
                   (mkSearchState rest (cost_so_far st) (came_from st)) = Some st' /\
       astar_inv a b None st' /\ search_inv ∅ a b st' /\
       (search_measure a b st' < search_measure a b st)%nat).
Proof.
  intros Inv SInv.
  pose proof (manhattan_nonneg a b) as Hm0.
  destruct (frontier_item st Inv (Z.to_nat (manhattan a b)) 0) as (it & Hit & Hitp);
    [lia|lia|rewrite way_start; apply (inv_start_cost _ _ _ _ SInv)|].
  assert (Hne : pq st <> []).
  { intros E. rewrite E in Hit. by apply elem_of_nil in Hit. }
  destruct (pop_perm (pq st) Hne) as (top & rest & Epop & _ & Perm).
  destruct (pop_ordered _ _ _ Epop (ai_ordered _ _ _ _ Inv)) as [Hord Hmin].
  pose proof (Hmin it Hit) as Hle.
  assert (Htop : top ∈ pq st) by (rewrite Perm; left).
  destruct (ai_items _ _ _ _ Inv top Htop) as (cc & Hcc & Hor).
  exists top, rest, cc. split; [exact Epop|]. split.
  { destruct (pq st); [done|simpl; lia]. }
  split; [exact Hcc|].
  pose proof (inv_cost_nonneg _ _ _ _ SInv _ _ Hcc) as Hcc0.
  split; [exact Hcc0|].
  assert (Hpri : cc + manhattan (coord top) b <= manhattan a b + 1).
  { destruct Hor as [Ea|Hor].
    - rewrite Ea in *. rewrite (inv_start_cost _ _ _ _ SInv) in Hcc.
      injection Hcc as <-. lia.
    - pose proof (heuristic_manhattan (coord top) b). lia. }
  split; [exact Hpri|]. intros Hnb.
  set (st0 := mkSearchState rest (cost_so_far st) (came_from st)).
  assert (Inv0 : astar_inv a b (Some (coord top)) st0).
  { constructor; unfold st0; cbn [pq cost_so_far came_from].
    - exact Hord.
    - apply (ai_lower _ _ _ _ Inv).
    - apply (ai_upper _ _ _ _ Inv).
    - intros item Hi. apply (ai_items _ _ _ _ Inv). rewrite Perm. by right.
    - intros i Hi Hc.
      destruct (ai_frontier _ _ _ _ Inv i Hi Hc) as [S|[(item & Hin & Hco & Hp)|H]];
        [discriminate| |by right; right].
      rewrite Perm in Hin. apply elem_of_cons in Hin as [->|Hin].
      + left. by rewrite Hco.
      + right. left. by exists item. }
  assert (SInv0 : search_inv ∅ a b st0).
  { destruct SInv as [I1 I2 I3 I4 I5 I6 I7].
    constructor; unfold st0; cbn [pq cost_so_far came_from]; auto.
    intros item Hi. apply I4. rewrite Perm. by right. }
  destruct (relax_all_astar (coord top) cc Hpri MOVE_DIRS st0)
    as (st' & E & Inv' & Hmeas & Mono & Hcc' & Hnb');
    [auto|exact Inv0|exact Hcc|].
  destruct (relax_all_inv ∅ a b (coord top) cc MOVE_DIRS st0)
    as (st'' & E'' & SInv'); [auto|exact SInv0|exact Hcc|].
  rewrite E in E''. injection E'' as <-.
  exists st'. split; [exact E|]. split; [|split; [exact SInv'|]].
  - constructor.
    + apply (ai_ordered _ _ _ _ Inv').
    + apply (ai_lower _ _ _ _ Inv').
    + apply (ai_upper _ _ _ _ Inv').
    + apply (ai_items _ _ _ _ Inv').
    + intros i Hi Hc.
      destruct (ai_frontier _ _ _ _ Inv' i Hi Hc) as [S|[H|H]];
        [|by right; left|by right; right].
      injection S as S. right. right.
      rewrite <- S in Hcc'. rewrite Hcc' in Hc. injection Hc as ->.
      assert (Hlt : i < manhattan a b).
      { destruct (decide (i = manhattan a b)) as [->|]; [|lia].
        rewrite way_end in S. by rewrite S in Hnb. }
      split; [exact Hlt|].
      destruct (way_step a b i) as (d & Hd & Hmv); [lia|].
      destruct (Hnb' d Hd) as (c & Hk & Hc1).
      { rewrite <- S, Hmv. apply passable_empty; [exact Hbx|exact Hby|].
        apply way_nonneg; auto; lia. }
      rewrite <- S, Hmv in Hk. rewrite Hk. f_equal.
      pose proof (ai_lower _ _ _ _ Inv' _ _ Hk) as Hl.
      rewrite key_coord_grid_key, way_from_start in Hl by lia. lia.
  - assert (search_measure a b st0 < search_measure a b st)%nat; [|lia].
    unfold search_measure, st0. cbn [pq cost_so_far].
    apply Permutation_length in Perm. cbn [length] in Perm. lia.
Qed.

(** The walk back from a cell of cost at most [n] ends within [n + 1]
    steps. *)
Lemma reconstruct_bound grid (st : SearchState) :
  search_inv grid a b st ->
  forall (n : nat) (c : GridCoord) (cost : Z),
    cost_so_far st !! grid_key c = Some cost -> cost <= Z.of_nat n ->
    forall (fuel : nat) (acc : list GridCoord), (n < fuel)%nat ->
      exists chain, reconstruct_path fuel (came_from st) (Some c) acc
                    = Some (chain ++ acc)%list /\
        (length chain <= n + 1)%nat.
Proof.
  intros SInv. induction n as [|n IH]; intros c cost Hc Hle fuel acc Hf;
    (destruct fuel as [|fuel]; [lia|]); cbn [reconstruct_path];
    (destruct (proj1 (inv_dom _ _ _ _ SInv _) (ex_intro _ cost Hc)) as [v Hv]);
    rewrite Hv; cbn [mbind option_bind id]; destruct v as [p|].
  - destruct (inv_parent _ _ _ _ SInv _ _ Hv) as (_ & _ & cp & ck & Hcp & Hck & Hlt).
    pose proof (inv_cost_nonneg _ _ _ _ SInv _ _ Hcp). rewrite Hc in Hck.
    injection Hck as <-. lia.
  - rewrite reconstruct_path_none. exists [c]. split; [reflexivity|simpl; lia].
  - destruct (inv_parent _ _ _ _ SInv _ _ Hv) as (_ & _ & cp & ck & Hcp & Hck & Hlt).
    rewrite Hc in Hck. injection Hck as <-.
    destruct (IH p cp Hcp ltac:(lia) fuel (c :: acc) ltac:(lia)) as (chain & E & Hlen).
    exists (chain ++ [c])%list. split; [by rewrite <- app_assoc|].
    rewrite length_app. simpl. lia.
  - rewrite reconstruct_path_none. exists [c]. split; [reflexivity|simpl; lia].
Qed.

(** The search loop on the empty grid returns a path of at most [m + 2]
    cells. *)
Lemma get_path_loop_astar :
  forall (n : nat) (st : SearchState),
    astar_inv a b None st -> search_inv ∅ a b st ->
    (search_measure a b st <= n)%nat ->
    exists path,
      get_path_loop (n + Z.to_nat (manhattan a b) + 3) ∅ b st = Returns (Some path) /\
      Z.of_nat (length path) <= manhattan a b + 2.
Proof.
  pose proof (manhattan_nonneg a b) as Hm0.
  induction n as [|n IH]; intros st Inv SInv Hmeas;
    destruct (astar_step st Inv SInv)
      as (top & rest & cc & Epop & Hlen & Hcc & Hcc0 & Hpri & Hstep).
  { unfold search_measure in Hmeas. lia. }
  change (S n + Z.to_nat (manhattan a b) + 3)%nat with (S (n + Z.to_nat (manhattan a b) + 3)).
  cbn [get_path_loop]. destruct (decide (0 < length (pq st))%nat) as [_|N]; [|lia].
  rewrite Epop. destruct (grid_coord_equals (coord top) b) eqn:Heq.
  - apply grid_coord_equals_true in Heq.
    pose proof (manhattan_nonneg (coord top) b).
    destruct (reconstruct_bound ∅ st SInv (Z.to_nat cc) (coord top) cc Hcc ltac:(lia)
                (S (n + Z.to_nat (manhattan a b) + 3)) []) as (chain & E & Hl); [lia|].
    rewrite E. exists (chain ++ [])%list. split; [reflexivity|].
    rewrite app_nil_r. lia.
  - assert (Hnb : coord top <> b).
    { intros E. apply grid_coord_equals_true in E. rewrite E in Heq. discriminate. }
    destruct (Hstep Hnb) as (st' & E & Inv' & SInv' & Hlt).
    rewrite Hcc, E. apply IH; [exact Inv'|exact SInv'|lia].
Qed.

End Astar.

(** A path of unit steps has at least as many steps as the distance of
    its ends, and as many steps more as an even number. *)
Lemma unit_path_steps (l : list GridCoord) :
  unit_path l ->
  forall x y, head l = Some x -> last l = Some y ->
    manhattan x y <= Z.of_nat (length l) - 1 /\
    exists k, Z.of_nat (length l) - 1 = gx y + gy y - (gx x + gy x) + 2 * k.
Proof.
  induction l as [|x' l IH]; [discriminate|]. intros U x y Hh Hl.
  injection Hh as ->. destruct l as [|x2 l].
  - injection Hl as ->. unfold manhattan. simpl. split; [lia|]. exists 0. lia.
  - destruct U as [U1 U2].
    destruct (IH U2 x2 y eq_refl Hl) as (Hle & k & Hk).
    unfold unit_step in U1. unfold manhattan in *.
    change (length (x :: x2 :: l)) with (S (length (x2 :: l))).
    split; [lia|].
    assert (Hs : gx x2 + gy x2 - (gx x + gy x) = 1 \/
                 gx x2 + gy x2 - (gx x + gy x) = -1) by lia.
    destruct Hs; [exists k|exists (k + 1)]; lia.
Qed.

Lemma heap_ordered_singleton (item : PQItem) : heap_ordered [item].
Proof.
  intros i j x y Hj Hi Hy. destruct j as [|j]; [lia|]. discriminate.
Qed.

Lemma astar_inv_init (a b : GridCoord) :
  0 <= gx a -> 0 <= gy a ->
  astar_inv a b None
    (mkSearchState [mkPQItem a 0] {[ grid_key a := 0 ]} {[ grid_key a := None ]}).
Proof.
  intros Hax Hay. pose proof (manhattan_nonneg a b) as Hm0.
  constructor; cbn [pq cost_so_far came_from].
  - apply heap_ordered_singleton.
  - intros k c Hk. apply lookup_singleton_Some in Hk as [<- <-].
    rewrite key_coord_grid_key. unfold manhattan. lia.
  - intros k c Hk. apply lookup_singleton_Some in Hk as [<- <-].
    rewrite key_coord_grid_key. cbn [grid_key fst snd]. lia.
  - intros item Hi. apply list_elem_of_singleton in Hi as ->. cbn [coord].
    exists 0. rewrite lookup_singleton_eq. split; [reflexivity|by left].
  - intros i Hi Hc. apply lookup_singleton_Some in Hc as [E <-].
    right. left. exists (mkPQItem a 0). cbn [coord priority].
    split; [by apply list_elem_of_singleton|]. split; [|lia].
    by apply grid_key_inj.
Qed.

(** C6.  On the empty occupancy map the search between two distinct
    cells with non-negative coordinates returns a path once it is given
    enough iterations, and the same path with any larger number of them.
    The path leads from the first cell to the second by unit steps, and
    the number of its steps is the Manhattan distance of the two cells:
    the 1 that the heuristic adds off the row and the column of the goal
    never lengthens the path. *)
Theorem get_path_empty_grid (a b : GridCoord) :
  0 <= gx a -> 0 <= gy a -> 0 <= gx b -> 0 <= gy b -> a <> b ->
  exists (fuel : nat) (path : list GridCoord),
    (forall fuel', (fuel <= fuel')%nat ->
       get_path fuel' ∅ a b = Returns (Some path)) /\
    head path = Some a /\ last path = Some b /\ unit_path path /\
    Z.of_nat (length path) - 1 = manhattan a b /\
    forall c, heuristic c b =
      manhattan c b + (if decide (gx c <> gx b /\ gy c <> gy b) then 1 else 0).
Proof.
  intros Hax Hay Hbx Hby Hab.
  set (st := mkSearchState [mkPQItem a 0] {[ grid_key a := 0 ]} {[ grid_key a := None ]}).
  destruct (get_path_loop_astar a b Hax Hay Hbx Hby (search_measure a b st) st)
    as (path & E & Hlen);
    [by apply astar_inv_init|apply search_inv_init|lia|].
  exists (search_measure a b st + Z.to_nat (manhattan a b) + 3)%nat, path.
  pose proof (get_path_loop_inv ∅ a b
                (search_measure a b st + Z.to_nat (manhattan a b) + 3)%nat st
                (search_inv_init ∅ a b)) as R.
  rewrite E in R. destruct R as (Hh & Hl & UP & _).
  split; [|split; [exact Hh|split; [exact Hl|split; [exact UP|split]]]].
  - intros fuel' Hf. rewrite get_path_unfold.
    exact (get_path_loop_mono ∅ b _ fuel' st _ E Hf).
  - destruct (unit_path_steps path UP a b Hh Hl) as (Hle & k & Hk).
    unfold manhattan in *. lia.
  - intros c. unfold heuristic, manhattan.
    destruct (decide (_ \/ _)), (decide (_ /\ _)); lia.
Qed.

Lemma get_path_empty_grid_witness :
  let a := mkGridCoord 0 0 in
  let b := mkGridCoord 2 1 in
  manhattan a b = 3 /\ heuristic a b = 4 /\
  get_path 20 ∅ a b
    = Returns (Some [mkGridCoord 0 0; mkGridCoord 0 1; mkGridCoord 1 1;
                     mkGridCoord 2 1]) /\
  exists (fuel : nat) (path : list GridCoord),
    (forall fuel', (fuel <= fuel')%nat ->
       get_path fuel' ∅ a b = Returns (Some path)) /\
    head path = Some a /\ last path = Some b /\ unit_path path /\
    Z.of_nat (length path) - 1 = 3.
Proof.
  intros a b.
  split; [reflexivity|]. split; [reflexivity|]. split; [vm_compute; reflexivity|].
  destruct (get_path_empty_grid a b) as (fuel & path & Hrun & Hh & Hl & UP & Hlen & _);
    [simpl; lia|simpl; lia|simpl; lia|simpl; lia|discriminate|].
  exists fuel, path. repeat split; assumption.
Defined.
